(** * SourceIO: the BSP container resolver and the KeyValues lexer/parser

    A shallow embedding of
      - [library/utils/kv_parser.py]            (ValveKeyValueLexer, ValveKeyValueParser),
      - [library/source1/bsp/bsp_file.py]       (open_bsp, BSPFile, RespawnBSPFile),
      - [library/source1/bsp/lumps/entity_lump.py] (EntityLump.parse),
    followed by the properties established about them.

    Python values are modelled as follows.  A [str] is a [string]; the
    one-character-or-empty strings handed around by the lexer ([symbol],
    [next_symbol], the result of [advance]) are [option ascii], [None] being
    the empty string.  Code points are restricted to Latin-1, the range the
    repository decodes its documents from.  An exception is a value of [exn];
    a computation that may raise returns a [result]. *)

From Stdlib Require Import List String Ascii Bool Arith ZArith Lia.
Import ListNotations.

Local Open Scope string_scope.
Local Open Scope list_scope.

(** ** Exceptions and results *)

Inductive exn : Type :=
| AssertionError
| IndexError
| TypeError
| AttributeError
| StopIteration
| StructError
| FGDLexerException
| FGDParserException
| KeyError
| FileNotFoundError
| ExternalError.

(** [OutOfFuel] is not a Python outcome: it marks a loop of the model that was
    given too little fuel.  Every entry point below passes enough fuel, which
    the totality lemmas establish. *)
Inductive result (A : Type) : Type :=
| Ok (a : A)
| Raise (e : exn)
| OutOfFuel.

Arguments Ok {A} a.
Arguments Raise {A} e.
Arguments OutOfFuel {A}.

Definition bind {A B : Type} (r : result A) (k : A -> result B) : result B :=
  match r with
  | Ok a => k a
  | Raise e => Raise e
  | OutOfFuel => OutOfFuel
  end.

Declare Scope py_scope.
Delimit Scope py_scope with py.
Notation "x <- c ;; k" := (bind c (fun x => k))
  (at level 61, c at next level, right associativity) : py_scope.
Notation "' pat <- c ;; k" := (bind c (fun x => let pat := x in k))
  (at level 61, pat pattern, c at next level, right associativity) : py_scope.
Local Open Scope py_scope.

(** ** Python dictionaries

    A [dict] keeps insertion order; assigning to a key that is present
    replaces the value in place, assigning to a new key appends. *)

Section Dict.
Context {K V : Type} (eqbK : K -> K -> bool).

Definition dict : Type := list (K * V).

Fixpoint dict_get (d : dict) (k : K) : option V :=
  match d with
  | [] => None
  | (k', v) :: d' => if eqbK k k' then Some v else dict_get d' k
  end.

Definition dict_mem (d : dict) (k : K) : bool :=
  match dict_get d k with Some _ => true | None => false end.

Fixpoint dict_set (d : dict) (k : K) (v : V) : dict :=
  match d with
  | [] => [(k, v)]
  | (k', v') :: d' =>
      if eqbK k k' then (k', v) :: d' else (k', v') :: dict_set d' k v
  end.

Definition dict_keys (d : dict) : list K := map fst d.

End Dict.

Arguments dict : clear implicits.

(** ** Characters *)

Definition nl : ascii := "010"%char.
Definition cr : ascii := "013"%char.
Definition tab : ascii := "009"%char.
Definition dquote : ascii := "034"%char.
Definition squote : ascii := "039"%char.
Definition backslash : ascii := "092"%char.

(** [str.isprintable] on Latin-1: everything except the control characters
    (categories Cc, Cf) and the separators other than the ASCII space. *)
Definition isprintable_char (c : ascii) : bool :=
  let n := nat_of_ascii c in
  (((32 <=? n) && (n <=? 126)) || ((161 <=? n) && negb (n =? 173)))%nat.

(** [str.isspace] on Latin-1. *)
Definition isspace_char (c : ascii) : bool :=
  let n := nat_of_ascii c in
  (((9 <=? n) && (n <=? 13)) || ((28 <=? n) && (n <=? 32))
   || (n =? 133) || (n =? 160))%nat.

Fixpoint mem_char (c : ascii) (s : string) : bool :=
  match s with
  | EmptyString => false
  | String c' s' => Ascii.eqb c c' || mem_char c s'
  end.

(** [symbol in chars] for a [symbol] of length at most one: the empty string
    is a substring of every string. *)
Definition str_in (symbol : option ascii) (chars : string) : bool :=
  match symbol with
  | None => true
  | Some c => mem_char c chars
  end.

(** [symbol == c] for a one-character literal [c]. *)
Definition sym_is (symbol : option ascii) (c : ascii) : bool :=
  match symbol with
  | None => false
  | Some c' => Ascii.eqb c' c
  end.

Definition isprintable (symbol : option ascii) : bool :=
  match symbol with None => true | Some c => isprintable_char c end.

Definition isspace (symbol : option ascii) : bool :=
  match symbol with None => false | Some c => isspace_char c end.

Definition str_of (symbol : option ascii) : string :=
  match symbol with None => EmptyString | Some c => String c EmptyString end.

Definition is_empty (s : string) : bool :=
  match s with EmptyString => true | _ => false end.

(** [str.lstrip()], [str.rstrip()] and [str.strip()] without arguments. *)
Fixpoint lstrip (s : string) : string :=
  match s with
  | EmptyString => EmptyString
  | String c s' => if isspace_char c then lstrip s' else s
  end.

Fixpoint rstrip (s : string) : string :=
  match s with
  | EmptyString => EmptyString
  | String c s' =>
      let r := rstrip s' in
      if is_empty r && isspace_char c then EmptyString else String c r
  end.

Definition strip (s : string) : string := rstrip (lstrip s).

(** [str.replace('\r\n', '\n')]. *)
Fixpoint replace_crlf (s : string) : string :=
  match s with
  | EmptyString => EmptyString
  | String c s' =>
      match s' with
      | String c' s'' =>
          if Ascii.eqb c cr && Ascii.eqb c' nl
          then String nl (replace_crlf s'')
          else String c (replace_crlf s')
      | EmptyString => String c EmptyString
      end
  end.

(** ** kv_parser.py: tokens *)

Inductive VKVToken : Type :=
| STRING | NUMERIC | IDENTIFIER | COMMENT
| LPAREN | RPAREN | LBRACKET | RBRACKET | LBRACE | RBRACE
| NEWLINE | EOF.

Definition VKVToken_eqb (a b : VKVToken) : bool :=
  match a, b with
  | STRING, STRING | NUMERIC, NUMERIC | IDENTIFIER, IDENTIFIER
  | COMMENT, COMMENT | LPAREN, LPAREN | RPAREN, RPAREN
  | LBRACKET, LBRACKET | RBRACKET, RBRACKET | LBRACE, LBRACE
  | RBRACE, RBRACE | NEWLINE, NEWLINE | EOF, EOF => true
  | _, _ => false
  end.

(** A token is the pair the lexer yields: the kind and its text, [None] for
    the end-of-file token. *)
Definition token : Type := VKVToken * option string.

(** What [warnings.warn] was called with; the fields are the values
    interpolated into the message. *)
Inductive warning : Type :=
| ExpectedTerminator (terminator got : string) (line column : nat)
| UnknownSymbol (symbol : string) (line column : nat)
| RecoverFrom (tok : VKVToken) (value : option string) (expected : VKVToken)
    (path : string) (line column : nat).

(** ** kv_parser.py: the class ValveKeyValueLexer *)

Module ValveKeyValueLexer.

(** The state of a lexer.

    [leftover] is the source's property [self.buffer[self._offset:]]: the
    lexer only ever reads the buffer from its offset on, and advancing the
    offset by one drops the first character.  [warned] is the process-wide
    warnings channel, oldest first. *)
Record t : Type := mkLexer {
  leftover : string;
  buffer_name : string;
  _line : nat;
  _column : nat;
  warned : list warning
}.

Definition init (buffer buffer_name : string) : t :=
  mkLexer (replace_crlf buffer) buffer_name 1 1 [].

Definition warn (w : warning) (lx : t) : t :=
  mkLexer (leftover lx) (buffer_name lx) (_line lx) (_column lx)
          (warned lx ++ [w]).

Definition symbol (lx : t) : option ascii :=
  match leftover lx with
  | EmptyString => None
  | String c _ => Some c
  end.

Definition next_symbol (lx : t) : option ascii :=
  match leftover lx with
  | String _ (String c _) => Some c
  | _ => None
  end.

(** [__bool__]: [self._offset < len(self.buffer)]. *)
Definition lexer_bool (lx : t) : bool :=
  negb (is_empty (leftover lx)).

Definition drop1 (s : string) : string :=
  match s with EmptyString => EmptyString | String _ s' => s' end.

Definition advance (lx : t)
  : option ascii * t :=
  match symbol lx with
  | None => (None, lx)
  | Some c =>
      let rest :=
        if Ascii.eqb c cr && sym_is (next_symbol lx) nl
        then drop1 (leftover lx) else leftover lx in
      let '(line, column) :=
        if Ascii.eqb c nl || Ascii.eqb c cr
        then (_line lx + 1, 1) else (_line lx, _column lx + 1) in
      (Some c, mkLexer (drop1 rest) (buffer_name lx) line column (warned lx))
  end.

Definition invalid_symbols : string :=
  "{}[]" ++ String dquote (String squote (String nl (String cr EmptyString))).

Definition quoted_extra : string := "$%.,\/<>=![]{}?".

Definition quotes : string := String squote (String dquote EmptyString).

Definition escapable : string :=
  String squote (String dquote (String nl (String tab (String cr EmptyString)))).

Definition _is_valid_symbol (s : option ascii) : bool :=
  (isprintable s || str_in s (String tab EmptyString))
  && negb (str_in s invalid_symbols).

Definition _is_valid_quoted_symbol (s : option ascii) : bool :=
  _is_valid_symbol s || str_in s quoted_extra.

Definition _is_escaped_symbol (lx : t) : bool :=
  str_in (next_symbol lx) (String squote (String dquote (String backslash EmptyString))).

(** The [while True] loop of [read_simple_string]. *)
Fixpoint read_simple_loop (fuel : nat) (terminators : string)
    (lx : t) (string_buffer : string)
  : result (string * t) :=
  match fuel with
  | O => OutOfFuel
  | S fuel' =>
      let s := symbol lx in
      if negb (_is_valid_symbol s) || str_in s terminators
      then Ok (string_buffer, lx)
      else
        let '(c, lx') := advance lx in
        read_simple_loop fuel' terminators lx' (string_buffer ++ str_of c)
  end.

Definition read_simple_string (terminators : string) (lx : t)
  : result (string * t) :=
  '(string_buffer, lx') <-
     read_simple_loop (S (String.length (leftover lx))) terminators lx EmptyString ;;
  Ok (rstrip (strip string_buffer), lx').

(** The [while True] loop of [read_quoted_string].  [symbol] is read once per
    round, before the backslash is skipped, and is what the two tests of the
    round look at. *)
Fixpoint read_quoted_loop (fuel : nat) (terminator : option ascii)
    (lx : t) (string_buffer : string)
  : result (string * t) :=
  match fuel with
  | O => OutOfFuel
  | S fuel' =>
      let s := symbol lx in
      let lx1 :=
        if sym_is s backslash && str_in (next_symbol lx) escapable
        then snd (advance lx) else lx in
      if negb (_is_valid_quoted_symbol s)
         || str_in s (str_of terminator ++ String nl EmptyString)
      then Ok (string_buffer, lx1)
      else
        let '(c, lx2) := advance lx1 in
        read_quoted_loop fuel' terminator lx2 (string_buffer ++ str_of c)
  end.

Definition option_ascii_eqb (a b : option ascii) : bool :=
  match a, b with
  | None, None => true
  | Some x, Some y => Ascii.eqb x y
  | _, _ => false
  end.

Definition read_quoted_string (lx : t)
  : result (string * t) :=
  let '(terminator, lx0) := advance lx in
  '(string_buffer, lx1) <-
     read_quoted_loop (S (String.length (leftover lx0))) terminator lx0 EmptyString ;;
  let lx2 :=
    if option_ascii_eqb (symbol lx1) terminator
    then snd (advance lx1)
    else warn (ExpectedTerminator (str_of terminator) (str_of (symbol lx1))
                                  (_line lx1) (_column lx1)) lx1 in
  Ok (rstrip (strip string_buffer), lx2).

(** [while self.next_symbol == '\n': self.advance()]. *)
Fixpoint skip_blank_lines (fuel : nat) (lx : t)
  : result t :=
  match fuel with
  | O => OutOfFuel
  | S fuel' =>
      if sym_is (next_symbol lx) nl
      then skip_blank_lines fuel' (snd (advance lx))
      else Ok lx
  end.

(** [while self.symbol != '\n' and self: comment += self.advance()]. *)
Fixpoint read_comment (fuel : nat) (lx : t)
  : result t :=
  match fuel with
  | O => OutOfFuel
  | S fuel' =>
      if negb (sym_is (symbol lx) nl) && lexer_bool lx
      then read_comment fuel' (snd (advance lx))
      else Ok lx
  end.

(** The generator [lex], resumed once: the rounds of its [while] loop up to
    the next [yield].  The boolean is set when the token is the final one:
    the generator has left the loop and the next resumption ends it. *)
Fixpoint lex (fuel : nat) (lx : t)
  : result (token * t * bool) :=
  match fuel with
  | O => OutOfFuel
  | S fuel' =>
      if negb (lexer_bool lx) then Ok ((EOF, None), lx, true)
      else if sym_is (symbol lx) nl then
        lx1 <- (if sym_is (next_symbol lx) nl
                then skip_blank_lines (S (String.length (leftover lx))) lx
                else Ok lx) ;;
        let '(c, lx2) := advance lx1 in
        Ok ((NEWLINE, Some (str_of c)), lx2, false)
      else if isspace (symbol lx) then
        lex fuel' (snd (advance lx))
      else if sym_is (symbol lx) "/" && sym_is (next_symbol lx) "/" then
        lx1 <- read_comment (S (String.length (leftover lx)))
                            (snd (advance (snd (advance lx)))) ;;
        lex fuel' lx1
      else if sym_is (symbol lx) "{" then
        let '(c, lx1) := advance lx in Ok ((LBRACE, Some (str_of c)), lx1, false)
      else if sym_is (symbol lx) "}" then
        let '(c, lx1) := advance lx in Ok ((RBRACE, Some (str_of c)), lx1, false)
      else if _is_valid_symbol (symbol lx) then
        '(s, lx1) <- read_simple_string (String " " (String tab (String nl EmptyString))) lx ;;
        if negb (is_empty s) then Ok ((STRING, Some s), lx1, false)
        else lex fuel' lx1
      else if str_in (symbol lx) quotes then
        if str_in (next_symbol lx) quotes then
          Ok ((STRING, Some EmptyString), snd (advance (snd (advance lx))), false)
        else
          '(s, lx1) <- read_quoted_string lx ;;
          if negb (is_empty s) then Ok ((STRING, Some s), lx1, false)
          else lex fuel' lx1
      else if sym_is (symbol lx) "[" then
        let '(c, lx1) := advance lx in Ok ((LBRACKET, Some (str_of c)), lx1, false)
      else if sym_is (symbol lx) "]" then
        let '(c, lx1) := advance lx in Ok ((RBRACKET, Some (str_of c)), lx1, false)
      else if isprintable (symbol lx) then
        let '(c, lx1) := advance lx in
        lex fuel' (warn (UnknownSymbol (str_of c) (_line lx1) (_column lx1)) lx1)
      else Raise FGDLexerException
  end.

(** Every token of a buffer, for testing: the generator run to its end. *)
Fixpoint lex_all (fuel : nat) (lx : t) : result (list token) :=
  match fuel with
  | O => OutOfFuel
  | S fuel' =>
      '(t, lx', fin) <- lex (S (String.length (leftover lx))) lx ;;
      if (fin : bool) then Ok [t]
      else ts <- lex_all fuel' lx' ;; Ok (t :: ts)
  end.

Definition tokens_of (buffer : string) : result (list token) :=
  let lx := init buffer "<memory>" in
  lex_all (S (S (String.length (leftover lx)))) lx.

End ValveKeyValueLexer.

Module L := ValveKeyValueLexer.


(** ** kv_parser.py: the class ValveKeyValueParser *)

(** The values a tree node maps its keys to: a scalar, a (value, condition)
    pair, or a nested node.  Nodes are Python dictionaries, shared between
    the tree and the parser's node stack, so a nested node is held by
    reference: [VNode a] is the dictionary at address [a] of the heap. *)
Inductive value : Type :=
| VStr (s : string)
| VCond (v : string) (condition : option string)
| VNode (addr : nat).

Definition node : Type := dict string value.

Module ValveKeyValueParser.

(** The state of a parser.  [_lexer] and [_finished] are the state of the
    generator [self._tokens]: the lexer it runs on and whether it has
    yielded its last token.  [heap] holds the dictionaries allocated so far;
    [tree] is the address of [self.tree]. *)
Record t : Type := mkParser {
  _lexer : L.t;
  _finished : bool;
  _last_peek : option token;
  _self_recover : bool;
  _path : string;
  heap : list node;
  tree : nat
}.

Definition set_tokens (p : t) (lx : L.t) (fin : bool) : t :=
  mkParser lx fin (_last_peek p) (_self_recover p) (_path p) (heap p) (tree p).

Definition set_last_peek (p : t) (lp : option token) : t :=
  mkParser (_lexer p) (_finished p) lp (_self_recover p) (_path p) (heap p) (tree p).

Definition set_heap (p : t) (h : list node) : t :=
  mkParser (_lexer p) (_finished p) (_last_peek p) (_self_recover p) (_path p) h (tree p).

(** The parser [__init__] leaves behind for a buffer and its name: the
    generator not yet started, nothing peeked, the tree a fresh empty
    dictionary. *)
Definition of_buffer (buffer name : string) (self_recover : bool) : t :=
  mkParser (L.init buffer name) false None self_recover name [ [] ] 0.

(** [__init__].  [read_text path] is [Path(path).open().read()]. *)
Definition init (read_text : string -> result string)
    (path : option string) (buffer_and_name : option (string * string))
    (self_recover : bool) : result t :=
  match path, buffer_and_name with
  | Some path, _ =>
      contents <- read_text path ;;
      Ok (of_buffer contents path self_recover)
  | None, Some (buffer, name) => Ok (of_buffer buffer name self_recover)
  | None, None => Raise AttributeError
  end.

(** A call of the class with keyword arguments: Python binds each keyword to the
    parameter of [__init__] of that name and raises [TypeError] for a keyword
    that names none; a parameter left out takes its default. *)
Inductive arg : Type :=
| AStr (s : string)
| APair (a b : string)
| ABool (b : bool).

Definition parameters : list string := ["path"; "buffer_and_name"; "self_recover"].

Definition call (read_text : string -> result string)
    (kwargs : list (string * arg)) : result t :=
  if forallb (fun kw => existsb (String.eqb (fst kw)) parameters) kwargs then
    let path :=
      match dict_get String.eqb kwargs "path" with
      | Some (AStr s) => Some s
      | _ => None
      end in
    let buffer_and_name :=
      match dict_get String.eqb kwargs "buffer_and_name" with
      | Some (APair a b) => Some (a, b)
      | _ => None
      end in
    let self_recover :=
      match dict_get String.eqb kwargs "self_recover" with
      | Some (ABool b) => b
      | _ => false
      end in
    init read_text path buffer_and_name self_recover
  else Raise TypeError.

(** [next(self._tokens)]. *)
Definition next (p : t) : result (token * t) :=
  if _finished p then Raise StopIteration
  else
    '(tok, lx, fin) <- L.lex (S (String.length (L.leftover (_lexer p)))) (_lexer p) ;;
    Ok (tok, set_tokens p lx fin).

Definition peek (p : t) : result (token * t) :=
  match _last_peek p with
  | None =>
      '(tok, p1) <- next p ;;
      Ok (tok, set_last_peek p1 (Some tok))
  | Some tok => Ok (tok, p)
  end.

Definition advance (p : t) : result (token * t) :=
  match _last_peek p with
  | Some ret => Ok (ret, set_last_peek p None)
  | None => next p
  end.

Definition match_ (token_type : VKVToken) (consume : bool) (p : t)
  : result (bool * t) :=
  '((tok, _), p1) <- peek p ;;
  if VKVToken_eqb tok token_type then
    if consume then '(_, p2) <- advance p1 ;; Ok (true, p2)
    else Ok (true, p1)
  else Ok (false, p1).

(** An upper bound on the tokens a parser can still take: one per character
    left, the end-of-file token, and the token held in [_last_peek]. *)
Definition budget (p : t) : nat :=
  String.length (L.leftover (_lexer p))
  + (if _finished p then 0 else 1)
  + (match _last_peek p with Some _ => 1 | None => 0 end).

(** [while not self.match(VKVToken.NEWLINE): self.advance()]. *)
Fixpoint skip_to_newline (fuel : nat) (p : t) : result t :=
  match fuel with
  | O => OutOfFuel
  | S fuel' =>
      '(b, p1) <- match_ NEWLINE false p ;;
      if (b : bool) then Ok p1
      else '(_, p2) <- advance p1 ;; skip_to_newline fuel' p2
  end.

Definition warn (w : warning) (p : t) : t :=
  set_tokens p (L.warn w (_lexer p)) (_finished p).

Definition expect (token_type : VKVToken) (p : t)
  : result (option string * t) :=
  '((tok, v), p1) <- peek p ;;
  if VKVToken_eqb tok token_type then
    '(_, p2) <- advance p1 ;;
    Ok (v, p2)
  else if _self_recover p1 then
    let p2 := warn (RecoverFrom tok v token_type (_path p1)
                      (L._line (_lexer p1)) (L._column (_lexer p1))) p1 in
    p3 <- skip_to_newline (S (budget p2)) p2 ;;
    Ok (None, p3)
  else Raise FGDParserException.

(** [while self.match(VKVToken.NEWLINE): self.advance()]. *)
Fixpoint _skip_newlines_loop (fuel : nat) (p : t) : result t :=
  match fuel with
  | O => OutOfFuel
  | S fuel' =>
      '(b, p1) <- match_ NEWLINE false p ;;
      if (b : bool) then '(_, p2) <- advance p1 ;; _skip_newlines_loop fuel' p2
      else Ok p1
  end.

Definition _skip_newlines (p : t) : result t :=
  _skip_newlines_loop (S (budget p)) p.

(** The node stack is a Python list: its top is its last element. *)
Definition top {A : Type} (node_stack : list A) : result A :=
  match rev node_stack with
  | [] => Raise IndexError
  | a :: _ => Ok a
  end.

Definition pop {A : Type} (node_stack : list A) : result (list A) :=
  match rev node_stack with
  | [] => Raise IndexError
  | _ :: r => Ok (rev r)
  end.

Fixpoint update {A : Type} (l : list A) (i : nat) (a : A) : list A :=
  match l, i with
  | [], _ => []
  | _ :: l', O => a :: l'
  | x :: l', S i' => x :: update l' i' a
  end.

(** [node_stack[-1][key] = v]. *)
Definition store (node_stack : list nat) (key : string) (v : value) (p : t)
  : result t :=
  a <- top node_stack ;;
  match nth_error (heap p) a with
  | None => Raise IndexError
  | Some d => Ok (set_heap p (update (heap p) a (dict_set String.eqb d key v)))
  end.

(** [{}]: a fresh dictionary, at the next free address. *)
Definition new_dict (p : t) : nat * t :=
  (List.length (heap p), set_heap p (heap p ++ [ [] ])).

Definition text (tok : token) : string :=
  match snd tok with Some s => s | None => EmptyString end.

Inductive flow : Type := Next | Break.

(** One round of the [while self._lexer] loop of [parse]. *)
Definition parse_round (node_stack : list nat) (p : t)
  : result (flow * list nat * t) :=
  p <- _skip_newlines p ;;
  '(is_string, p) <- match_ STRING false p ;;
  if (is_string : bool) then
    '(key_tok, p) <- advance p ;;
    let key := text key_tok in
    p <- _skip_newlines p ;;
    '(is_lbrace, p) <- match_ LBRACE true p ;;
    if (is_lbrace : bool) then
      let '(new_tree_node, p) := new_dict p in
      p <- store node_stack key (VNode new_tree_node) p ;;
      Ok (Next, node_stack ++ [new_tree_node], p)
    else
      '(is_value, p) <- match_ STRING false p ;;
      if (is_value : bool) then
        '(value_tok, p) <- advance p ;;
        '(is_lbracket, p) <- match_ LBRACKET true p ;;
        p <- (if (is_lbracket : bool) then
                '(condition, p) <- advance p ;;
                '(_, p) <- expect RBRACKET p ;;
                store node_stack key (VCond (text value_tok) (snd condition)) p
              else
                store node_stack key (VStr (text value_tok)) p) ;;
        '(_, p) <- expect NEWLINE p ;;
        Ok (Next, node_stack, p)
      else Ok (Next, node_stack, p)
  else
    '(is_rbrace, p) <- match_ RBRACE true p ;;
    if (is_rbrace : bool) then
      node_stack <- pop node_stack ;;
      Ok (Next, node_stack, p)
    else
      '(is_eof, p) <- match_ EOF false p ;;
      if (is_eof : bool) then Ok (Break, node_stack, p)
      else Raise FGDParserException.

Fixpoint parse_loop (fuel : nat) (node_stack : list nat) (p : t)
  : result (list nat * t) :=
  match fuel with
  | O => OutOfFuel
  | S fuel' =>
      if L.lexer_bool (_lexer p) then
        '(fl, node_stack, p) <- parse_round node_stack p ;;
        match fl with
        | Break => Ok (node_stack, p)
        | Next => parse_loop fuel' node_stack p
        end
      else Ok (node_stack, p)
  end.

Definition parse (p : t) : result t :=
  '(_, p) <- parse_loop (S (budget p)) [tree p] p ;;
  Ok p.

End ValveKeyValueParser.

Module P := ValveKeyValueParser.


(** ** The collaborators bsp_file.py relies on

    [bsp_file.py] is written against the byte-source interface [IBuffer], the
    content manager, the file system and the lump registry of [lump.py], none
    of which it defines.  They are taken as the fields of a class, so that
    what is proved about the container holds for every implementation. *)

Module LumpInfo.

Record t : Type := mk {
  id : nat;
  offset : Z;
  size : Z;
  version : Z;
  compressed : bool;
  decompressed_size : Z
}.

(** [lump.id = lump_id]. *)
Definition set_id (lump : t) (lump_id : nat) : t :=
  mk lump_id (offset lump) (size lump) (version lump)
     (compressed lump) (decompressed_size lump).

End LumpInfo.

(** A match rule, as [lump_tag] attaches it to a decoder class. *)
Module LumpTag.

Record t : Type := mk {
  lump_id : nat;
  lump_name : string;
  lump_version : option Z;
  bsp_version : option Z;
  steam_id : option Z
}.

End LumpTag.

Class World : Type := {
  (** [IBuffer]: a byte source; reading returns the buffer advanced. *)
  IBuffer : Type;
  read_fourcc : IBuffer -> result (string * IBuffer);
  read_int32 : IBuffer -> result (Z * IBuffer);
  read_uint32 : IBuffer -> result (Z * IBuffer);
  peek_uint32 : IBuffer -> result Z;
  read_all : IBuffer -> result (string * IBuffer);
  slice : IBuffer -> Z -> Z -> result IBuffer;
  buffer_size : IBuffer -> Z;
  (** The file system: the bytes of the file at a path, if there is one;
      [FileBuffer(path)]; [open(path).read()]. *)
  file_bytes : string -> option string;
  FileBuffer : string -> result IBuffer;
  (** [CM.get_content_provider_from_path(filepath).steam_id]. *)
  provider_steam_id : string -> result Z;
  (** [lump.py]: the descriptor reader, the codec, and the registry of
      decoder classes with their match rules, in the order
      [Lump.all_subclasses()] lists them. *)
  LumpInfo_from_buffer : IBuffer -> bool -> result (LumpInfo.t * IBuffer);
  decompress_lump : IBuffer -> result IBuffer;
  Lump_class : Type;
  all_subclasses : list Lump_class;
  tags : Lump_class -> list LumpTag.t;
  (** The objects a decoder's [parse] returns. *)
  Lump : Type
}.

Definition path_exists `{World} (path : string) : bool :=
  match file_bytes path with Some _ => true | None => false end.

(** The keys of [BSPFile.lumps]: [get_lump] stores under the lump name,
    [parse_lump] under the lump id. *)
Inductive lumps_key : Type :=
| KName (name : string)
| KId (lump_id : nat).

Definition lumps_key_eqb (a b : lumps_key) : bool :=
  match a, b with
  | KName x, KName y => String.eqb x y
  | KId x, KId y => Nat.eqb x y
  | _, _ => false
  end.

(** [l[i]] and [l[i] = a] on a Python list, for [i >= 0]. *)
Definition index {A : Type} (l : list A) (i : nat) : result A :=
  match nth_error l i with
  | Some a => Ok a
  | None => Raise IndexError
  end.

Definition assign {A : Type} (l : list A) (i : nat) (a : A) : result (list A) :=
  if (i <? List.length l)%nat then Ok (P.update l i a) else Raise IndexError.

(** Reading an attribute of a list slot that may still hold [None]. *)
Definition attr {A B : Type} (o : option A) (f : A -> B) : result B :=
  match o with
  | Some a => Ok (f a)
  | None => Raise AttributeError
  end.

Definition assert (b : bool) : result unit :=
  if b then Ok tt else Raise AssertionError.

(** [f'{n:04x}']. *)
Definition hex_digit (n : nat) : ascii :=
  match n with
  | 0 => "0" | 1 => "1" | 2 => "2" | 3 => "3" | 4 => "4" | 5 => "5"
  | 6 => "6" | 7 => "7" | 8 => "8" | 9 => "9" | 10 => "a" | 11 => "b"
  | 12 => "c" | 13 => "d" | 14 => "e" | _ => "f"
  end%char.

Fixpoint hex_digits (fuel n : nat) (acc : string) : string :=
  match fuel with
  | O => acc
  | S fuel' =>
      let acc' := String (hex_digit (n mod 16)) acc in
      if (n / 16 =? 0)%nat then acc' else hex_digits fuel' (n / 16) acc'
  end.

Definition hex04 (n : nat) : string :=
  let s := hex_digits (S n) n EmptyString in
  (fix pad (k : nat) (s : string) : string :=
     match k with
     | O => s
     | S k' => pad k' (String "0" s)
     end) (4 - String.length s) s.

(** ** bsp_file.py: the class BSPFile *)

Module BSPFile.

Section WithWorld.
Context {W : World}.

Record t : Type := mk {
  filepath : string;
  buffer : IBuffer;
  version : Z;
  lumps_info : list (option LumpInfo.t);
  lumps : dict lumps_key (option Lump);
  revision : Z;
  steam_app_id : Z
}.

Definition set_buffer (self : t) (b : IBuffer) : t :=
  mk (filepath self) b (version self) (lumps_info self) (lumps self)
     (revision self) (steam_app_id self).

Definition set_version (self : t) (v : Z) : t :=
  mk (filepath self) (buffer self) v (lumps_info self) (lumps self)
     (revision self) (steam_app_id self).

Definition set_lumps_info (self : t) (l : list (option LumpInfo.t)) : t :=
  mk (filepath self) (buffer self) (version self) l (lumps self)
     (revision self) (steam_app_id self).

Definition set_lumps (self : t) (l : dict lumps_key (option Lump)) : t :=
  mk (filepath self) (buffer self) (version self) (lumps_info self) l
     (revision self) (steam_app_id self).

Definition set_revision (self : t) (r : Z) : t :=
  mk (filepath self) (buffer self) (version self) (lumps_info self) (lumps self)
     r (steam_app_id self).

(** [__init__]. *)
Definition init (filepath : string) (buffer : IBuffer) : result t :=
  app_id <- provider_steam_id filepath ;;
  Ok (mk filepath buffer 0%Z [] [] 0%Z app_id).

(** The body of [for lump_id in range(...)] shared by the two
    [from_filename]: read a descriptor, number it, store it in its slot. *)
Fixpoint read_descriptors (rounds lump_id : nat) (is_l4d2 : bool)
    (buffer : IBuffer) (lumps_info : list (option LumpInfo.t))
  : result (list (option LumpInfo.t) * IBuffer) :=
  match rounds with
  | O => Ok (lumps_info, buffer)
  | S rounds' =>
      '(lump, buffer) <- LumpInfo_from_buffer buffer is_l4d2 ;;
      let lump := LumpInfo.set_id lump lump_id in
      lumps_info <- assign lumps_info lump_id (Some lump) ;;
      read_descriptors rounds' (S lump_id) is_l4d2 buffer lumps_info
  end.

Definition from_filename (filepath : string) : result t :=
  buffer <- FileBuffer filepath ;;
  self <- init filepath buffer ;;
  '(magic, buffer) <- read_fourcc buffer ;;
  _ <- assert (String.eqb magic "VBSP") ;;
  '(v, buffer) <- read_int32 buffer ;;
  let self := set_version self v in
  peeked <- peek_uint32 buffer ;;
  let is_l4d2 := (peeked <=? 1036)%Z && (version self =? 21)%Z in
  '(infos, buffer) <- read_descriptors 64 0 is_l4d2 buffer (repeat None 64) ;;
  let self := set_lumps_info self infos in
  '(r, buffer) <- read_int32 buffer ;;
  Ok (set_buffer (set_revision self r) buffer).

(** The three tests of the first loop of [get_lump] on one rule of the
    requested name: [false] is [continue], [true] is [matches.append]. *)
Definition passes (self : t) (dep : LumpTag.t) : result bool :=
  if match LumpTag.bsp_version dep with
     | Some v => (v >? version self)%Z
     | None => false
     end
  then Ok false
  else if match LumpTag.steam_id dep with
          | Some v => negb (v =? steam_app_id self)%Z
          | None => false
          end
  then Ok false
  else match LumpTag.lump_version dep with
       | None => Ok true
       | Some v =>
           slot <- index (lumps_info self) (LumpTag.lump_id dep) ;;
           actual <- attr slot LumpInfo.version ;;
           Ok (v =? actual)%Z
       end.

Fixpoint scan_tags (self : t) (lump_name : string) (sub : Lump_class)
    (deps : list LumpTag.t) (matches : list (Lump_class * LumpTag.t))
  : result (list (Lump_class * LumpTag.t)) :=
  match deps with
  | [] => Ok matches
  | dep :: deps' =>
      if String.eqb (LumpTag.lump_name dep) lump_name then
        ok <- passes self dep ;;
        scan_tags self lump_name sub deps'
                  (if (ok : bool) then matches ++ [(sub, dep)] else matches)
      else scan_tags self lump_name sub deps' matches
  end.

Fixpoint scan_subclasses (self : t) (lump_name : string)
    (subs : list Lump_class) (matches : list (Lump_class * LumpTag.t))
  : result (list (Lump_class * LumpTag.t)) :=
  match subs with
  | [] => Ok matches
  | sub :: subs' =>
      matches <- scan_tags self lump_name sub (tags sub) matches ;;
      scan_subclasses self lump_name subs' matches
  end.

(** The rank the second loop of [get_lump] gives a match. *)
Definition rank (self : t) (match_dep : LumpTag.t) : result nat :=
  lump <- index (lumps_info self) (LumpTag.lump_id match_dep) ;;
  let rank := 0 in
  let rank :=
    if match LumpTag.bsp_version match_dep with
       | Some v => (v >? version self)%Z
       | None => false
       end
    then rank + 1 else rank in
  let rank :=
    if match LumpTag.steam_id match_dep with
       | Some v => (v =? steam_app_id self)%Z
       | None => false
       end
    then rank + 1 else rank in
  match LumpTag.lump_version match_dep with
  | None => Ok rank
  | Some v =>
      actual <- attr lump LumpInfo.version ;;
      Ok (if (v =? actual)%Z then rank + 1 else rank)
  end.

Fixpoint rank_matches (self : t) (matches : list (Lump_class * LumpTag.t))
    (best_matches : dict nat (Lump_class * LumpTag.t))
  : result (dict nat (Lump_class * LumpTag.t)) :=
  match matches with
  | [] => Ok best_matches
  | (match_sub, match_dep) :: matches' =>
      r <- rank self match_dep ;;
      rank_matches self matches' (dict_set Nat.eqb best_matches r (match_sub, match_dep))
  end.

(** The decoder the two loops of [get_lump] settle on, [None] when
    [best_matches] stays empty. *)
Definition best_match (self : t) (lump_name : string)
  : result (option (Lump_class * LumpTag.t)) :=
  matches <- scan_subclasses self lump_name all_subclasses [] ;;
  best_matches <- rank_matches self matches [] ;;
  match dict_keys best_matches with
  | [] => Ok None
  | k :: ks =>
      let best_match_id := fold_left Nat.max ks k in
      match dict_get Nat.eqb best_matches best_match_id with
      | Some m => Ok (Some m)
      | None => Raise KeyError
      end
  end.

(** [base_path / f'{self.filepath.name}.{lump_id:04x}.bsp_lump']: the parent
    joined with the name is the path itself. *)
Definition lump_path (self : t) (lump_id : nat) : string :=
  filepath self ++ "." ++ hex04 lump_id ++ ".bsp_lump".

Definition _get_lump_buffer (lump_id : nat) (lump_info : LumpInfo.t) (self : t)
  : result (option IBuffer * t) :=
  if path_exists (lump_path self lump_id) then
    b <- FileBuffer (lump_path self lump_id) ;;
    Ok (Some b, self)
  else if negb (LumpInfo.compressed lump_info) then
    b <- slice (buffer self) (LumpInfo.offset lump_info) (LumpInfo.size lump_info) ;;
    Ok (Some b, self)
  else
    sl <- slice (buffer self) (LumpInfo.offset lump_info) (LumpInfo.size lump_info) ;;
    b <- decompress_lump sl ;;
    let self := set_buffer self b in
    _ <- assert (buffer_size (buffer self) =? LumpInfo.decompressed_size lump_info)%Z ;;
    Ok (None, self).

(** [lump_class(lump_info).parse(buffer, self)] for the decoder classes of
    the registry: a decoder is handed the container itself and may change
    it. *)
Variable parse : Lump_class -> LumpInfo.t -> option IBuffer -> t -> result (Lump * t).

Definition parse_lump (lump_class : Lump_class) (lump_id : nat)
    (lump_name : string) (self : t) : result (option Lump * t) :=
  slot <- index (lumps_info self) lump_id ;;
  sz <- attr slot LumpInfo.size ;;
  if negb (sz =? 0)%Z then
    slot <- index (lumps_info self) lump_id ;;
    lump_info <- attr slot (fun i => i) ;;
    '(buffer, self) <- _get_lump_buffer lump_id lump_info self ;;
    '(parsed_lump, self) <- parse lump_class lump_info buffer self ;;
    let self := set_lumps self (dict_set lumps_key_eqb (lumps self) (KId lump_id) (Some parsed_lump)) in
    Ok (Some parsed_lump, self)
  else Ok (None, self).

Definition get_lump (lump_name : string) (self : t) : result (option Lump * t) :=
  match dict_get lumps_key_eqb (lumps self) (KName lump_name) with
  | Some cached => Ok (cached, self)
  | None =>
      best <- best_match self lump_name ;;
      match best with
      | None => Ok (None, self)
      | Some (sub, dep) =>
          '(parsed_lump, self) <-
             parse_lump sub (LumpTag.lump_id dep) (LumpTag.lump_name dep) self ;;
          let self := set_lumps self (dict_set lumps_key_eqb (lumps self) (KName lump_name) parsed_lump) in
          Ok (parsed_lump, self)
      end
  end.

End WithWorld.

End BSPFile.

(** ** bsp_file.py: the class RespawnBSPFile *)

Module RespawnBSPFile.

Section WithWorld.
Context {W : World}.

Definition from_filename (filepath : string) : result BSPFile.t :=
  buffer <- FileBuffer filepath ;;
  self <- BSPFile.init filepath buffer ;;
  '(magic, buffer) <- read_fourcc buffer ;;
  _ <- assert (String.eqb magic "rBSP") ;;
  '(v, buffer) <- read_uint32 buffer ;;
  let self := BSPFile.set_version self v in
  '(r, buffer) <- read_uint32 buffer ;;
  let self := BSPFile.set_revision self r in
  '(last_lump, buffer) <- read_uint32 buffer ;;
  '(infos, buffer) <-
     BSPFile.read_descriptors (Z.to_nat last_lump + 1) 0 false buffer
                              (repeat None (Z.to_nat last_lump)) ;;
  Ok (BSPFile.set_buffer (BSPFile.set_lumps_info self infos) buffer).

End WithWorld.

End RespawnBSPFile.

(** ** bsp_file.py: open_bsp *)

Section OpenBsp.
Context {W : World}.

(** [unpack('4sI', data)]: the data must be 8 bytes long; the first four are
    the magic. *)
Definition unpack_4sI (data : string) : result string :=
  if (String.length data =? 8)%nat then Ok (substring 0 4 data)
  else Raise StructError.

(** [open(filepath, 'rb')] followed by reading the file. *)
Definition open_rb (filepath : string) : result string :=
  match file_bytes filepath with
  | Some contents => Ok contents
  | None => Raise FileNotFoundError
  end.

(** The result is [None] when the function runs off its end. *)
Definition open_bsp (filepath : string) : result (option BSPFile.t) :=
  _ <- assert (path_exists filepath) ;;
  contents <- open_rb filepath ;;
  magic <- unpack_4sI (substring 0 8 contents) ;;
  if String.eqb magic "VBSP" then
    bsp <- BSPFile.from_filename filepath ;; Ok (Some bsp)
  else if String.eqb magic "rBSP" then
    bsp <- RespawnBSPFile.from_filename filepath ;; Ok (Some bsp)
  else Ok None.

End OpenBsp.

(** ** entity_lump.py: the class EntityLump *)

Module EntityLump.

Section WithWorld.
Context {W : World}.

Record t : Type := mk {
  lump_info : LumpInfo.t;
  entities : list node
}.

Definition init (lump_info : LumpInfo.t) : t := mk lump_info [].

(** [bytes.strip] of the NUL byte: the NUL bytes at both ends go. *)
Fixpoint lstrip_nul (data : string) : string :=
  match data with
  | String c data' => if Ascii.eqb c zero then lstrip_nul data' else data
  | EmptyString => EmptyString
  end.

Fixpoint rstrip_nul (data : string) : string :=
  match data with
  | EmptyString => EmptyString
  | String c data' =>
      let r := rstrip_nul data' in
      if is_empty r && Ascii.eqb c zero then EmptyString else String c r
  end.

Definition strip_nul (data : string) : string := rstrip_nul (lstrip_nul data).

(** [bytes.decode('latin')]: byte [b] becomes code point [b]. *)
Definition decode_latin (data : string) : string := data.

(** [for ent in parser.tree: self.entities.append(ent.to_dict())]: iterating
    a dictionary yields its keys, which are strings and have no [to_dict]. *)
Definition collect (self : t) (tree : node) : result t :=
  match dict_keys tree with
  | [] => Ok self
  | _ :: _ => Raise AttributeError
  end.

(** [parse]; a [buffer] of [None] has no [read]. *)
Definition parse (read_text : string -> result string) (self : t)
    (buffer : option IBuffer) (bsp : BSPFile.t) : result t :=
  match buffer with
  | None => Raise AttributeError
  | Some buffer =>
      '(data, _) <- read_all buffer ;;
      let buffer := decode_latin (strip_nul data) in
      parser <- P.call read_text
                  [("buffer_and_name", P.APair buffer "EntityLump");
                   ("self_recover", P.ABool true);
                   ("array_of_blocks", P.ABool true)] ;;
      parser <- P.parse parser ;;
      tree <- index (P.heap parser) (P.tree parser) ;;
      collect self tree
  end.

End WithWorld.

End EntityLump.

(** ** A concrete world, for the examples

    Modelled from the spec: the byte source with the operations its
    interface lists, [file_utils.py] and [lump.py] not being among the
    sources at hand.  The buffer is a byte string with a read position and
    integers are little-endian.  Nothing that is proved for every world
    depends on the choices made here; they only give the examples inputs to
    be evaluated on: a descriptor record of four 32-bit fields (offset,
    size, version, and a fourth that is non-zero for a compressed lump and
    is then its decompressed size), the version leading the record in the
    legacy layout, and the identity as codec. *)

Module Sample.

Record buf : Type := mkBuf { data : string; pos : nat }.

Definition read (n : nat) (b : buf) : result (string * buf) :=
  if (pos b + n <=? String.length (data b))%nat
  then Ok (substring (pos b) n (data b), mkBuf (data b) (pos b + n))
  else Raise ExternalError.

Fixpoint le_value (bytes : string) : Z :=
  match bytes with
  | EmptyString => 0
  | String c bytes' => Z.of_nat (nat_of_ascii c) + 256 * le_value bytes'
  end.

Definition get_uint32 (b : buf) : result (Z * buf) :=
  '(bytes, b) <- read 4 b ;; Ok (le_value bytes, b).

Definition get_int32 (b : buf) : result (Z * buf) :=
  '(v, b) <- get_uint32 b ;;
  Ok (if (v <? 2147483648)%Z then v else (v - 4294967296)%Z, b).

Definition look_uint32 (b : buf) : result Z :=
  '(v, _) <- get_uint32 b ;; Ok v.

Definition get_all (b : buf) : result (string * buf) :=
  read (String.length (data b) - pos b) b.

Definition sub_view (b : buf) (offset size : Z) : result buf :=
  Ok (mkBuf (substring (Z.to_nat offset) (Z.to_nat size) (data b)) 0).

Definition from_buffer (b : buf) (is_l4d2 : bool) : result (LumpInfo.t * buf) :=
  '(f1, b) <- get_uint32 b ;;
  '(f2, b) <- get_uint32 b ;;
  '(f3, b) <- get_uint32 b ;;
  '(f4, b) <- get_uint32 b ;;
  let '(offset, size, version) :=
    if is_l4d2 then (f2, f3, f1) else (f1, f2, f3) in
  Ok (LumpInfo.mk 0 offset size version (negb (f4 =? 0)%Z) f4, b).

Definition lookup_file (files : list (string * string)) (path : string)
  : option string :=
  dict_get String.eqb files path.

Definition world (files : list (string * string))
    (registry : list (string * list LumpTag.t)) (app_id : Z) : World :=
  {| IBuffer := buf;
     read_fourcc := read 4;
     read_int32 := get_int32;
     read_uint32 := get_uint32;
     peek_uint32 := look_uint32;
     read_all := get_all;
     slice := sub_view;
     buffer_size := fun b => Z.of_nat (String.length (data b));
     file_bytes := lookup_file files;
     FileBuffer := fun path =>
       match lookup_file files path with
       | Some contents => Ok (mkBuf contents 0)
       | None => Raise FileNotFoundError
       end;
     provider_steam_id := fun _ => Ok app_id;
     LumpInfo_from_buffer := from_buffer;
     decompress_lump := fun b => Ok b;
     Lump_class := string;
     all_subclasses := map fst registry;
     tags := fun sub =>
       match dict_get String.eqb registry sub with
       | Some ts => ts
       | None => []
       end;
     Lump := string * string |}.

(** A decoder for the examples: the decoded object is the name of the class
    with the bytes it was handed, [None] when it was handed no buffer. *)
Definition parse (files : list (string * string))
    (registry : list (string * list LumpTag.t)) (app_id : Z)
    (lump_class : string) (lump_info : LumpInfo.t) (buffer : option buf)
    (bsp : @BSPFile.t (world files registry app_id))
  : result (string * string * @BSPFile.t (world files registry app_id)) :=
  match buffer with
  | Some b => Ok (lump_class, data b, bsp)
  | None => Ok (lump_class, "None", bsp)
  end.

(** The four little-endian bytes of a number below 256. *)
Definition u32 (n : nat) : string :=
  String (ascii_of_nat n) (String zero (String zero (String zero EmptyString))).

Definition qq (s : string) : string :=
  String dquote (s ++ String dquote EmptyString).

Definition NL : string := String nl EmptyString.

(** Two decoders registered for the lump [X], in this order: [A], whose rule
    asks for a container of version 20 or later, and [B], whose rule asks
    for nothing. *)
Definition tagA : LumpTag.t := LumpTag.mk 0 "X" None (Some 20%Z) None.
Definition tagB : LumpTag.t := LumpTag.mk 0 "X" None None None.
Definition registry_AB : list (string * list LumpTag.t) :=
  [("A", [tagA]); ("B", [tagB])].

(** Two decoders for [X]: [B], unconstrained, and [C], whose rule asks for
    lump version 3. *)
Definition tagC : LumpTag.t := LumpTag.mk 0 "X" (Some 3%Z) None None.
Definition registry_CB : list (string * list LumpTag.t) :=
  [("C", [tagC]); ("B", [tagB])].
Definition registry_BC : list (string * list LumpTag.t) :=
  [("B", [tagB]); ("C", [tagC])].

(** A container of version 21 whose lump 0 is four bytes long and has the
    given version and compression flag. *)
Definition container (registry : list (string * list LumpTag.t))
    (lump_version : Z) (compressed : bool)
  : @BSPFile.t (world [] registry 0) :=
  @BSPFile.mk (world [] registry 0) "maps/m.bsp" (mkBuf "abcdefgh" 0) 21
    [Some (LumpInfo.mk 0 0 4 lump_version compressed 4)] [] 0 0.

(** A respawn container whose header declares last lump index 0 and that
    holds the one descriptor record this announces. *)
Definition respawn_file : string :=
  "rBSP" ++ u32 37 ++ u32 1 ++ u32 0 ++ u32 48 ++ u32 4 ++ u32 0 ++ u32 0 ++ "abcd".

(** A file of eight bytes whose magic is neither [VBSP] nor [rBSP]. *)
Definition foreign_file : string := "XBSP" ++ u32 1.

Definition files : list (string * string) :=
  [("maps/r.bsp", respawn_file); ("maps/x.bsp", foreign_file)].

(** An entity lump: one block and its NUL padding. *)
Definition entity_bytes : string :=
  "{" ++ NL ++ qq "classname" ++ " " ++ qq "worldspawn" ++ NL ++ "}" ++ NL
  ++ String zero EmptyString.

End Sample.

(** * Notions the properties are stated with *)

(** The number of characters the lexer has not read yet. *)
Definition len (lx : L.t) : nat := String.length (L.leftover lx).

(** What one resumption of the generator can come to: the end-of-file token
    with the buffer used up, another token with the buffer shorter, or the
    lexer's own exception. *)
Definition lex_outcome (lx : L.t) (r : result (token * L.t * bool)) : Prop :=
  match r with
  | Ok (tok, lx', true) => tok = (EOF, None) /\ len lx' = 0
  | Ok (tok, lx', false) => fst tok <> EOF /\ len lx' < len lx
  | Raise e => e = FGDLexerException
  | OutOfFuel => False
  end.

(** [spends n p r]: the operation that was started in [p] and came to [r]
    did not run out of fuel and, if it returned, took at least [n] tokens
    off the budget of [p]. *)
Definition spends {A : Type} (n : nat) (p : P.t) (r : result (A * P.t)) : Prop :=
  match r with
  | Ok (_, p') => P.budget p' + n <= P.budget p
  | Raise _ => True
  | OutOfFuel => False
  end.

(** What one round of [parse] can come to: a round that asks for another
    has taken a token. *)
Definition round_outcome (p : P.t) (r : result (P.flow * list nat * P.t)) : Prop :=
  match r with
  | Ok (P.Next, _, p') => P.budget p' + 1 <= P.budget p
  | Ok (P.Break, _, p') => P.budget p' <= P.budget p
  | Raise _ => True
  | OutOfFuel => False
  end.

(** A word is a non-empty run of valid symbols that are not white space and
    that does not begin a comment: what [read_simple_string] returns
    unchanged. *)
Definition plain_char (c : ascii) : bool :=
  L._is_valid_symbol (Some c) && negb (isspace_char c).

Fixpoint all_plain (s : string) : bool :=
  match s with
  | EmptyString => true
  | String c s' => plain_char c && all_plain s'
  end.

Definition is_word (s : string) : bool :=
  negb (is_empty s) && all_plain s && negb (String.prefix "//" s).

(** What may follow a word: the end of the buffer, white space that
    terminates a simple string, or a symbol that is not valid in one. *)
Definition stops (rest : string) : bool :=
  match rest with
  | EmptyString => true
  | String c _ =>
      negb (L._is_valid_symbol (Some c))
      || mem_char c (String " " (String tab (String nl EmptyString)))
  end.

(** The two quote characters. *)
Definition is_quote (c : ascii) : bool := mem_char c L.quotes.

(** [newline_ahead p skipped v p']: read from [p], the token stream has the
    tokens [skipped], none of them a newline, and then a newline token of
    text [v]; [p'] is the parser that has taken [skipped] and holds the
    newline as its lookahead. *)
Inductive newline_ahead : P.t -> list token -> option string -> P.t -> Prop :=
| ahead_here (p : P.t) (v : option string) (p' : P.t) :
    P.peek p = Ok ((NEWLINE, v), p') ->
    newline_ahead p [] v p'
| ahead_skip (p : P.t) (tok : token) (p1 p2 : P.t) (skipped : list token)
             (v : option string) (p' : P.t) :
    P.peek p = Ok (tok, p1) ->
    VKVToken_eqb (fst tok) NEWLINE = false ->
    P.advance p1 = Ok (tok, p2) ->
    newline_ahead p2 skipped v p' ->
    newline_ahead p (tok :: skipped) v p'.

(** The ranking score in the words of the specification: the number of
    constraints of the rule that are both present and satisfied, a
    minimum-container-version bound being satisfied by a container of that
    version or a later one. *)
Definition specified_score {W : World} (self : BSPFile.t) (dep : LumpTag.t)
  : result nat :=
  lump <- index (BSPFile.lumps_info self) (LumpTag.lump_id dep) ;;
  let bound :=
    match LumpTag.bsp_version dep with
    | Some v => if (v <=? BSPFile.version self)%Z then 1 else 0
    | None => 0
    end in
  let variant :=
    match LumpTag.steam_id dep with
    | Some v => if (v =? BSPFile.steam_app_id self)%Z then 1 else 0
    | None => 0
    end in
  match LumpTag.lump_version dep with
  | None => Ok (bound + variant)
  | Some v =>
      actual <- attr lump LumpInfo.version ;;
      Ok (bound + variant + if (v =? actual)%Z then 1 else 0)
  end.

(** Runs the first computation of a bind whose behaviour the lemma [L]
    describes, keeping what [L] says as [H]. *)
Ltac run L H :=
  pose proof L as H;
  match type of H with
  | context [match ?c with _ => _ end] =>
      destruct c as [?|?|]; cbn [bind spends] in H |- *;
      [ | exact I | exact H ]
  | spends _ _ ?c =>
      destruct c as [[? ?]|?|]; cbn [bind spends] in H |- *;
      [ | exact I | exact H ]
  end.

(** Unfolds the parser's token operations at an explicit state and
    computes up to the next call of the lexer or of a loop. *)
Ltac pstep :=
  unfold P.match_, P.peek, P.advance, P.expect, P.next, P.store, P.new_dict,
    P.set_last_peek, P.set_tokens, P.set_heap, P.warn; cbn.

(** The diagnostic of a quoted string that lacks its terminator. *)
Definition is_unterminated (w : warning) : bool :=
  match w with
  | ExpectedTerminator _ _ _ _ => true
  | _ => false
  end.

(** [all_chars f s]: every character of [s] satisfies [f]. *)
Fixpoint all_chars (f : ascii -> bool) (s : string) : bool :=
  match s with
  | EmptyString => true
  | String c s' => f c && all_chars f s'
  end.

(** A run of [n] newline characters. *)
Fixpoint newlines (n : nat) : string :=
  match n with
  | O => EmptyString
  | S n' => String nl (newlines n')
  end.

(** The text of a line comment holds neither a newline nor a carriage
    return; a blank is a space or a tab. *)
Definition in_line (c : ascii) : bool := negb (Ascii.eqb c nl) && negb (Ascii.eqb c cr).

Definition is_blank (c : ascii) : bool := Ascii.eqb c " " || Ascii.eqb c tab.

(** The end of a line: the end of the buffer or a newline. *)
Definition line_end (rest : string) : bool :=
  match rest with
  | EmptyString => true
  | String c _ => Ascii.eqb c nl
  end.

(** What a quoted string opened by the quote [t] reads on without further
    ado: a valid quoted symbol that is neither [t] nor a backslash. *)
Definition quoted_char (t c : ascii) : bool :=
  L._is_valid_quoted_symbol (Some c) && negb (Ascii.eqb c t)
  && negb (Ascii.eqb c backslash).

(** The exceptions the token operations of the parser let out: the end of
    the token stream, the lexer's exception and the parser's own. *)
Definition token_exn (e : exn) : bool :=
  match e with
  | StopIteration | FGDLexerException | FGDParserException => true
  | _ => false
  end.

(** The exceptions [parse] lets out: those, and [IndexError]. *)
Definition parse_exn (e : exn) : bool :=
  match e with
  | IndexError => true
  | _ => token_exn e
  end.

(** [frame p p']: the parser [p'] has the tree, the mode and the path of
    [p]; only its token stream may have moved. *)
Definition frame (p p' : P.t) : Prop :=
  P.heap p' = P.heap p /\ P.tree p' = P.tree p
  /\ P._self_recover p' = P._self_recover p /\ P._path p' = P._path p.

(** What a token operation started in [p] comes to: it leaves the tree
    alone, and raises nothing but a [token_exn]. *)
Definition token_op {A : Type} (p : P.t) (r : result (A * P.t)) : Prop :=
  match r with
  | Ok (_, p') => frame p p'
  | Raise e => token_exn e = true
  | OutOfFuel => True
  end.

Definition token_loop (p : P.t) (r : result P.t) : Prop :=
  match r with
  | Ok p' => frame p p'
  | Raise e => token_exn e = true
  | OutOfFuel => True
  end.

(** Every address on the node stack is the address of a dictionary. *)
Definition stack_ok (heap : list node) (node_stack : list nat) : Prop :=
  Forall (fun a => a < List.length heap) node_stack.

(** [grows p p']: the parser [p'] has the tree address and the mode of [p],
    and a heap that is no shorter. *)
Definition grows (p p' : P.t) : Prop :=
  List.length (P.heap p) <= List.length (P.heap p')
  /\ P.tree p' = P.tree p /\ P._self_recover p' = P._self_recover p.

(** What a round of [parse] started on the stack [node_stack] comes to: it
    keeps the stack within the heap, which never shrinks, and it lets out
    [IndexError] only when it was started on the empty stack. *)
Definition round_sound (node_stack : list nat) (p : P.t)
    (r : result (P.flow * list nat * P.t)) : Prop :=
  match r with
  | Ok (_, node_stack', p') => stack_ok (P.heap p') node_stack' /\ grows p p'
  | Raise e => token_exn e = true \/ (e = IndexError /\ node_stack = [])
  | OutOfFuel => True
  end.

(** Runs the first computation of a bind that is a token operation (a loop
    of token operations), naming its result [x] and the parser it leaves
    [q], and keeping its frame as [H]; the goal is a [round_sound]. *)
Ltac tok L H x q :=
  pose proof L as H;
  match type of H with
  | token_op _ ?c =>
      destruct c as [[x q]|?|]; cbn [bind token_op round_sound] in H |- *;
      [ | left; exact H | exact I ]
  end.

Ltac tokl L H q :=
  pose proof L as H;
  match type of H with
  | token_loop _ ?c =>
      destruct c as [q|?|]; cbn [bind token_loop round_sound] in H |- *;
      [ | left; exact H | exact I ]
  end.

(** What a document of [parse] comes to. *)
Definition parse_sound (p : P.t) (r : result P.t) : Prop :=
  match r with
  | Ok p' => grows p p'
  | Raise e => parse_exn e = true
  | OutOfFuel => False
  end.

(** A flat document: one [key value] line per pair, and the dictionary it
    stands for. *)
Fixpoint dump (pairs : list (string * string)) : string :=
  match pairs with
  | [] => EmptyString
  | (k, v) :: pairs' => k ++ String " " (v ++ String nl (dump pairs'))
  end.

Definition as_node (pairs : list (string * string)) : node :=
  map (fun kv => (fst kv, VStr (snd kv))) pairs.

(** The assignments of a flat document, one after the other. *)
Definition assign_all (d : node) (pairs : list (string * string)) : node :=
  fold_left (fun d kv => dict_set String.eqb d (fst kv) (VStr (snd kv))) pairs d.

Definition words (pairs : list (string * string)) : bool :=
  forallb (fun kv => is_word (fst kv) && is_word (snd kv)) pairs.

(** What the generator run to its end on [n] characters comes to: at most
    [n] tokens and then the end-of-file token, which is the last one and the
    only one of its kind; or the lexer's exception. *)
Definition token_run (n : nat) (r : result (list token)) : Prop :=
  match r with
  | Ok ts =>
      exists body, ts = (body ++ [(EOF, None)])%list
                   /\ Forall (fun t => fst t <> EOF) body
                   /\ List.length body <= n
  | Raise e => e = FGDLexerException
  | OutOfFuel => False
  end.

(** A container file in the standard layout, version 20: the magic, the
    version, 64 descriptor records (lump [i] empty, of version [i]) and the
    revision 7. *)
Definition vbsp_descriptor (i : nat) : string :=
  Sample.u32 0 ++ Sample.u32 0 ++ Sample.u32 i ++ Sample.u32 0.

Definition vbsp_file : string :=
  "VBSP" ++ Sample.u32 20 ++ String.concat EmptyString (map vbsp_descriptor (seq 0 64))
  ++ Sample.u32 7.

#[local] Arguments P.skip_to_newline : simpl never.
#[local] Arguments P._skip_newlines_loop : simpl never.
#[local] Arguments P.parse_loop : simpl never.
#[local] Arguments L.lex : simpl never.

(** * Properties *)

Local Open Scope string_scope.

(** ** Strings *)

Lemma append_empty_r (s : string) : (s ++ EmptyString)%string = s.
Proof. induction s as [|c s IH]; simpl; [reflexivity | now rewrite IH]. Qed.

Lemma append_assoc (a b c : string) : ((a ++ b) ++ c = a ++ (b ++ c))%string.
Proof. induction a as [|x a IH]; simpl; [reflexivity | now rewrite IH]. Qed.

Lemma length_append (a b : string) :
  String.length (a ++ b)%string = String.length a + String.length b.
Proof. induction a as [|x a IH]; simpl; [reflexivity | now rewrite IH]. Qed.

(** ** The lexer consumes its buffer

    Every loop of the lexer is run with one more unit of fuel than there are
    characters left, and every round that does not leave the loop consumes
    one: no loop runs out of fuel, and a token other than the end-of-file
    token is paid for with at least one character. *)

Lemma len_warn (w : warning) (lx : L.t) : len (L.warn w lx) = len lx.
Proof. reflexivity. Qed.

Lemma symbol_none_len (lx : L.t) : L.symbol lx = None -> len lx = 0.
Proof.
  unfold L.symbol, len. destruct (L.leftover lx); [reflexivity | discriminate].
Qed.

Lemma symbol_some_len (lx : L.t) (c : ascii) : L.symbol lx = Some c -> 0 < len lx.
Proof.
  unfold L.symbol, len. destruct (L.leftover lx); [discriminate | simpl; lia].
Qed.

Lemma advance_le (lx : L.t) : len (snd (L.advance lx)) <= len lx.
Proof.
  unfold L.advance, L.symbol, L.next_symbol, len.
  destruct lx as [lo bn ln col wd]; simpl.
  destruct lo as [|c [|d lo]]; simpl; [lia | | ].
  - destruct (Ascii.eqb c cr && false), (Ascii.eqb c nl || Ascii.eqb c cr);
      simpl; lia.
  - destruct (Ascii.eqb c cr && Ascii.eqb d nl), (Ascii.eqb c nl || Ascii.eqb c cr);
      simpl; lia.
Qed.

Lemma advance_lt (lx : L.t) : 0 < len lx -> len (snd (L.advance lx)) < len lx.
Proof.
  unfold L.advance, L.symbol, L.next_symbol, len.
  destruct lx as [lo bn ln col wd]; simpl.
  destruct lo as [|c [|d lo]]; simpl; [lia | | ]; intros _.
  - destruct (Ascii.eqb c cr && false), (Ascii.eqb c nl || Ascii.eqb c cr);
      simpl; lia.
  - destruct (Ascii.eqb c cr && Ascii.eqb d nl), (Ascii.eqb c nl || Ascii.eqb c cr);
      simpl; lia.
Qed.

Lemma advance_fst (lx : L.t) : fst (L.advance lx) = L.symbol lx.
Proof.
  unfold L.advance. destruct (L.symbol lx); [|reflexivity].
  destruct (Ascii.eqb a nl || Ascii.eqb a cr); reflexivity.
Qed.

Lemma sym_is_some (s : option ascii) (c : ascii) : sym_is s c = true -> s = Some c.
Proof.
  destruct s as [d|]; simpl; [|discriminate].
  intros H. apply Ascii.eqb_eq in H. now subst.
Qed.

Lemma valid_symbol_some (s : option ascii) :
  L._is_valid_symbol s = true -> exists c, s = Some c.
Proof. destruct s; [eauto | discriminate]. Qed.

Lemma read_simple_loop_total (terminators : string) (fuel : nat) :
  forall lx acc, len lx < fuel ->
  exists s lx', L.read_simple_loop fuel terminators lx acc = Ok (s, lx')
                /\ len lx' <= len lx.
Proof.
  induction fuel as [|fuel IH]; intros lx acc Hf; [lia|].
  simpl.
  destruct (negb (L._is_valid_symbol (L.symbol lx)) || str_in (L.symbol lx) terminators) eqn:E.
  - eauto.
  - apply orb_false_elim in E as [E _]. apply negb_false_iff in E.
    destruct (valid_symbol_some _ E) as [c Hc].
    pose proof (advance_lt lx (symbol_some_len _ _ Hc)) as Hlt.
    destruct (L.advance lx) as [c' lx1]; simpl in Hlt.
    destruct (IH lx1 (acc ++ str_of c')) as (s & lx' & -> & Hle); [lia|].
    exists s, lx'. split; [reflexivity | lia].
Qed.

Lemma read_simple_string_total (terminators : string) (lx : L.t) :
  exists s lx', L.read_simple_string terminators lx = Ok (s, lx')
                /\ len lx' <= len lx.
Proof.
  unfold L.read_simple_string.
  destruct (read_simple_loop_total terminators (S (len lx)) lx EmptyString)
    as (s & lx' & H & Hle); [lia|].
  unfold len in H. rewrite H. simpl. eauto.
Qed.

(** A simple string that starts on a valid symbol which is no terminator
    takes that symbol. *)
Lemma read_simple_string_lt (terminators : string) (lx : L.t) :
  L._is_valid_symbol (L.symbol lx) = true ->
  str_in (L.symbol lx) terminators = false ->
  exists s lx', L.read_simple_string terminators lx = Ok (s, lx')
                /\ len lx' < len lx.
Proof.
  intros Hv Ht. unfold L.read_simple_string. simpl.
  rewrite Hv, Ht. simpl.
  destruct (valid_symbol_some _ Hv) as [c Hc].
  pose proof (advance_lt lx (symbol_some_len _ _ Hc)) as Hlt.
  destruct (L.advance lx) as [c' lx1]; simpl in Hlt.
  destruct (read_simple_loop_total terminators (String.length (L.leftover lx)) lx1
              (str_of c')) as (s & lx' & H & Hle);
    [unfold len in *; lia|].
  rewrite H. simpl. exists (rstrip (strip s)), lx'. split; [reflexivity | lia].
Qed.

Lemma read_quoted_loop_total (terminator : option ascii) (fuel : nat) :
  forall lx acc, len lx < fuel ->
  exists s lx', L.read_quoted_loop fuel terminator lx acc = Ok (s, lx')
                /\ len lx' <= len lx.
Proof.
  induction fuel as [|fuel IH]; intros lx acc Hf; [lia|].
  simpl.
  set (lx1 := if sym_is (L.symbol lx) backslash && str_in (L.next_symbol lx) L.escapable
              then snd (L.advance lx) else lx).
  assert (H1 : len lx1 <= len lx).
  { subst lx1. destruct (sym_is (L.symbol lx) backslash && str_in (L.next_symbol lx) L.escapable);
      [apply advance_le | lia]. }
  destruct (negb (L._is_valid_quoted_symbol (L.symbol lx))
            || str_in (L.symbol lx) (str_of terminator ++ String nl EmptyString)) eqn:E.
  - eauto.
  - assert (Hs : exists c, L.symbol lx = Some c).
    { destruct (L.symbol lx) as [c|]; [eauto|].
      vm_compute in E. destruct terminator; discriminate. }
    destruct Hs as [c Hc].
    pose proof (symbol_some_len _ _ Hc) as Hpos.
    pose proof (advance_le lx1) as Hle1.
    (* the round consumes a character, in one of its two calls of advance *)
    assert (Hlt : len (snd (L.advance lx1)) < len lx).
    { subst lx1.
      destruct (sym_is (L.symbol lx) backslash && str_in (L.next_symbol lx) L.escapable).
      - pose proof (advance_lt lx Hpos). simpl in *. lia.
      - apply advance_lt. exact Hpos. }
    destruct (L.advance lx1) as [c' lx2]; simpl in Hlt.
    destruct (IH lx2 (acc ++ str_of c')) as (s & lx' & -> & Hle); [lia|].
    exists s, lx'. split; [reflexivity | lia].
Qed.

Lemma read_quoted_string_lt (lx : L.t) :
  0 < len lx ->
  exists s lx', L.read_quoted_string lx = Ok (s, lx') /\ len lx' < len lx.
Proof.
  intros Hpos. unfold L.read_quoted_string.
  pose proof (advance_lt lx Hpos) as Hlt.
  destruct (L.advance lx) as [terminator lx0]; simpl in Hlt.
  destruct (read_quoted_loop_total terminator (S (len lx0)) lx0 EmptyString)
    as (s & lx1 & H & Hle); [lia|].
  unfold len in H. rewrite H. simpl.
  eexists _, _. split; [reflexivity|].
  destruct (L.option_ascii_eqb (L.symbol lx1) terminator).
  - pose proof (advance_le lx1). lia.
  - rewrite len_warn. lia.
Qed.

Lemma skip_blank_lines_total (fuel : nat) :
  forall lx, len lx < fuel -> sym_is (L.symbol lx) nl = true ->
  exists lx', L.skip_blank_lines fuel lx = Ok lx' /\ len lx' <= len lx
              /\ sym_is (L.symbol lx') nl = true.
Proof.
  induction fuel as [|fuel IH]; intros lx Hf Hs; [lia|].
  simpl. destruct (sym_is (L.next_symbol lx) nl) eqn:E.
  - apply sym_is_some in E. apply sym_is_some in Hs.
    assert (Hadv : len (snd (L.advance lx)) < len lx
                   /\ sym_is (L.symbol (snd (L.advance lx))) nl = true).
    { unfold L.advance, L.symbol, L.next_symbol, len in *.
      destruct lx as [lo bn ln col wd]; simpl in *.
      destruct lo as [|a [|b r]]; simpl in *; try discriminate.
      injection E as ->. injection Hs as ->. simpl. split; [lia | reflexivity]. }
    destruct Hadv as [Hlt Hs'].
    destruct (IH (snd (L.advance lx))) as (lx' & -> & Hle & Hp); [lia | exact Hs' |].
    exists lx'. repeat split; [lia | exact Hp].
  - exists lx. repeat split; [lia | exact Hs].
Qed.

Lemma read_comment_total (fuel : nat) :
  forall lx, len lx < fuel ->
  exists lx', L.read_comment fuel lx = Ok lx' /\ len lx' <= len lx.
Proof.
  induction fuel as [|fuel IH]; intros lx Hf; [lia|].
  simpl. destruct (negb (sym_is (L.symbol lx) nl) && L.lexer_bool lx) eqn:E.
  - apply andb_true_iff in E as [_ E].
    assert (Hpos : 0 < len lx).
    { unfold L.lexer_bool, len in *. destruct (L.leftover lx); simpl in *; [discriminate | lia]. }
    pose proof (advance_lt lx Hpos) as Hlt.
    destruct (IH (snd (L.advance lx))) as (lx' & -> & Hle); [lia|].
    exists lx'. split; [reflexivity | lia].
  - exists lx. split; [reflexivity | lia].
Qed.

Lemma lex_outcome_mono (lx1 lx : L.t) (r : result (token * L.t * bool)) :
  len lx1 <= len lx -> lex_outcome lx1 r -> lex_outcome lx r.
Proof.
  intros Hle. destruct r as [[[tok lx'] [|]]| |]; simpl; auto.
  intros [H1 H2]. split; [exact H1 | lia].
Qed.

Lemma lexer_bool_len (lx : L.t) : L.lexer_bool lx = true -> 0 < len lx.
Proof.
  unfold L.lexer_bool, len. destruct (L.leftover lx); simpl; [discriminate | lia].
Qed.

Lemma lexer_bool_false_len (lx : L.t) : L.lexer_bool lx = false -> len lx = 0.
Proof.
  unfold L.lexer_bool, len. destruct (L.leftover lx); simpl; [reflexivity | discriminate].
Qed.

Lemma not_terminator (s : option ascii) :
  sym_is s nl = false -> isspace s = false ->
  str_in s (String " " (String tab (String nl EmptyString))) = false
  \/ s = None.
Proof.
  destruct s as [c|]; [|auto]. simpl. intros Hnl Hsp. left.
  rewrite Hnl, orb_false_r.
  destruct (Ascii.eqb c " ") eqn:E1.
  { apply Ascii.eqb_eq in E1. subst c. discriminate. }
  destruct (Ascii.eqb c tab) eqn:E2.
  { apply Ascii.eqb_eq in E2. subst c. discriminate. }
  reflexivity.
Qed.

Lemma advance_pair (lx : L.t) : L.advance lx = (fst (L.advance lx), snd (L.advance lx)).
Proof. destruct (L.advance lx); reflexivity. Qed.

(** One round of the generator's loop. *)
Lemma lex_S (fuel : nat) (lx : L.t) :
  L.lex (S fuel) lx =
  if negb (L.lexer_bool lx) then Ok ((EOF, None), lx, true)
  else if sym_is (L.symbol lx) nl then
    lx1 <- (if sym_is (L.next_symbol lx) nl
            then L.skip_blank_lines (S (String.length (L.leftover lx))) lx
            else Ok lx) ;;
    let '(c, lx2) := L.advance lx1 in
    Ok ((NEWLINE, Some (str_of c)), lx2, false)
  else if isspace (L.symbol lx) then
    L.lex fuel (snd (L.advance lx))
  else if sym_is (L.symbol lx) "/" && sym_is (L.next_symbol lx) "/" then
    lx1 <- L.read_comment (S (String.length (L.leftover lx)))
                          (snd (L.advance (snd (L.advance lx)))) ;;
    L.lex fuel lx1
  else if sym_is (L.symbol lx) "{" then
    let '(c, lx1) := L.advance lx in Ok ((LBRACE, Some (str_of c)), lx1, false)
  else if sym_is (L.symbol lx) "}" then
    let '(c, lx1) := L.advance lx in Ok ((RBRACE, Some (str_of c)), lx1, false)
  else if L._is_valid_symbol (L.symbol lx) then
    '(s, lx1) <- L.read_simple_string (String " " (String tab (String nl EmptyString))) lx ;;
    if negb (is_empty s) then Ok ((STRING, Some s), lx1, false)
    else L.lex fuel lx1
  else if str_in (L.symbol lx) L.quotes then
    if str_in (L.next_symbol lx) L.quotes then
      Ok ((STRING, Some EmptyString), snd (L.advance (snd (L.advance lx))), false)
    else
      '(s, lx1) <- L.read_quoted_string lx ;;
      if negb (is_empty s) then Ok ((STRING, Some s), lx1, false)
      else L.lex fuel lx1
  else if sym_is (L.symbol lx) "[" then
    let '(c, lx1) := L.advance lx in Ok ((LBRACKET, Some (str_of c)), lx1, false)
  else if sym_is (L.symbol lx) "]" then
    let '(c, lx1) := L.advance lx in Ok ((RBRACKET, Some (str_of c)), lx1, false)
  else if isprintable (L.symbol lx) then
    let '(c, lx1) := L.advance lx in
    L.lex fuel (L.warn (UnknownSymbol (str_of c) (L._line lx1) (L._column lx1)) lx1)
  else Raise FGDLexerException.
Proof. reflexivity. Qed.

Theorem lex_progress (fuel : nat) :
  forall lx, len lx < fuel -> lex_outcome lx (L.lex fuel lx).
Proof.
  induction fuel as [|fuel IH]; intros lx Hf; [lia|].
  rewrite lex_S.
  destruct (L.lexer_bool lx) eqn:Hb; cbn [negb].
  2:{ simpl. split; [reflexivity | now apply lexer_bool_false_len]. }
  pose proof (lexer_bool_len _ Hb) as Hpos.
  pose proof (advance_lt lx Hpos) as Hadv.
  destruct (sym_is (L.symbol lx) nl) eqn:Hnl.
  { (* a newline *)
    assert (H1 : exists lx1,
               (if sym_is (L.next_symbol lx) nl
                then L.skip_blank_lines (S (String.length (L.leftover lx))) lx
                else Ok lx) = Ok lx1
               /\ len lx1 <= len lx /\ sym_is (L.symbol lx1) nl = true).
    { destruct (sym_is (L.next_symbol lx) nl).
      - apply skip_blank_lines_total; [unfold len; lia | exact Hnl].
      - exists lx. repeat split; [lia | exact Hnl]. }
    destruct H1 as (lx1 & -> & Hle & Hs1). cbn [bind].
    apply sym_is_some in Hs1.
    pose proof (advance_lt lx1 (symbol_some_len _ _ Hs1)) as Hlt.
    rewrite (advance_pair lx1). simpl. split; [discriminate | lia]. }
  destruct (isspace (L.symbol lx)) eqn:Hsp.
  { apply (lex_outcome_mono (snd (L.advance lx))); [lia|]. apply IH. lia. }
  destruct (sym_is (L.symbol lx) "/" && sym_is (L.next_symbol lx) "/") eqn:Hcm.
  { pose proof (advance_le (snd (L.advance lx))) as Hle2.
    destruct (read_comment_total (S (String.length (L.leftover lx)))
                (snd (L.advance (snd (L.advance lx))))) as (lx1 & H1 & Hle1).
    { unfold len in *. lia. }
    rewrite H1. cbn [bind].
    apply (lex_outcome_mono lx1); [lia|]. apply IH. lia. }
  destruct (sym_is (L.symbol lx) "{") eqn:Hlb.
  { rewrite (advance_pair lx). simpl. split; [discriminate | lia]. }
  destruct (sym_is (L.symbol lx) "}") eqn:Hrb.
  { rewrite (advance_pair lx). simpl. split; [discriminate | lia]. }
  destruct (L._is_valid_symbol (L.symbol lx)) eqn:Hv.
  { destruct (not_terminator _ Hnl Hsp) as [Ht | Hnone].
    2:{ rewrite Hnone in Hv. discriminate. }
    destruct (read_simple_string_lt _ lx Hv Ht) as (s & lx1 & -> & Hlt).
    cbn [bind]. destruct (is_empty s); cbn [negb].
    - apply (lex_outcome_mono lx1); [lia|]. apply IH. lia.
    - simpl. split; [discriminate | lia]. }
  destruct (str_in (L.symbol lx) L.quotes) eqn:Hq.
  { destruct (str_in (L.next_symbol lx) L.quotes).
    - pose proof (advance_le (snd (L.advance lx))).
      simpl. split; [discriminate | lia].
    - destruct (read_quoted_string_lt lx Hpos) as (s & lx1 & -> & Hlt).
      cbn [bind]. destruct (is_empty s); cbn [negb].
      + apply (lex_outcome_mono lx1); [lia|]. apply IH. lia.
      + simpl. split; [discriminate | lia]. }
  destruct (sym_is (L.symbol lx) "[") eqn:Hlk.
  { rewrite (advance_pair lx). simpl. split; [discriminate | lia]. }
  destruct (sym_is (L.symbol lx) "]") eqn:Hrk.
  { rewrite (advance_pair lx). simpl. split; [discriminate | lia]. }
  destruct (isprintable (L.symbol lx)) eqn:Hp.
  { rewrite (advance_pair lx).
    eapply lex_outcome_mono; [|apply IH; rewrite len_warn; lia].
    rewrite len_warn. lia. }
  reflexivity.
Qed.

(** Resumed with the fuel the parser gives it, the generator yields a token
    or raises the lexer's exception. *)
Corollary lex_total (lx : L.t) :
  L.lex (S (String.length (L.leftover lx))) lx <> OutOfFuel.
Proof.
  pose proof (lex_progress (S (len lx)) lx (Nat.lt_succ_diag_r _)) as H.
  unfold len in H. intros E. rewrite E in H. exact H.
Qed.

(** ** The parser consumes its tokens

    [P.budget] bounds the tokens a parser can still take; every operation
    that takes a token lowers it, and no loop of the parser runs out of
    fuel. *)

Lemma spends_weaken {A : Type} (n m : nat) (p q : P.t) (r : result (A * P.t)) :
  m + P.budget q <= n + P.budget p -> spends n q r -> spends m p r.
Proof. destruct r as [[a p']| |]; simpl; auto. lia. Qed.

Lemma next_spends (p : P.t) : spends 1 p (P.next p).
Proof.
  unfold P.next. destruct (P._finished p) eqn:Hfin; [exact I|].
  pose proof (lex_progress (S (len (P._lexer p))) (P._lexer p)) as H.
  unfold len in H at 1. specialize (H (Nat.lt_succ_diag_r _)).
  destruct (L.lex _ _) as [[[tok lx'] fin]|e|]; simpl in *; [|exact I|exact H].
  unfold P.budget; simpl. rewrite Hfin. unfold len in H.
  destruct fin; destruct H as [_ H]; destruct (P._last_peek p); lia.
Qed.

Lemma next_last_peek (p : P.t) (tok : token) (p' : P.t) :
  P.next p = Ok (tok, p') -> P._last_peek p' = P._last_peek p.
Proof.
  unfold P.next. destruct (P._finished p); [discriminate|].
  destruct (L.lex _ _) as [[[tok0 lx'] fin]|e|]; simpl; try discriminate.
  intros H. injection H as _ <-. reflexivity.
Qed.

Lemma peek_spends (p : P.t) : spends 0 p (P.peek p).
Proof.
  unfold P.peek. destruct (P._last_peek p) eqn:Hlp; [simpl; lia|].
  pose proof (next_spends p) as H. pose proof (next_last_peek p) as Hl.
  destruct (P.next p) as [[tok p1]|e|]; simpl in *; auto.
  specialize (Hl _ _ eq_refl). rewrite Hlp in Hl.
  unfold P.budget in *; simpl. rewrite Hl in H. lia.
Qed.

Lemma peek_last_peek (p : P.t) (tok : token) (p' : P.t) :
  P.peek p = Ok (tok, p') -> P._last_peek p' = Some tok.
Proof.
  unfold P.peek. destruct (P._last_peek p) eqn:Hlp.
  - intros H. injection H as <- <-. exact Hlp.
  - destruct (P.next p) as [[tok0 p1]|e|]; simpl; try discriminate.
    intros H. injection H as <- <-. reflexivity.
Qed.

Lemma advance_spends (p : P.t) : spends 1 p (P.advance p).
Proof.
  unfold P.advance. destruct (P._last_peek p) eqn:Hlp; [|apply next_spends].
  unfold spends, P.budget; simpl. rewrite Hlp. lia.
Qed.

Lemma match_spends (token_type : VKVToken) (consume : bool) (p : P.t) :
  spends 0 p (P.match_ token_type consume p).
Proof.
  unfold P.match_. pose proof (peek_spends p) as H.
  destruct (P.peek p) as [[[tok v] p1]|e|]; simpl in *; auto.
  destruct (VKVToken_eqb tok token_type); [|simpl; lia].
  destruct consume; [|simpl; lia].
  pose proof (advance_spends p1) as H1.
  destruct (P.advance p1) as [[t2 p2]|e|]; simpl in *; auto. lia.
Qed.

(** A successful consuming match took a token. *)
Lemma match_consume_spends (token_type : VKVToken) (p : P.t) :
  match P.match_ token_type true p with
  | Ok (true, p') => P.budget p' + 1 <= P.budget p
  | Ok (false, p') => P.budget p' <= P.budget p
  | Raise _ => True
  | OutOfFuel => False
  end.
Proof.
  unfold P.match_. pose proof (peek_spends p) as H.
  destruct (P.peek p) as [[[tok v] p1]|e|]; simpl in *; auto.
  destruct (VKVToken_eqb tok token_type); [|simpl; lia].
  pose proof (advance_spends p1) as H1.
  destruct (P.advance p1) as [[t2 p2]|e|]; simpl in *; auto. lia.
Qed.

Lemma skip_to_newline_S (fuel : nat) (p : P.t) :
  P.skip_to_newline (S fuel) p =
  ('(b, p1) <- P.match_ NEWLINE false p ;;
   if (b : bool) then Ok p1
   else '(_, p2) <- P.advance p1 ;; P.skip_to_newline fuel p2).
Proof. reflexivity. Qed.

Lemma _skip_newlines_loop_S (fuel : nat) (p : P.t) :
  P._skip_newlines_loop (S fuel) p =
  ('(b, p1) <- P.match_ NEWLINE false p ;;
   if (b : bool) then '(_, p2) <- P.advance p1 ;; P._skip_newlines_loop fuel p2
   else Ok p1).
Proof. reflexivity. Qed.

Lemma parse_loop_S (fuel : nat) (node_stack : list nat) (p : P.t) :
  P.parse_loop (S fuel) node_stack p =
  if L.lexer_bool (P._lexer p) then
    '(fl, node_stack, p) <- P.parse_round node_stack p ;;
    match fl with
    | P.Break => Ok (node_stack, p)
    | P.Next => P.parse_loop fuel node_stack p
    end
  else Ok (node_stack, p).
Proof. reflexivity. Qed.

Lemma skip_to_newline_spends (fuel : nat) :
  forall p, P.budget p < fuel ->
  match P.skip_to_newline fuel p with
  | Ok p' => P.budget p' <= P.budget p
  | Raise _ => True
  | OutOfFuel => False
  end.
Proof.
  induction fuel as [|fuel IH]; intros p Hf; [lia|].
  rewrite skip_to_newline_S.
  pose proof (match_spends NEWLINE false p) as H.
  destruct (P.match_ NEWLINE false p) as [[b p1]|e|]; simpl in *; auto.
  destruct b; [lia|].
  pose proof (advance_spends p1) as H1.
  destruct (P.advance p1) as [[t2 p2]|e|]; simpl in *; auto.
  specialize (IH p2). destruct (P.skip_to_newline fuel p2); auto.
  - specialize (IH ltac:(lia)). lia.
  - apply IH. lia.
Qed.

Lemma _skip_newlines_loop_spends (fuel : nat) :
  forall p, P.budget p < fuel ->
  match P._skip_newlines_loop fuel p with
  | Ok p' => P.budget p' <= P.budget p
  | Raise _ => True
  | OutOfFuel => False
  end.
Proof.
  induction fuel as [|fuel IH]; intros p Hf; [lia|].
  rewrite _skip_newlines_loop_S.
  pose proof (match_spends NEWLINE false p) as H.
  destruct (P.match_ NEWLINE false p) as [[b p1]|e|]; simpl in *; auto.
  destruct b; [|lia].
  pose proof (advance_spends p1) as H1.
  destruct (P.advance p1) as [[t2 p2]|e|]; simpl in *; auto.
  specialize (IH p2). destruct (P._skip_newlines_loop fuel p2); auto.
  - specialize (IH ltac:(lia)). lia.
  - apply IH. lia.
Qed.

Lemma _skip_newlines_spends (p : P.t) :
  match P._skip_newlines p with
  | Ok p' => P.budget p' <= P.budget p
  | Raise _ => True
  | OutOfFuel => False
  end.
Proof. apply _skip_newlines_loop_spends. lia. Qed.

Lemma budget_warn (w : warning) (p : P.t) : P.budget (P.warn w p) = P.budget p.
Proof. reflexivity. Qed.

Lemma expect_spends (token_type : VKVToken) (p : P.t) :
  spends 0 p (P.expect token_type p).
Proof.
  unfold P.expect. pose proof (peek_spends p) as H.
  destruct (P.peek p) as [[[tok v] p1]|e|]; simpl in *; auto.
  destruct (VKVToken_eqb tok token_type).
  - pose proof (advance_spends p1) as H1.
    destruct (P.advance p1) as [[t2 p2]|e|]; simpl in *; auto. lia.
  - destruct (P._self_recover p1); [|exact I].
    match goal with |- context [P.skip_to_newline ?f ?q] =>
      pose proof (skip_to_newline_spends f q) as H1 end.
    specialize (H1 (Nat.lt_succ_diag_r _)).
    destruct (P.skip_to_newline _ _); simpl in *; auto.
    rewrite budget_warn in H1. lia.
Qed.

Lemma store_spends (node_stack : list nat) (key : string) (v : value) (p : P.t) :
  match P.store node_stack key v p with
  | Ok p' => P.budget p' = P.budget p
  | Raise _ => True
  | OutOfFuel => False
  end.
Proof.
  unfold P.store, P.top. destruct (rev node_stack); simpl; [exact I|].
  destruct (nth_error (P.heap p) n); [reflexivity | exact I].
Qed.

Lemma budget_new_dict (p : P.t) : P.budget (snd (P.new_dict p)) = P.budget p.
Proof. reflexivity. Qed.

Theorem parse_round_spends (node_stack : list nat) (p : P.t) :
  round_outcome p (P.parse_round node_stack p).
Proof.
  unfold P.parse_round, round_outcome.
  run (_skip_newlines_spends p) H0.
  match goal with |- context [P.match_ STRING false ?q] =>
    run (match_spends STRING false q) H1 end.
  destruct b.
  - match goal with |- context [P.advance ?q] => run (advance_spends q) H2 end.
    match goal with |- context [P._skip_newlines ?q] =>
      run (_skip_newlines_spends q) H3 end.
    match goal with |- context [P.match_ LBRACE true ?q] =>
      run (match_spends LBRACE true q) H4 end.
    destruct b.
    + match goal with |- context [P.new_dict ?q] =>
        pose proof (budget_new_dict q) as Hn;
        destruct (P.new_dict q) as [new_tree_node q'] end.
      match goal with |- context [P.store ?a ?b ?c ?q] =>
        run (store_spends a b c q) H5 end.
      simpl in Hn. lia.
    + match goal with |- context [P.match_ STRING false ?q] =>
        run (match_spends STRING false q) H5 end.
      destruct b; [|lia].
      match goal with |- context [P.advance ?q] => run (advance_spends q) H6 end.
      match goal with |- context [P.match_ LBRACKET true ?q] =>
        run (match_spends LBRACKET true q) H7 end.
      destruct b.
      * match goal with |- context [P.advance ?q] => run (advance_spends q) H8 end.
        match goal with |- context [P.expect RBRACKET ?q] =>
          run (expect_spends RBRACKET q) H9 end.
        match goal with |- context [P.store ?a ?b ?c ?q] =>
          run (store_spends a b c q) H10 end.
        match goal with |- context [P.expect NEWLINE ?q] =>
          run (expect_spends NEWLINE q) H11 end.
        lia.
      * match goal with |- context [P.store ?a ?b ?c ?q] =>
          run (store_spends a b c q) H10 end.
        match goal with |- context [P.expect NEWLINE ?q] =>
          run (expect_spends NEWLINE q) H11 end.
        lia.
  - match goal with |- context [P.match_ RBRACE true ?q] =>
      pose proof (match_consume_spends RBRACE q) as H2;
      destruct (P.match_ RBRACE true q) as [[[|] ?]|?|]; cbn [bind] in H2 |- *;
      [ | | exact I | exact H2 ] end.
    + destruct (P.pop node_stack) eqn:Hpop; cbn [bind]; [lia | exact I |].
      unfold P.pop in Hpop. destruct (rev node_stack); discriminate.
    + match goal with |- context [P.match_ EOF false ?q] =>
        run (match_spends EOF false q) H3 end.
      destruct b; [lia | exact I].
Qed.

(** [parse] never runs out of fuel: it returns or raises. *)
Theorem parse_loop_total (fuel : nat) :
  forall node_stack p, P.budget p < fuel ->
  P.parse_loop fuel node_stack p <> OutOfFuel.
Proof.
  induction fuel as [|fuel IH]; intros node_stack p Hf; [lia|].
  rewrite parse_loop_S.
  destruct (L.lexer_bool (P._lexer p)); [|discriminate].
  pose proof (parse_round_spends node_stack p) as H.
  destruct (P.parse_round node_stack p) as [[[[|] ns] p']|e|]; cbn [bind];
    simpl in H; try discriminate; [|contradiction].
  apply IH. lia.
Qed.

Theorem parse_total (p : P.t) : P.parse p <> OutOfFuel.
Proof.
  unfold P.parse.
  pose proof (parse_loop_total (S (P.budget p)) [P.tree p] p (Nat.lt_succ_diag_r _)) as H.
  destruct (P.parse_loop _ _ _) as [[ns p']|e|]; cbn [bind]; congruence.
Qed.

(** ** Lexing a bare word, a quote pair, a newline *)

Lemma plain_char_facts (c : ascii) :
  plain_char c = true ->
  L._is_valid_symbol (Some c) = true
  /\ mem_char c (String " " (String tab (String nl EmptyString))) = false
  /\ Ascii.eqb c nl = false /\ Ascii.eqb c cr = false
  /\ isspace_char c = false
  /\ Ascii.eqb c "{" = false /\ Ascii.eqb c "}" = false.
Proof.
  destruct c as [[] [] [] [] [] [] [] []]; vm_compute; intros H;
    try discriminate H; repeat split.
Qed.

Lemma is_quote_cases (c : ascii) : is_quote c = true -> c = squote \/ c = dquote.
Proof.
  unfold is_quote, L.quotes. simpl. rewrite orb_false_r.
  intros H. apply orb_true_iff in H as [H|H]; apply Ascii.eqb_eq in H; auto.
Qed.

Lemma rstrip_plain (w : string) : all_plain w = true -> rstrip w = w.
Proof.
  induction w as [|c w IH]; simpl; [reflexivity|].
  intros H. apply andb_true_iff in H as [Hc Hw].
  apply plain_char_facts in Hc as (_ & _ & _ & _ & Hsp & _).
  rewrite (IH Hw), Hsp, andb_false_r. reflexivity.
Qed.

Lemma strip_plain (w : string) : all_plain w = true -> strip w = w.
Proof.
  intros H. unfold strip.
  assert (Hl : lstrip w = w).
  { destruct w as [|c w]; [reflexivity|]. simpl in *.
    apply andb_true_iff in H as [Hc _].
    apply plain_char_facts in Hc as (_ & _ & _ & _ & Hsp & _).
    now rewrite Hsp. }
  rewrite Hl. now apply rstrip_plain.
Qed.

Lemma read_simple_loop_word (w : string) :
  forall rest bn ln col wd acc fuel,
  all_plain w = true -> stops rest = true -> String.length w < fuel ->
  L.read_simple_loop fuel (String " " (String tab (String nl EmptyString)))
    (L.mkLexer (w ++ rest) bn ln col wd) acc
  = Ok (acc ++ w, L.mkLexer rest bn ln (col + String.length w) wd).
Proof.
  induction w as [|c w IH]; intros rest bn ln col wd acc fuel Hw Hr Hf.
  - destruct fuel as [|fuel]; [simpl in Hf; lia|].
    simpl. rewrite append_empty_r, Nat.add_0_r.
    unfold L.symbol; simpl.
    destruct rest as [|d rest]; [reflexivity|].
    simpl in Hr. unfold str_in. simpl. unfold str_in in Hr. simpl in Hr.
    rewrite Hr. reflexivity.
  - destruct fuel as [|fuel]; [simpl in Hf; lia|].
    simpl in Hw. apply andb_true_iff in Hw as [Hc Hw].
    apply plain_char_facts in Hc as (Hv & Ht & Hnl & Hcr & _).
    cbn [L.read_simple_loop]. unfold L.symbol at 1 2. cbn [L.leftover append].
    rewrite Hv. cbn [str_in]. rewrite Ht. cbn [negb orb].
    unfold L.advance, L.symbol, L.next_symbol. cbn [L.leftover append].
    rewrite Hnl, Hcr. cbn [andb orb L.drop1 L.buffer_name L._line L._column L.warned].
    rewrite IH; [|assumption|assumption|simpl in Hf; lia].
    cbn [str_of String.length]. rewrite append_assoc. simpl.
    replace (col + 1 + String.length w) with (col + S (String.length w)) by lia.
    reflexivity.
Qed.

Lemma prefix_comment (c d : ascii) (w : string) :
  String.prefix "//" (String c (String d w)) = false ->
  Ascii.eqb c "/" && Ascii.eqb d "/" = false.
Proof.
  simpl. destruct (ascii_dec "/" c) as [<-|Hc].
  - destruct (ascii_dec "/" d) as [<-|Hd]; [destruct w; discriminate|].
    intros _. simpl. apply Ascii.eqb_neq. congruence.
  - intros _. apply andb_false_iff. left. apply Ascii.eqb_neq. congruence.
Qed.

(** A word is lexed as one string token holding it. *)
Lemma lex_word (w rest bn : string) (ln col : nat) (wd : list warning) (fuel : nat) :
  is_word w = true -> stops rest = true ->
  L.lex (S fuel) (L.mkLexer (w ++ rest) bn ln col wd)
  = Ok ((STRING, Some w), L.mkLexer rest bn ln (col + String.length w) wd, false).
Proof.
  unfold is_word. intros Hw Hr.
  apply andb_true_iff in Hw as [Hw Hp]. apply andb_true_iff in Hw as [Hne Hall].
  apply negb_true_iff in Hp.
  destruct w as [|c w]; [discriminate|].
  pose proof Hall as Hall'. simpl in Hall'.
  apply andb_true_iff in Hall' as [Hc _].
  apply plain_char_facts in Hc as (Hv & Ht & Hnl & Hcr & Hsp & Hlb & Hrb).
  rewrite lex_S. unfold L.lexer_bool, L.symbol, L.next_symbol.
  cbn [L.leftover append is_empty negb sym_is isspace].
  rewrite Hnl, Hsp, Hlb, Hrb, Hv.
  assert (Hcm : Ascii.eqb c "/" &&
                sym_is match (w ++ rest)%string with
                       | String c0 _ => Some c0
                       | EmptyString => None
                       end "/" = false).
  { destruct w as [|d w].
    - destruct (Ascii.eqb c "/") eqn:E; [|reflexivity].
      simpl. destruct rest as [|d rest]; [reflexivity|].
      simpl in Hr. simpl.
      destruct (Ascii.eqb d "/") eqn:E2; [|reflexivity].
      apply Ascii.eqb_eq in E2. subst d. vm_compute in Hr. discriminate.
    - simpl. exact (prefix_comment c d w Hp). }
  rewrite Hcm.
  unfold L.read_simple_string. cbn [L.leftover].
  change (String c (w ++ rest)) with (String c w ++ rest).
  rewrite (read_simple_loop_word (String c w)); [|assumption|assumption|].
  2:{ rewrite length_append. lia. }
  cbn [bind]. simpl append.
  rewrite (strip_plain _ Hall), (rstrip_plain _ Hall). reflexivity.
Qed.

Lemma lex_space (rest bn : string) (ln col : nat) (wd : list warning) (fuel : nat) :
  L.lex (S fuel) (L.mkLexer (String " " rest) bn ln col wd)
  = L.lex fuel (L.mkLexer rest bn ln (col + 1) wd).
Proof. rewrite lex_S. reflexivity. Qed.

(** Two quote characters in a row, alike or not, are lexed as one empty
    string token. *)
Lemma lex_quote_pair (q1 q2 : ascii) (rest bn : string) (ln col : nat)
    (wd : list warning) (fuel : nat) :
  is_quote q1 = true -> is_quote q2 = true ->
  L.lex (S fuel) (L.mkLexer (String q1 (String q2 rest)) bn ln col wd)
  = Ok ((STRING, Some EmptyString), L.mkLexer rest bn ln (col + 1 + 1) wd, false).
Proof.
  intros H1 H2.
  apply is_quote_cases in H1 as [-> | ->];
    apply is_quote_cases in H2 as [-> | ->]; rewrite lex_S; reflexivity.
Qed.

Lemma lex_newline (rest bn : string) (ln col : nat) (wd : list warning) (fuel : nat) :
  String.prefix (String nl EmptyString) rest = false ->
  L.lex (S fuel) (L.mkLexer (String nl rest) bn ln col wd)
  = Ok ((NEWLINE, Some (String nl EmptyString)),
        L.mkLexer rest bn (ln + 1) 1 wd, false).
Proof.
  intros H. rewrite lex_S.
  unfold L.lexer_bool, L.symbol, L.next_symbol. cbn [L.leftover is_empty negb sym_is].
  assert (E : sym_is match rest with String c _ => Some c | EmptyString => None end nl = false).
  { destruct rest as [|d rest]; [reflexivity|]. simpl in *.
    destruct (ascii_dec nl d) as [<-|Hd]; [destruct rest; discriminate|].
    apply Ascii.eqb_neq. congruence. }
  change (Ascii.eqb nl nl) with true. cbn iota. rewrite E. reflexivity.
Qed.

Lemma lex_rbrace (rest bn : string) (ln col : nat) (wd : list warning) (fuel : nat) :
  L.lex (S fuel) (L.mkLexer (String "}" rest) bn ln col wd)
  = Ok ((RBRACE, Some "}"), L.mkLexer rest bn ln (col + 1) wd, false).
Proof. rewrite lex_S. reflexivity. Qed.

(** ** A key assigned the quoted empty string *)

(** The statement [key <quote><quote>] on a line of its own, wherever it
    stands in a document: the round of [parse] that meets it stores the
    empty string under the key in the current node and leaves the parser at
    the start of the next line. *)
Lemma parse_round_empty_string (k rest bn path : string) (q1 q2 : ascii)
    (ln col : nat) (wd : list warning) (rec : bool) (heap : list node)
    (tree : nat) (node_stack : list nat) (a : nat) (d : node) :
  is_word k = true -> is_quote q1 = true -> is_quote q2 = true ->
  String.prefix (String nl EmptyString) rest = false ->
  P.top node_stack = Ok a -> nth_error heap a = Some d ->
  P.parse_round node_stack
    (P.mkParser
       (L.mkLexer (k ++ String " " (String q1 (String q2 (String nl rest))))
                  bn ln col wd)
       false None rec path heap tree)
  = Ok (P.Next, node_stack,
        P.mkParser (L.mkLexer rest bn (ln + 1) 1 wd) false None rec path
                   (P.update heap a (dict_set String.eqb d k (VStr EmptyString)))
                   tree).
Proof.
  intros Hk Hq1 Hq2 Hrest Htop Hd.
  unfold P.parse_round, P._skip_newlines.
  rewrite _skip_newlines_loop_S. pstep.
  rewrite lex_word; [|exact Hk|reflexivity]. cbn.
  rewrite _skip_newlines_loop_S. pstep.
  rewrite lex_space, lex_quote_pair; [|exact Hq1|exact Hq2]. cbn.
  rewrite lex_newline; [|exact Hrest]. cbn.
  rewrite Htop. cbn. rewrite Hd. reflexivity.
Qed.

Lemma dict_get_set_same {V : Type} (d : dict string V) (k : string) (v : V) :
  dict_get String.eqb (dict_set String.eqb d k v) k = Some v.
Proof.
  induction d as [|[k' v'] d IH]; simpl.
  - now rewrite String.eqb_refl.
  - destruct (String.eqb k k') eqn:E; simpl; rewrite E; [reflexivity | exact IH].
Qed.

Lemma nth_error_update {A : Type} (l : list A) (i : nat) (a b : A) :
  nth_error l i = Some a -> nth_error (P.update l i b) i = Some b.
Proof.
  revert i. induction l as [|x l IH]; intros [|i]; simpl; try discriminate; auto.
Qed.

(** C7.  Two identical quote characters in a row are lexed as one string
    token whose text is empty, both quotes consumed; and a statement
    assigning the quoted empty string to a key leaves the key present in the
    current node of the tree, bound to the empty scalar. *)
Theorem quoted_empty_string_is_present (k rest bn path : string) (q : ascii)
    (ln col : nat) (wd : list warning) (rec : bool) (heap : list node)
    (tree : nat) (node_stack : list nat) (a : nat) (d : node) (fuel : nat) :
  is_word k = true -> is_quote q = true ->
  String.prefix (String nl EmptyString) rest = false ->
  P.top node_stack = Ok a -> nth_error heap a = Some d ->
  L.lex (S fuel) (L.mkLexer (String q (String q rest)) bn ln col wd)
  = Ok ((STRING, Some EmptyString), L.mkLexer rest bn ln (col + 1 + 1) wd, false)
  /\ exists p' d',
       P.parse_round node_stack
         (P.mkParser
            (L.mkLexer (k ++ String " " (String q (String q (String nl rest))))
                       bn ln col wd)
            false None rec path heap tree)
       = Ok (P.Next, node_stack, p')
       /\ nth_error (P.heap p') a = Some d'
       /\ dict_get String.eqb d' k = Some (VStr EmptyString)
       /\ dict_mem String.eqb d' k = true.
Proof.
  intros Hk Hq Hrest Htop Hd. split.
  - now apply lex_quote_pair.
  - eexists _, _. split; [|split; [|split]].
    + apply parse_round_empty_string; eassumption.
    + cbn [P.heap]. eapply nth_error_update. exact Hd.
    + apply dict_get_set_same.
    + unfold dict_mem. now rewrite dict_get_set_same.
Qed.

Lemma quoted_empty_string_is_present_witness :
  is_word "key" = true /\ is_quote dquote = true
  /\ L.lex 1 (L.mkLexer (String dquote (String dquote EmptyString)) "memory" 1 1 [])
  = Ok ((STRING, Some EmptyString), L.mkLexer EmptyString "memory" 1 3 [], false)
  /\ exists p' d',
       P.parse_round [0]
         (P.of_buffer ("key " ++ Sample.qq EmptyString ++ Sample.NL) "memory" false)
       = Ok (P.Next, [0], p')
       /\ nth_error (P.heap p') 0 = Some d'
       /\ dict_get String.eqb d' "key" = Some (VStr EmptyString)
       /\ dict_mem String.eqb d' "key" = true.
Proof.
  split; [reflexivity | split; [reflexivity|]].
  exact (quoted_empty_string_is_present "key" EmptyString "memory" "memory" dquote
           1 1 [] false [ [] ] 0 [0] 0 [] 0
           eq_refl eq_refl eq_refl eq_refl eq_refl).
Defined.

(** The whole document [key ""] parses to the tree that binds [key] to the
    empty string; the document without the statement has no [key]. *)
Example parse_quoted_empty_string :
  (p <- P.parse (P.of_buffer ("key " ++ Sample.qq EmptyString ++ Sample.NL) "memory" false) ;;
   Ok (P.heap p))
  = Ok [ [("key", VStr EmptyString)] ]
  /\ (p <- P.parse (P.of_buffer Sample.NL "memory" false) ;; Ok (P.heap p))
     = Ok [ [] ].
Proof. split; reflexivity. Qed.

(** C10.  The empty-string case of the lexer is entered on any two quote
    characters in a row, whether or not they are the same: a double quote
    followed by a single quote, or the reverse, is consumed as one empty
    string token, and the parser's next token is that token. *)
Theorem mixed_quotes_lex_as_empty_string (q1 q2 : ascii) (rest bn path : string)
    (ln col : nat) (wd : list warning) (rec : bool) (heap : list node)
    (tree : nat) (fuel : nat) :
  is_quote q1 = true -> is_quote q2 = true ->
  L.lex (S fuel) (L.mkLexer (String q1 (String q2 rest)) bn ln col wd)
  = Ok ((STRING, Some EmptyString), L.mkLexer rest bn ln (col + 1 + 1) wd, false)
  /\ P.next (P.mkParser (L.mkLexer (String q1 (String q2 rest)) bn ln col wd)
                        false None rec path heap tree)
     = Ok ((STRING, Some EmptyString),
           P.mkParser (L.mkLexer rest bn ln (col + 1 + 1) wd)
                      false None rec path heap tree).
Proof.
  intros H1 H2. split.
  - now apply lex_quote_pair.
  - unfold P.next. cbn [P._finished P._lexer L.leftover].
    rewrite lex_quote_pair; [reflexivity | exact H1 | exact H2].
Qed.

Lemma mixed_quotes_lex_as_empty_string_witness :
  is_quote dquote = true /\ is_quote squote = true
  /\ L.lex 1 (L.mkLexer (String dquote (String squote "abc")) "memory" 1 1 [])
  = Ok ((STRING, Some EmptyString), L.mkLexer "abc" "memory" 1 3 [], false)
  /\ P.next (P.mkParser (L.mkLexer (String dquote (String squote "abc")) "memory" 1 1 [])
                        false None true "memory" [ [] ] 0)
     = Ok ((STRING, Some EmptyString),
           P.mkParser (L.mkLexer "abc" "memory" 1 3 []) false None true "memory" [ [] ] 0).
Proof.
  split; [reflexivity | split; [reflexivity|]].
  exact (mixed_quotes_lex_as_empty_string dquote squote "abc" "memory" "memory"
           1 1 [] true [ [] ] 0 0 eq_refl eq_refl).
Defined.

(** A double quote, a single quote, [abc] and a closing double quote: not
    the string ['abc] between double quotes, but an empty string, the bare
    word, and a quoted string that is opened at the end of the line and
    never closed. *)
Example mixed_quotes_tokens :
  L.tokens_of (String dquote (String squote ("abc" ++ String dquote Sample.NL)))
  = Ok [(STRING, Some EmptyString); (STRING, Some "abc");
        (NEWLINE, Some Sample.NL); (EOF, None)].
Proof. reflexivity. Qed.

(** ** A closing brace too many *)

Lemma lex_newline_any (rest bn : string) (ln col : nat) (wd : list warning) (fuel : nat) :
  exists lx',
    L.lex (S fuel) (L.mkLexer (String nl rest) bn ln col wd)
    = Ok ((NEWLINE, Some (String nl EmptyString)), lx', false).
Proof.
  rewrite lex_S.
  set (lx := L.mkLexer (String nl rest) bn ln col wd).
  assert (Hs : sym_is (L.symbol lx) nl = true) by reflexivity.
  assert (H1 : exists lx1,
             (if sym_is (L.next_symbol lx) nl
              then L.skip_blank_lines (S (String.length (L.leftover lx))) lx
              else Ok lx) = Ok lx1 /\ sym_is (L.symbol lx1) nl = true).
  { destruct (sym_is (L.next_symbol lx) nl).
    - destruct (skip_blank_lines_total (S (len lx)) lx (Nat.lt_succ_diag_r _) Hs)
        as (lx1 & H & _ & Hs1).
      exists lx1. split; assumption.
    - exists lx. split; [reflexivity | exact Hs]. }
  destruct H1 as (lx1 & H1 & Hs1).
  change (negb (L.lexer_bool lx)) with false. cbn iota. rewrite Hs, H1. cbn [bind].
  rewrite (advance_pair lx1), advance_fst.
  apply sym_is_some in Hs1. rewrite Hs1. eexists. reflexivity.
Qed.

(** A closing brace pops the node stack; with only the root on it, the
    stack is left empty. *)
Lemma parse_round_rbrace (rest bn path : string) (ln col : nat)
    (wd : list warning) (rec : bool) (heap : list node) (tree root : nat) :
  P.parse_round [root]
    (P.mkParser (L.mkLexer (String "}" rest) bn ln col wd)
                false None rec path heap tree)
  = Ok (P.Next, [],
        P.mkParser (L.mkLexer rest bn ln (col + 1) wd) false None rec path heap tree).
Proof.
  unfold P.parse_round, P._skip_newlines.
  rewrite _skip_newlines_loop_S. pstep.
  rewrite lex_rbrace. reflexivity.
Qed.

(** A key/value statement met with the node stack empty: [node_stack[-1]]
    raises, in recovery mode as well. *)
Lemma parse_round_empty_stack (k v rest bn path : string) (ln col : nat)
    (wd : list warning) (rec : bool) (heap : list node) (tree : nat) :
  is_word k = true -> is_word v = true ->
  P.parse_round []
    (P.mkParser (L.mkLexer (k ++ String " " (v ++ String nl rest)) bn ln col wd)
                false None rec path heap tree)
  = Raise IndexError.
Proof.
  intros Hk Hv.
  unfold P.parse_round, P._skip_newlines.
  rewrite _skip_newlines_loop_S. pstep.
  rewrite lex_word; [|exact Hk|reflexivity]. cbn.
  rewrite _skip_newlines_loop_S. pstep.
  rewrite lex_space, lex_word; [|exact Hv|reflexivity]. cbn.
  match goal with |- context [L.lex (S ?f) (L.mkLexer (String nl ?r) ?b ?l ?c ?w)] =>
    destruct (lex_newline_any r b l c w f) as [lx' ->] end.
  reflexivity.
Qed.

(** With enough fuel the result of skipping newlines does not depend on the
    fuel. *)
Lemma _skip_newlines_loop_fuel (f1 : nat) :
  forall f2 p, P.budget p < f1 -> P.budget p < f2 ->
  P._skip_newlines_loop f1 p = P._skip_newlines_loop f2 p.
Proof.
  induction f1 as [|f1 IH]; intros f2 p H1 H2; [lia|].
  destruct f2 as [|f2]; [lia|].
  rewrite !_skip_newlines_loop_S.
  pose proof (match_spends NEWLINE false p) as Hm.
  destruct (P.match_ NEWLINE false p) as [[b p1]|e|]; cbn [bind spends] in *;
    try reflexivity.
  destruct b; [|reflexivity].
  pose proof (advance_spends p1) as Ha.
  destruct (P.advance p1) as [[t2 p2]|e|]; cbn [bind spends] in *;
    try reflexivity.
  apply IH; lia.
Qed.

Lemma first_not_newline (w rest : string) :
  is_word w = true -> String.prefix (String nl EmptyString) (w ++ rest) = false.
Proof.
  unfold is_word. intros H.
  apply andb_true_iff in H as [H _]. apply andb_true_iff in H as [Hne Hall].
  destruct w as [|c w]; [discriminate|]. simpl in Hall.
  apply andb_true_iff in Hall as [Hc _].
  apply plain_char_facts in Hc as (_ & _ & Hnl & _).
  cbn [append String.prefix].
  destruct (ascii_dec nl c) as [E|_]; [|reflexivity].
  subst c. rewrite Ascii.eqb_refl in Hnl. discriminate.
Qed.

(** A newline before a statement is skipped: the round goes on as if it had
    started on the next line. *)
Lemma parse_round_leading_newline (rest bn path : string) (ln col : nat)
    (wd : list warning) (rec : bool) (heap : list node) (tree : nat)
    (node_stack : list nat) :
  String.prefix (String nl EmptyString) rest = false ->
  P.parse_round node_stack
    (P.mkParser (L.mkLexer (String nl rest) bn ln col wd)
                false None rec path heap tree)
  = P.parse_round node_stack
      (P.mkParser (L.mkLexer rest bn (ln + 1) 1 wd) false None rec path heap tree).
Proof.
  intros Hrest.
  assert (E : P._skip_newlines
                (P.mkParser (L.mkLexer (String nl rest) bn ln col wd)
                            false None rec path heap tree)
              = P._skip_newlines
                  (P.mkParser (L.mkLexer rest bn (ln + 1) 1 wd)
                              false None rec path heap tree)).
  { unfold P._skip_newlines. rewrite _skip_newlines_loop_S at 1. pstep.
    rewrite lex_newline; [|exact Hrest]. cbn.
    apply _skip_newlines_loop_fuel; unfold P.budget; cbn; lia. }
  unfold P.parse_round. rewrite E. reflexivity.
Qed.

Lemma mem_char_append (c : ascii) (a b : string) :
  mem_char c (a ++ b) = mem_char c a || mem_char c b.
Proof.
  induction a as [|x a IH]; simpl; [reflexivity|].
  rewrite IH. now rewrite orb_assoc.
Qed.

Lemma replace_crlf_no_cr (s : string) :
  mem_char cr s = false -> replace_crlf s = s.
Proof.
  induction s as [|c s IH]; [reflexivity|].
  cbn [mem_char]. intros H. apply orb_false_iff in H as [Hc Hs].
  cbn [replace_crlf]. destruct s as [|d s]; [reflexivity|].
  rewrite Ascii.eqb_sym in Hc. rewrite Hc. cbn [andb].
  now rewrite (IH Hs).
Qed.

Lemma all_plain_no_cr (w : string) : all_plain w = true -> mem_char cr w = false.
Proof.
  induction w as [|c w IH]; [reflexivity|]. cbn [mem_char all_plain].
  intros H. apply andb_true_iff in H as [Hc Hw].
  apply plain_char_facts in Hc as (_ & _ & _ & Hcr & _).
  rewrite Ascii.eqb_sym, Hcr. now apply IH.
Qed.

Lemma is_word_all_plain (w : string) : is_word w = true -> all_plain w = true.
Proof.
  unfold is_word. intros H.
  apply andb_true_iff in H as [H _]. now apply andb_true_iff in H as [_ H].
Qed.

(** C9.  The parser does not keep its node stack non-empty.  A closing brace
    met with only the root on the stack pops the root; a key/value statement
    met with the stack empty raises [IndexError], whatever the recovery
    mode; and so the parse of the document made of a closing brace and,
    on the next line, a key/value statement ends in [IndexError]. *)
Theorem unbalanced_closing_brace_raises_IndexError (k v name : string) (rec : bool) :
  is_word k = true -> is_word v = true ->
  (forall rest bn path ln col wd heap tree root,
     P.parse_round [root]
       (P.mkParser (L.mkLexer (String "}" rest) bn ln col wd)
                   false None rec path heap tree)
     = Ok (P.Next, [],
           P.mkParser (L.mkLexer rest bn ln (col + 1) wd)
                      false None rec path heap tree))
  /\ (forall rest bn path ln col wd heap tree,
        P.parse_round []
          (P.mkParser (L.mkLexer (k ++ String " " (v ++ String nl rest)) bn ln col wd)
                      false None rec path heap tree)
        = Raise IndexError)
  /\ P.parse (P.of_buffer (String "}" (String nl (k ++ String " " (v ++ String nl EmptyString))))
                          name rec)
     = Raise IndexError.
Proof.
  intros Hk Hv. split; [|split].
  - intros. apply parse_round_rbrace.
  - intros. now apply parse_round_empty_stack.
  - unfold P.parse, P.of_buffer, L.init.
    rewrite replace_crlf_no_cr.
    2:{ cbn [mem_char]. rewrite mem_char_append. cbn [mem_char].
        rewrite mem_char_append. cbn [mem_char].
        rewrite (all_plain_no_cr k (is_word_all_plain k Hk)).
        rewrite (all_plain_no_cr v (is_word_all_plain v Hv)). reflexivity. }
    cbn [P.tree]. rewrite parse_loop_S. cbn [P._lexer L.lexer_bool L.leftover is_empty negb].
    rewrite parse_round_rbrace. cbn [bind].
    unfold P.budget. cbn [P._lexer P._finished P._last_peek L.leftover String.length Nat.add].
    rewrite parse_loop_S. cbn [P._lexer L.lexer_bool L.leftover is_empty negb].
    rewrite parse_round_leading_newline; [|now apply first_not_newline].
    rewrite parse_round_empty_stack; [reflexivity | exact Hk | exact Hv].
Qed.

Lemma unbalanced_closing_brace_raises_IndexError_witness :
  is_word "k" = true /\ is_word "v" = true
  /\ P.parse (P.of_buffer ("}" ++ Sample.NL ++ "k v" ++ Sample.NL) "memory" true)
  = Raise IndexError.
Proof.
  split; [reflexivity | split; [reflexivity|]].
  exact (proj2 (proj2 (unbalanced_closing_brace_raises_IndexError
                         "k" "v" "memory" true eq_refl eq_refl))).
Defined.

(** ** Recovery in [expect] *)

Lemma skip_to_newline_ahead (p : P.t) (skipped : list token)
    (v : option string) (p' : P.t) :
  newline_ahead p skipped v p' ->
  forall fuel, P.budget p < fuel -> P.skip_to_newline fuel p = Ok p'.
Proof.
  induction 1 as [p v p' Hpeek | p tok p1 p2 skipped v p' Hpeek Hne Hadv _ IH];
    intros fuel Hf; (destruct fuel as [|fuel]; [lia|]);
    rewrite skip_to_newline_S; unfold P.match_; rewrite Hpeek; cbn [bind].
  - reflexivity.
  - destruct tok as [kind text]. cbn [fst] in Hne. rewrite Hne. cbn [bind].
    rewrite Hadv. cbn [bind].
    apply IH.
    pose proof (peek_spends p) as H1. rewrite Hpeek in H1.
    pose proof (advance_spends p1) as H2. rewrite Hadv in H2.
    simpl in H1, H2. lia.
Qed.

Lemma newline_ahead_last_peek (p : P.t) (skipped : list token)
    (v : option string) (p' : P.t) :
  newline_ahead p skipped v p' -> P._last_peek p' = Some (NEWLINE, v).
Proof.
  induction 1 as [p v p' Hpeek | ]; [|assumption].
  now apply peek_last_peek in Hpeek.
Qed.

(** C5, as the code has it.  In recovery mode, when [expect] sees a token of
    another kind than the expected one and a newline token lies ahead in the
    stream, it emits the diagnostic, discards the tokens before that newline
    and returns nothing, without raising; the newline token itself is not
    discarded: it is left as the parser's lookahead. *)
Theorem expect_recovers_up_to_newline (token_type : VKVToken) (p p1 : P.t)
    (tok : VKVToken) (text : option string) (skipped : list token)
    (v : option string) (p' : P.t) :
  P._self_recover p = true ->
  P.peek p = Ok ((tok, text), p1) ->
  VKVToken_eqb tok token_type = false ->
  newline_ahead
    (P.warn (RecoverFrom tok text token_type (P._path p1)
               (L._line (P._lexer p1)) (L._column (P._lexer p1))) p1)
    skipped v p' ->
  P.expect token_type p = Ok (None, p')
  /\ P._last_peek p' = Some (NEWLINE, v)
  /\ P.advance p' = Ok ((NEWLINE, v), P.set_last_peek p' None).
Proof.
  intros Hrec Hpeek Hne Hahead.
  assert (Hrec1 : P._self_recover p1 = true).
  { unfold P.peek in Hpeek. destruct (P._last_peek p).
    - injection Hpeek as _ <-. exact Hrec.
    - destruct (P.next p) as [[t0 q0]|e|] eqn:E; simpl in Hpeek; try discriminate.
      injection Hpeek as _ <-. simpl.
      unfold P.next in E. destruct (P._finished p); [discriminate|].
      destruct (L.lex _ _) as [[[tok0 lx'] fin]|e|]; simpl in E; try discriminate.
      injection E as _ <-. exact Hrec. }
  pose proof (newline_ahead_last_peek _ _ _ _ Hahead) as Hlp.
  split; [|split].
  - unfold P.expect. rewrite Hpeek. cbn [bind]. rewrite Hne, Hrec1.
    rewrite (skip_to_newline_ahead _ _ _ _ Hahead); [reflexivity | lia].
  - exact Hlp.
  - unfold P.advance. rewrite Hlp. reflexivity.
Qed.

Lemma expect_recovers_up_to_newline_witness :
  exists p',
    P.expect RBRACKET (P.of_buffer ("x y" ++ Sample.NL ++ "z" ++ Sample.NL) "memory" true)
    = Ok (None, p')
    /\ P._last_peek p' = Some (NEWLINE, Some Sample.NL)
    /\ P.advance p' = Ok ((NEWLINE, Some Sample.NL), P.set_last_peek p' None).
Proof.
  eexists.
  eapply (expect_recovers_up_to_newline RBRACKET
            (P.of_buffer ("x y" ++ Sample.NL ++ "z" ++ Sample.NL) "memory" true)).
  - reflexivity.
  - reflexivity.
  - reflexivity.
  - eapply ahead_skip; [reflexivity | reflexivity | reflexivity |].
    eapply ahead_skip; [reflexivity | reflexivity | reflexivity |].
    eapply ahead_here. reflexivity.
Defined.

(** C5, as stated, fails.  On the tokens [x], newline, [y], newline,
    [expect] in recovery mode, expecting a closing bracket, returns with the
    newline still in the stream: the next token taken is that newline, not
    [y].  And the parse of [a b c], whose malformed line no newline ends,
    does not skip the line: the recovery loop runs past the end of the
    token stream and the parse ends in [StopIteration]. *)
Lemma expect_discards_through_newline_counterexample :
  (exists p' p'',
     P.expect RBRACKET (P.of_buffer ("x" ++ Sample.NL ++ "y" ++ Sample.NL) "memory" true)
     = Ok (None, p')
     /\ P.advance p' = Ok ((NEWLINE, Some Sample.NL), p''))
  /\ P.parse (P.of_buffer "a b c" "memory" true) = Raise StopIteration.
Proof.
  split; [|reflexivity].
  eexists _, _. split; reflexivity.
Qed.

(** The newline that [expect] leaves is what ends the statement: after a
    condition that lacks its closing bracket the assignment is stored and
    the next line is parsed, where discarding through the newline would
    have lost it. *)
Example recovery_keeps_next_line :
  (p <- P.parse (P.of_buffer ("k v [c x" ++ Sample.NL ++ "k2 v2" ++ Sample.NL) "memory" true) ;;
   Ok (P.heap p, L.warned (P._lexer p)))
  = Ok ([ [("k", VCond "v" (Some "c")); ("k2", VStr "v2")] ],
        [RecoverFrom STRING (Some "x") RBRACKET "memory" 1 9]).
Proof. reflexivity. Qed.

(** ** The registry lookup of [get_lump] *)

Section Registry.
Context {W : World}.

(** A rule with a present constraint that is not satisfied does not pass
    the first loop. *)
Lemma passes_excludes (self : BSPFile.t) (dep : LumpTag.t) :
  BSPFile.passes self dep = Ok true ->
  (forall v, LumpTag.bsp_version dep = Some v -> (v <= BSPFile.version self)%Z)
  /\ (forall v, LumpTag.steam_id dep = Some v -> v = BSPFile.steam_app_id self)
  /\ (forall v, LumpTag.lump_version dep = Some v ->
        exists lump, index (BSPFile.lumps_info self) (LumpTag.lump_id dep) = Ok (Some lump)
                     /\ v = LumpInfo.version lump).
Proof.
  unfold BSPFile.passes. intros H. repeat split.
  - intros v Hv. rewrite Hv in H.
    destruct (v >? BSPFile.version self)%Z eqn:E; [discriminate|]. lia.
  - intros v Hv. rewrite Hv in H.
    destruct (LumpTag.bsp_version dep) as [b|];
      [destruct (b >? BSPFile.version self)%Z; [discriminate|]|];
      (destruct (v =? BSPFile.steam_app_id self)%Z eqn:E; [|discriminate]; lia).
  - intros v Hv. rewrite Hv in H.
    destruct (match LumpTag.bsp_version dep with
              | Some b => (b >? BSPFile.version self)%Z | None => false end);
      [discriminate|].
    destruct (match LumpTag.steam_id dep with
              | Some s => negb (s =? BSPFile.steam_app_id self)%Z | None => false end);
      [discriminate|].
    destruct (index (BSPFile.lumps_info self) (LumpTag.lump_id dep)) as [[lump|]| |];
      simpl in H; try discriminate.
    exists lump. split; [reflexivity|].
    injection H as H. lia.
Qed.

(** The rank of a rule that passed the first loop counts its variant and
    lump-version constraints only: the version bound, satisfied or absent,
    adds nothing, the test on it being the one of the first loop. *)
Lemma rank_of_passing_rule (self : BSPFile.t) (dep : LumpTag.t)
    (slot : option LumpInfo.t) :
  BSPFile.passes self dep = Ok true ->
  index (BSPFile.lumps_info self) (LumpTag.lump_id dep) = Ok slot ->
  BSPFile.rank self dep
  = Ok ((match LumpTag.steam_id dep with Some _ => 1 | None => 0 end)
        + (match LumpTag.lump_version dep with Some _ => 1 | None => 0 end)).
Proof.
  intros Hp Hslot.
  destruct (passes_excludes self dep Hp) as (Hb & Hs & Hl).
  unfold BSPFile.rank. rewrite Hslot. cbn [bind].
  assert (E1 : match LumpTag.bsp_version dep with
               | Some v => (v >? BSPFile.version self)%Z | None => false end = false).
  { destruct (LumpTag.bsp_version dep) as [v|]; [|reflexivity].
    specialize (Hb v eq_refl). lia. }
  rewrite E1.
  destruct (LumpTag.steam_id dep) as [s|].
  - rewrite (Hs s eq_refl), Z.eqb_refl.
    destruct (LumpTag.lump_version dep) as [v|]; [|reflexivity].
    destruct (Hl v eq_refl) as (lump & Hi & ->).
    rewrite Hslot in Hi. injection Hi as ->. cbn. now rewrite Z.eqb_refl.
  - destruct (LumpTag.lump_version dep) as [v|]; [|reflexivity].
    destruct (Hl v eq_refl) as (lump & Hi & ->).
    rewrite Hslot in Hi. injection Hi as ->. cbn. now rewrite Z.eqb_refl.
Qed.

(** For a rule that passed the first loop and has a version bound, the rank
    is one below the specified score. *)
Lemma rank_misses_bound (self : BSPFile.t) (dep : LumpTag.t)
    (slot : option LumpInfo.t) (v : Z) :
  BSPFile.passes self dep = Ok true ->
  index (BSPFile.lumps_info self) (LumpTag.lump_id dep) = Ok slot ->
  LumpTag.bsp_version dep = Some v ->
  exists r, BSPFile.rank self dep = Ok r /\ specified_score self dep = Ok (1 + r).
Proof.
  intros Hp Hslot Hv.
  rewrite (rank_of_passing_rule self dep slot Hp Hslot).
  eexists. split; [reflexivity|].
  destruct (passes_excludes self dep Hp) as (Hb & Hs & Hl).
  unfold specified_score. rewrite Hslot, Hv. cbn [bind].
  specialize (Hb v Hv). apply Z.leb_le in Hb. rewrite Hb.
  destruct (LumpTag.steam_id dep) as [s|].
  - rewrite (Hs s eq_refl), Z.eqb_refl.
    destruct (LumpTag.lump_version dep) as [lv|]; [|reflexivity].
    destruct (Hl lv eq_refl) as (lump & Hi & ->).
    rewrite Hslot in Hi. injection Hi as ->. cbn. now rewrite Z.eqb_refl.
  - destruct (LumpTag.lump_version dep) as [lv|]; [|reflexivity].
    destruct (Hl lv eq_refl) as (lump & Hi & ->).
    rewrite Hslot in Hi. injection Hi as ->. cbn. now rewrite Z.eqb_refl.
Qed.

(** The candidates the first loop collects are rules of the requested name
    that pass its three tests. *)
Lemma scan_tags_spec (self : BSPFile.t) (lump_name : string) (sub : Lump_class)
    (deps : list LumpTag.t) :
  forall matches matches',
  BSPFile.scan_tags self lump_name sub deps matches = Ok matches' ->
  forall m, In m matches' ->
  In m matches
  \/ (fst m = sub /\ In (snd m) deps /\ LumpTag.lump_name (snd m) = lump_name
      /\ BSPFile.passes self (snd m) = Ok true).
Proof.
  induction deps as [|dep deps IH]; intros matches matches' H m Hm.
  - injection H as <-. now left.
  - cbn [BSPFile.scan_tags] in H.
    destruct (String.eqb (LumpTag.lump_name dep) lump_name) eqn:En.
    + destruct (BSPFile.passes self dep) as [ok| |] eqn:Hp; cbn [bind] in H;
        try discriminate.
      destruct (IH _ _ H m Hm) as [Hin | (H1 & H2 & H3 & H4)].
      * destruct ok; [|now left].
        apply in_app_or in Hin as [Hin | [<- | []]]; [now left|].
        right. apply String.eqb_eq in En. cbn. repeat split; auto.
      * right. repeat split; auto. now right.
    + destruct (IH _ _ H m Hm) as [Hin | (H1 & H2 & H3 & H4)]; [now left|].
      right. repeat split; auto. now right.
Qed.

Lemma scan_subclasses_spec (self : BSPFile.t) (lump_name : string)
    (subs : list Lump_class) :
  forall matches matches',
  BSPFile.scan_subclasses self lump_name subs matches = Ok matches' ->
  forall m, In m matches' ->
  In m matches
  \/ (In (fst m) subs /\ In (snd m) (tags (fst m))
      /\ LumpTag.lump_name (snd m) = lump_name
      /\ BSPFile.passes self (snd m) = Ok true).
Proof.
  induction subs as [|sub subs IH]; intros matches matches' H m Hm.
  - injection H as <-. now left.
  - cbn [BSPFile.scan_subclasses] in H.
    destruct (BSPFile.scan_tags self lump_name sub (tags sub) matches)
      as [matches1| |] eqn:E; cbn [bind] in H; try discriminate.
    destruct (IH _ _ H m Hm) as [Hin | (H1 & H2 & H3 & H4)].
    + destruct (scan_tags_spec _ _ _ _ _ _ E m Hin) as [Hin' | (H1 & H2 & H3 & H4)];
        [now left|].
      right. subst sub. repeat split; auto. now left.
    + right. repeat split; auto. now right.
Qed.

Lemma dict_get_set_nat {V : Type} (d : dict nat V) (k k' : nat) (v : V) :
  dict_get Nat.eqb (dict_set Nat.eqb d k v) k'
  = if Nat.eqb k' k then Some v else dict_get Nat.eqb d k'.
Proof.
  induction d as [|[k0 v0] d IH]; cbn [dict_set dict_get].
  - reflexivity.
  - destruct (Nat.eqb k k0) eqn:E; cbn [dict_get].
    + apply Nat.eqb_eq in E. subst k0.
      destruct (Nat.eqb k' k); reflexivity.
    + rewrite IH. destruct (Nat.eqb k' k0) eqn:E0; [|reflexivity].
      apply Nat.eqb_eq in E0. subst k0.
      destruct (Nat.eqb k' k) eqn:E1; [|reflexivity].
      apply Nat.eqb_eq in E1. subst k'. rewrite Nat.eqb_refl in E. discriminate.
Qed.

Lemma dict_get_keys {V : Type} (d : dict nat V) (k : nat) :
  In k (dict_keys d) <-> exists v, dict_get Nat.eqb d k = Some v.
Proof.
  induction d as [|[k0 v0] d IH]; cbn [dict_keys map dict_get In fst].
  - split; [intros [] | intros [v H]; discriminate].
  - destruct (Nat.eqb k k0) eqn:E.
    + apply Nat.eqb_eq in E. subst k0. split; [eauto | auto].
    + apply Nat.eqb_neq in E. rewrite <- IH. unfold dict_keys.
      split; [intros [H|H]; [congruence | exact H] | auto].
Qed.

(** The second loop files each candidate under its rank; a later candidate
    of the same rank replaces an earlier one. *)
Lemma rank_matches_spec (self : BSPFile.t)
    (matches : list (Lump_class * LumpTag.t)) :
  forall best best',
  BSPFile.rank_matches self matches best = Ok best' ->
  (forall r m, dict_get Nat.eqb best' r = Some m ->
     dict_get Nat.eqb best r = Some m
     \/ (In m matches /\ BSPFile.rank self (snd m) = Ok r))
  /\ (forall r, In r (dict_keys best) -> In r (dict_keys best'))
  /\ (forall m, In m matches ->
        exists r, BSPFile.rank self (snd m) = Ok r /\ In r (dict_keys best')).
Proof.
  induction matches as [|[sub dep] matches IH]; intros best best' H.
  - injection H as <-. repeat split; auto. intros m [].
  - cbn [BSPFile.rank_matches] in H.
    destruct (BSPFile.rank self dep) as [r0| |] eqn:Hr; cbn [bind] in H;
      try discriminate.
    destruct (IH _ _ H) as (IH1 & IH2 & IH3). split; [|split].
    + intros r m Hget. destruct (IH1 r m Hget) as [Hg | [Hin Hrk]].
      * rewrite dict_get_set_nat in Hg.
        destruct (Nat.eqb r r0) eqn:E; [|now left].
        apply Nat.eqb_eq in E. subst r0. injection Hg as <-.
        right. split; [now left | exact Hr].
      * right. split; [now right | exact Hrk].
    + intros r Hin. apply IH2. apply dict_get_keys.
      apply dict_get_keys in Hin as [v Hv]. rewrite dict_get_set_nat.
      destruct (Nat.eqb r r0); eauto.
    + intros m [<- | Hin].
      * exists r0. split; [exact Hr|]. apply IH2. apply dict_get_keys.
        rewrite dict_get_set_nat, Nat.eqb_refl. eauto.
      * apply IH3. exact Hin.
Qed.

Lemma fold_max_spec (ks : list nat) :
  forall k, let best := fold_left Nat.max ks k in
  In best (k :: ks) /\ forall r, In r (k :: ks) -> r <= best.
Proof.
  induction ks as [|k0 ks IH]; intros k; cbn [fold_left].
  - split; [now left | intros r [E | []]; lia].
  - destruct (IH (Nat.max k k0)) as [Hin Hmax]. split.
    + destruct Hin as [Hin | Hin]; [|now right; right].
      rewrite <- Hin. destruct (Nat.max_spec k k0) as [[_ ->] | [_ ->]];
        [right; now left | now left].
    + intros r [E | [E | Hr]].
      * specialize (Hmax (Nat.max k k0) (or_introl eq_refl)). lia.
      * specialize (Hmax (Nat.max k k0) (or_introl eq_refl)). lia.
      * apply Hmax. now right.
Qed.

(** X1.  What [get_lump] selects: a rule of the requested name that passed the
    three tests, and whose rank no other such candidate exceeds. *)
Theorem best_match_spec (self : BSPFile.t) (lump_name : string)
    (sub : Lump_class) (dep : LumpTag.t) :
  BSPFile.best_match self lump_name = Ok (Some (sub, dep)) ->
  exists matches r,
    BSPFile.scan_subclasses self lump_name all_subclasses [] = Ok matches
    /\ In (sub, dep) matches
    /\ In sub all_subclasses /\ In dep (tags sub)
    /\ LumpTag.lump_name dep = lump_name
    /\ BSPFile.passes self dep = Ok true
    /\ BSPFile.rank self dep = Ok r
    /\ forall m, In m matches ->
         exists r', BSPFile.rank self (snd m) = Ok r' /\ r' <= r.
Proof.
  unfold BSPFile.best_match. intros H.
  destruct (BSPFile.scan_subclasses self lump_name all_subclasses [])
    as [matches| |] eqn:Hscan; cbn [bind] in H; try discriminate.
  destruct (BSPFile.rank_matches self matches []) as [best| |] eqn:Hrank;
    cbn [bind] in H; try discriminate.
  destruct (rank_matches_spec _ _ _ _ Hrank) as (H1 & _ & H3).
  destruct (dict_keys best) as [|k ks] eqn:Hk; [discriminate|].
  destruct (fold_max_spec ks k) as [Hin Hmax].
  destruct (dict_get Nat.eqb best (fold_left Nat.max ks k)) as [m|] eqn:Hget;
    [|discriminate].
  injection H as ->.
  destruct (H1 _ _ Hget) as [Hg | [Hm Hr]]; [discriminate|].
  destruct (scan_subclasses_spec _ _ _ _ _ Hscan _ Hm) as [[] | (S1 & S2 & S3 & S4)].
  exists matches, (fold_left Nat.max ks k). cbn [fst snd] in *.
  repeat split; auto.
  intros m' Hm'. destruct (H3 m' Hm') as (r' & Hr' & Hin').
  exists r'. split; [exact Hr'|]. apply Hmax. exact Hin'.
Qed.

(** No candidate, no decoder: [get_lump] then returns [None] and stores
    nothing. *)
Lemma get_lump_no_match
    (parse : Lump_class -> LumpInfo.t -> option IBuffer -> BSPFile.t
             -> result (Lump * BSPFile.t))
    (self : BSPFile.t) (lump_name : string) :
  dict_get lumps_key_eqb (BSPFile.lumps self) (KName lump_name) = None ->
  BSPFile.best_match self lump_name = Ok None ->
  BSPFile.get_lump parse lump_name self = Ok (None, self).
Proof.
  intros Hc Hb. unfold BSPFile.get_lump. now rewrite Hc, Hb.
Qed.

End Registry.

(** C1, where the code departs from it.  A container of version 21 and the
    decoders [A], bound to containers of version 20 or later, and [B],
    unconstrained, registered in this order for the lump [X].  The rule of
    [A] passes the first loop, its bound is present and satisfied and its
    specified score is 1; the code ranks it 0, the same as the rule of [B],
    and selects [B]. *)
Theorem satisfied_version_bound_scores_nothing :
  let bsp := Sample.container Sample.registry_AB 0 false in
  BSPFile.passes bsp Sample.tagA = Ok true
  /\ specified_score bsp Sample.tagA = Ok 1
  /\ specified_score bsp Sample.tagB = Ok 0
  /\ BSPFile.rank bsp Sample.tagA = Ok 0
  /\ BSPFile.rank bsp Sample.tagB = Ok 0
  /\ BSPFile.best_match bsp "X" = Ok (Some ("B", Sample.tagB)).
Proof. repeat split. Qed.

(** The rest of C1 holds on the code: a rule that asks for the lump version
    the lump has outranks an unconstrained rule, in whichever order the two
    are registered; when the lump has another version the rule is no
    candidate and the unconstrained one is selected. *)
Example lump_version_rule_wins :
  BSPFile.best_match (Sample.container Sample.registry_CB 3 false) "X"
  = Ok (Some ("C", Sample.tagC))
  /\ BSPFile.best_match (Sample.container Sample.registry_BC 3 false) "X"
     = Ok (Some ("C", Sample.tagC))
  /\ BSPFile.best_match (Sample.container Sample.registry_CB 2 false) "X"
     = Ok (Some ("B", Sample.tagB)).
Proof. repeat split. Qed.

(** ** Opening a container *)

Section Opening.
Context {W : World}.

Lemma assign_length {A : Type} (l l' : list A) (i : nat) (a : A) :
  assign l i a = Ok l' -> List.length l' = List.length l.
Proof.
  unfold assign. destruct (i <? List.length l)%nat; [|discriminate].
  intros H. injection H as <-. clear.
  revert i. induction l as [|x l IH]; intros [|i]; simpl; auto.
Qed.

(** Descriptors are stored at the positions [lump_id], [lump_id + 1], ...,
    one per round: a list that ends before the last of these positions makes
    the loop raise, in the round that reaches its end if not before. *)
Lemma read_descriptors_short (rounds : nat) :
  forall lump_id is_l4d2 buffer (lumps_info : list (option LumpInfo.t)) r,
  (lump_id <= List.length lumps_info < lump_id + rounds)%nat ->
  BSPFile.read_descriptors rounds lump_id is_l4d2 buffer lumps_info <> Ok r.
Proof.
  induction rounds as [|rounds IH]; intros lump_id is_l4d2 buffer lumps_info r Hlen;
    [lia|].
  cbn [BSPFile.read_descriptors].
  destruct (LumpInfo_from_buffer buffer is_l4d2) as [[lump buffer']| |];
    cbn [bind]; try discriminate.
  destruct (assign lumps_info lump_id (Some (LumpInfo.set_id lump lump_id)))
    as [lumps_info'| |] eqn:E; cbn [bind]; try discriminate.
  apply IH. pose proof (assign_length _ _ _ _ E) as Hl.
  unfold assign in E.
  destruct (lump_id <? List.length lumps_info)%nat eqn:Hlt; [|discriminate].
  apply Nat.ltb_lt in Hlt. lia.
Qed.

(** [RespawnBSPFile.from_filename] returns no container, whatever the file
    holds: the list of descriptors is allocated with [last_lump] slots and
    the loop stores into slot [last_lump]. *)
Theorem respawn_from_filename_never_returns (filepath : string) (bsp : BSPFile.t) :
  RespawnBSPFile.from_filename filepath <> Ok bsp.
Proof.
  unfold RespawnBSPFile.from_filename.
  destruct (FileBuffer filepath) as [b0| |]; cbn [bind]; try discriminate.
  destruct (BSPFile.init filepath b0) as [self| |]; cbn [bind]; try discriminate.
  destruct (read_fourcc b0) as [[magic b1]| |]; cbn [bind]; try discriminate.
  destruct (assert (magic =? "rBSP")) as [[]| |]; cbn [bind]; try discriminate.
  destruct (read_uint32 b1) as [[v b2]| |]; cbn [bind]; try discriminate.
  destruct (read_uint32 b2) as [[r b3]| |]; cbn [bind]; try discriminate.
  destruct (read_uint32 b3) as [[last_lump b4]| |]; cbn [bind]; try discriminate.
  destruct (BSPFile.read_descriptors _ _ _ _ _) as [[infos b5]| |] eqn:E;
    cbn [bind]; try discriminate.
  exfalso. revert E. apply read_descriptors_short.
  rewrite repeat_length. lia.
Qed.

(** A file that exists, is at least eight bytes long and starts with neither
    magic is not refused: [open_bsp] returns [None]. *)
Lemma open_bsp_unrecognized_magic (filepath contents : string) :
  file_bytes filepath = Some contents ->
  (8 <= String.length contents)%nat ->
  substring 0 4 contents <> "VBSP" -> substring 0 4 contents <> "rBSP" ->
  open_bsp filepath = Ok None.
Proof.
  intros Hf Hlen Hv Hr. unfold open_bsp, path_exists, open_rb. rewrite Hf. cbn [assert bind].
  assert (H8 : String.length (substring 0 8 contents) = 8%nat).
  { clear - Hlen.
    do 8 (destruct contents as [|? contents]; [simpl in Hlen; lia|]).
    cbn. destruct contents; reflexivity. }
  assert (H4 : substring 0 4 (substring 0 8 contents) = substring 0 4 contents).
  { clear - Hlen.
    do 4 (destruct contents as [|? contents]; [simpl in Hlen; lia|]).
    cbn. destruct (substring 0 4 contents); destruct contents; reflexivity. }
  unfold unpack_4sI. rewrite H8. cbn [Nat.eqb bind]. rewrite H4.
  apply String.eqb_neq in Hv, Hr. rewrite Hv, Hr. reflexivity.
Qed.

(** A file that does not exist is refused by the assertion. *)
Lemma open_bsp_missing_file (filepath : string) :
  file_bytes filepath = None -> open_bsp filepath = Raise AssertionError.
Proof.
  intros Hf. unfold open_bsp, path_exists. rewrite Hf. reflexivity.
Qed.

End Opening.

(** C2, where the code departs from it.  A respawn container with last lump
    index 0 and its one descriptor record: the record is read and cannot be
    stored with identifier 0, the list having no slot, and
    [from_filename], and with it [open_bsp], ends in [IndexError]. *)
Theorem respawn_from_filename_raises_IndexError :
  @RespawnBSPFile.from_filename (Sample.world Sample.files [] 0) "maps/r.bsp"
  = Raise IndexError
  /\ @open_bsp (Sample.world Sample.files [] 0) "maps/r.bsp" = Raise IndexError.
Proof. split; reflexivity. Qed.

(** C4, where the code departs from it.  A file of eight bytes whose magic
    is [XBSP]: [open_bsp] raises nothing and returns [None].  (A missing file
    is refused, as the claim says.) *)
Theorem open_bsp_returns_None_on_unrecognized_magic :
  @open_bsp (Sample.world Sample.files [] 0) "maps/x.bsp" = Ok None
  /\ @open_bsp (Sample.world Sample.files [] 0) "maps/none.bsp" = Raise AssertionError.
Proof. split; reflexivity. Qed.

(** ** Memoization in [get_lump] *)

Lemma lumps_key_eqb_refl (k : lumps_key) : lumps_key_eqb k k = true.
Proof. destruct k; simpl; [apply String.eqb_refl | apply Nat.eqb_refl]. Qed.

Lemma dict_get_set {K V : Type} (eqbK : K -> K -> bool) :
  (forall k, eqbK k k = true) ->
  forall (d : dict K V) (k : K) (v : V),
  dict_get eqbK (dict_set eqbK d k v) k = Some v.
Proof.
  intros Hrefl d k v. induction d as [|[k' v'] d IH]; simpl.
  - now rewrite Hrefl.
  - destruct (eqbK k k') eqn:E; simpl; rewrite E; [reflexivity | exact IH].
Qed.

(** C6.  When a call of [get_lump] has returned, a second call for the same
    name on the same container returns the same object and leaves the
    container as it is, whatever the decoders would do if they were run:
    none is run again. *)
Theorem get_lump_is_memoized {W : World}
    (parse parse' : Lump_class -> LumpInfo.t -> option IBuffer -> BSPFile.t
                    -> result (Lump * BSPFile.t))
    (lump_name : string) (self self1 : BSPFile.t) (lump : option Lump) :
  BSPFile.get_lump parse lump_name self = Ok (lump, self1) ->
  BSPFile.get_lump parse' lump_name self1 = Ok (lump, self1).
Proof.
  unfold BSPFile.get_lump.
  destruct (dict_get lumps_key_eqb (BSPFile.lumps self) (KName lump_name))
    as [cached|] eqn:Hc.
  - intros H. injection H as <- <-. now rewrite Hc.
  - destruct (BSPFile.best_match self lump_name) as [[[sub dep]|]| |] eqn:Hb;
      cbn [bind]; try discriminate.
    + destruct (BSPFile.parse_lump parse sub (LumpTag.lump_id dep)
                  (LumpTag.lump_name dep) self) as [[parsed self']| |];
        cbn [bind]; try discriminate.
      intros H. injection H as <- <-. cbn [BSPFile.lumps BSPFile.set_lumps].
      now rewrite (dict_get_set lumps_key_eqb lumps_key_eqb_refl).
    + intros H. injection H as <- <-. now rewrite Hc, Hb.
Qed.

Lemma get_lump_is_memoized_witness :
  let bsp := Sample.container Sample.registry_CB 3 false in
  exists bsp1,
    @BSPFile.get_lump (Sample.world [] Sample.registry_CB 0)
      (Sample.parse [] Sample.registry_CB 0) "X" bsp
    = Ok (Some ("C", "abcd"), bsp1)
    /\ @BSPFile.get_lump (Sample.world [] Sample.registry_CB 0)
         (fun _ _ _ _ => Raise ExternalError) "X" bsp1
       = Ok (Some ("C", "abcd"), bsp1).
Proof.
  eexists. split; [reflexivity|].
  apply (@get_lump_is_memoized (Sample.world [] Sample.registry_CB 0)
           (Sample.parse [] Sample.registry_CB 0) (fun _ _ _ _ => Raise ExternalError)
           "X" (Sample.container Sample.registry_CB 3 false)).
  reflexivity.
Defined.

(** ** The buffer of a compressed lump *)

(** C8.  For a lump marked compressed that has no override file,
    [_get_lump_buffer] puts the decompressed slice in the place of the
    container's buffer and, the size assertion passing, returns [None]; and
    [parse_lump] hands that [None] to the decoder. *)
Theorem compressed_lump_buffer_is_None {W : World}
    (parse : Lump_class -> LumpInfo.t -> option IBuffer -> BSPFile.t
             -> result (Lump * BSPFile.t))
    (lump_class : Lump_class) (lump_id : nat) (lump_name : string)
    (lump_info : LumpInfo.t) (self : BSPFile.t) (sl b : IBuffer) :
  LumpInfo.compressed lump_info = true ->
  path_exists (BSPFile.lump_path self lump_id) = false ->
  slice (BSPFile.buffer self) (LumpInfo.offset lump_info) (LumpInfo.size lump_info) = Ok sl ->
  decompress_lump sl = Ok b ->
  buffer_size b = LumpInfo.decompressed_size lump_info ->
  index (BSPFile.lumps_info self) lump_id = Ok (Some lump_info) ->
  LumpInfo.size lump_info <> 0%Z ->
  BSPFile._get_lump_buffer lump_id lump_info self = Ok (None, BSPFile.set_buffer self b)
  /\ BSPFile.parse_lump parse lump_class lump_id lump_name self
     = ('(parsed_lump, self') <- parse lump_class lump_info None (BSPFile.set_buffer self b) ;;
        Ok (Some parsed_lump,
            BSPFile.set_lumps self'
              (dict_set lumps_key_eqb (BSPFile.lumps self') (KId lump_id)
                        (Some parsed_lump)))).
Proof.
  intros Hc Hp Hs Hd Hsz Hi Hnz.
  assert (E : BSPFile._get_lump_buffer lump_id lump_info self
              = Ok (None, BSPFile.set_buffer self b)).
  { unfold BSPFile._get_lump_buffer. rewrite Hp, Hc. cbn [negb].
    rewrite Hs. cbn [bind]. rewrite Hd. cbn [bind BSPFile.buffer BSPFile.set_buffer].
    rewrite Hsz, Z.eqb_refl. reflexivity. }
  split; [exact E|].
  unfold BSPFile.parse_lump. rewrite Hi. cbn [bind attr].
  apply Z.eqb_neq in Hnz. rewrite Hnz. cbn [negb]. rewrite E. reflexivity.
Qed.

Lemma compressed_lump_buffer_is_None_witness :
  let bsp := Sample.container Sample.registry_CB 3 true in
  BSPFile._get_lump_buffer 0 (LumpInfo.mk 0 0 4 3 true 4) bsp
  = Ok (None, BSPFile.set_buffer bsp (Sample.mkBuf "abcd" 0))
  /\ @BSPFile.parse_lump (Sample.world [] Sample.registry_CB 0)
       (Sample.parse [] Sample.registry_CB 0) "C" 0 "X" bsp
     = Ok (Some ("C", "None"),
           BSPFile.set_lumps (BSPFile.set_buffer bsp (Sample.mkBuf "abcd" 0))
             [(KId 0, Some ("C", "None"))]).
Proof.
  apply (@compressed_lump_buffer_is_None (Sample.world [] Sample.registry_CB 0)
           (Sample.parse [] Sample.registry_CB 0) "C" 0 "X"
           (LumpInfo.mk 0 0 4 3 true 4)
           (Sample.container Sample.registry_CB 3 true)
           (Sample.mkBuf "abcd" 0) (Sample.mkBuf "abcd" 0));
    try reflexivity.
  discriminate.
Defined.

(** ** The entity lump *)

(** C3, where the code departs from it.  [EntityLump.parse] builds its
    parser with the keyword [array_of_blocks], which
    [ValveKeyValueParser.__init__] does not have: whatever bytes the lump
    holds, the call raises [TypeError] and no entity is produced. *)
Theorem entity_lump_parse_raises_TypeError {W : World}
    (read_text : string -> result string) (self : EntityLump.t)
    (buffer buffer' : IBuffer) (data : string) (bsp : BSPFile.t) :
  read_all buffer = Ok (data, buffer') ->
  EntityLump.parse read_text self (Some buffer) bsp = Raise TypeError.
Proof.
  intros H. unfold EntityLump.parse. rewrite H. reflexivity.
Qed.

Lemma entity_lump_parse_raises_TypeError_witness :
  @read_all (Sample.world [] [] 0) (Sample.mkBuf Sample.entity_bytes 0)
  = Ok (Sample.entity_bytes, Sample.mkBuf Sample.entity_bytes 30)
  /\ @EntityLump.parse (Sample.world [] [] 0) (fun _ => Raise FileNotFoundError)
    (EntityLump.init (LumpInfo.mk 0 0 30 0 false 0))
    (Some (Sample.mkBuf Sample.entity_bytes 0))
    (@BSPFile.mk (Sample.world [] [] 0) "maps/m.bsp"
       (Sample.mkBuf Sample.entity_bytes 0) 20 [] [] 0 0)
  = Raise TypeError.
Proof.
  split; [reflexivity|].
  apply (@entity_lump_parse_raises_TypeError (Sample.world [] [] 0) _ _
           (Sample.mkBuf Sample.entity_bytes 0)
           (Sample.mkBuf Sample.entity_bytes 30) Sample.entity_bytes).
  reflexivity.
Defined.

(** * Further properties of the lexer *)

(** With enough fuel the result of a resumption does not depend on the
    fuel. *)
Lemma lex_fuel (f1 : nat) :
  forall f2 lx, len lx < f1 -> len lx < f2 -> L.lex f1 lx = L.lex f2 lx.
Proof.
  induction f1 as [|f1 IH]; intros f2 lx H1 H2; [lia|].
  destruct f2 as [|f2]; [lia|].
  rewrite !lex_S.
  destruct (L.lexer_bool lx) eqn:Hb; cbn [negb]; [|reflexivity].
  pose proof (lexer_bool_len _ Hb) as Hpos.
  pose proof (advance_lt lx Hpos) as Hadv.
  destruct (sym_is (L.symbol lx) nl) eqn:Hnl; [reflexivity|].
  destruct (isspace (L.symbol lx)) eqn:Hsp; [apply IH; lia|].
  destruct (sym_is (L.symbol lx) "/" && sym_is (L.next_symbol lx) "/") eqn:Hcm.
  { pose proof (advance_le (snd (L.advance lx))) as Hle2.
    destruct (read_comment_total (S (String.length (L.leftover lx)))
                (snd (L.advance (snd (L.advance lx))))) as (lx1 & E & Hle1).
    { unfold len in *. lia. }
    rewrite E. cbn [bind]. apply IH; lia. }
  destruct (sym_is (L.symbol lx) "{"); [reflexivity|].
  destruct (sym_is (L.symbol lx) "}"); [reflexivity|].
  destruct (L._is_valid_symbol (L.symbol lx)) eqn:Hv.
  { destruct (not_terminator _ Hnl Hsp) as [Ht | Hnone].
    2:{ rewrite Hnone in Hv. discriminate. }
    destruct (read_simple_string_lt _ lx Hv Ht) as (s & lx1 & -> & Hlt).
    cbn [bind]. destruct (is_empty s); cbn [negb]; [apply IH; lia | reflexivity]. }
  destruct (str_in (L.symbol lx) L.quotes).
  { destruct (str_in (L.next_symbol lx) L.quotes); [reflexivity|].
    destruct (read_quoted_string_lt lx Hpos) as (s & lx1 & -> & Hlt).
    cbn [bind]. destruct (is_empty s); cbn [negb]; [apply IH; lia | reflexivity]. }
  destruct (sym_is (L.symbol lx) "["); [reflexivity|].
  destruct (sym_is (L.symbol lx) "]"); [reflexivity|].
  destruct (isprintable (L.symbol lx)); [|reflexivity].
  rewrite (advance_pair lx). apply IH; rewrite len_warn; lia.
Qed.

(** ** The warnings of the lexer *)

Lemma advance_warned (lx : L.t) : L.warned (snd (L.advance lx)) = L.warned lx.
Proof.
  unfold L.advance. destruct (L.symbol lx); [|reflexivity].
  destruct (Ascii.eqb a nl || Ascii.eqb a cr); reflexivity.
Qed.

Lemma read_simple_loop_warned (terminators : string) (fuel : nat) :
  forall lx acc s lx',
  L.read_simple_loop fuel terminators lx acc = Ok (s, lx') ->
  L.warned lx' = L.warned lx.
Proof.
  induction fuel as [|fuel IH]; intros lx acc s lx' H; [discriminate|].
  cbn [L.read_simple_loop] in H.
  destruct (negb (L._is_valid_symbol (L.symbol lx)) || str_in (L.symbol lx) terminators).
  - injection H as _ <-. reflexivity.
  - rewrite (advance_pair lx) in H. apply IH in H. now rewrite H, advance_warned.
Qed.

Lemma read_quoted_loop_warned (terminator : option ascii) (fuel : nat) :
  forall lx acc s lx',
  L.read_quoted_loop fuel terminator lx acc = Ok (s, lx') ->
  L.warned lx' = L.warned lx.
Proof.
  induction fuel as [|fuel IH]; intros lx acc s lx' H; [discriminate|].
  cbn [L.read_quoted_loop] in H.
  set (lx1 := if sym_is (L.symbol lx) backslash && str_in (L.next_symbol lx) L.escapable
              then snd (L.advance lx) else lx) in H.
  assert (H1 : L.warned lx1 = L.warned lx).
  { subst lx1. destruct (sym_is (L.symbol lx) backslash && str_in (L.next_symbol lx) L.escapable);
      [apply advance_warned | reflexivity]. }
  destruct (negb (L._is_valid_quoted_symbol (L.symbol lx))
            || str_in (L.symbol lx) (str_of terminator ++ String nl EmptyString)).
  - injection H as _ <-. exact H1.
  - rewrite (advance_pair lx1) in H. apply IH in H.
    now rewrite H, advance_warned.
Qed.

Lemma skip_blank_lines_warned (fuel : nat) :
  forall lx lx', L.skip_blank_lines fuel lx = Ok lx' -> L.warned lx' = L.warned lx.
Proof.
  induction fuel as [|fuel IH]; intros lx lx' H; [discriminate|].
  cbn [L.skip_blank_lines] in H. destruct (sym_is (L.next_symbol lx) nl).
  - apply IH in H. now rewrite H, advance_warned.
  - now injection H as <-.
Qed.

Lemma read_comment_warned (fuel : nat) :
  forall lx lx', L.read_comment fuel lx = Ok lx' -> L.warned lx' = L.warned lx.
Proof.
  induction fuel as [|fuel IH]; intros lx lx' H; [discriminate|].
  cbn [L.read_comment] in H.
  destruct (negb (sym_is (L.symbol lx) nl) && L.lexer_bool lx).
  - apply IH in H. now rewrite H, advance_warned.
  - now injection H as <-.
Qed.

(** A printable character is a valid symbol, a brace, a bracket or a quote:
    the branch of [lex] for other printable characters is never taken. *)
Lemma printable_is_handled (c : ascii) :
  isprintable_char c = true ->
  L._is_valid_symbol (Some c) = true
  \/ Ascii.eqb c "{" = true \/ Ascii.eqb c "}" = true
  \/ Ascii.eqb c "[" = true \/ Ascii.eqb c "]" = true
  \/ mem_char c L.quotes = true.
Proof.
  destruct c as [[] [] [] [] [] [] [] []]; vm_compute; intros H;
    try discriminate H; tauto.
Qed.

(** X2.  Whatever the buffer, the only diagnostic the lexer emits is the one
    of a quoted string without its terminator: the warning for an unknown
    printable symbol is never emitted. *)
Theorem lex_warns_only_unterminated (fuel : nat) :
  forall lx tok lx' fin,
  L.lex fuel lx = Ok (tok, lx', fin) ->
  exists ws, L.warned lx' = (L.warned lx ++ ws)%list
             /\ forallb is_unterminated ws = true.
Proof.
  assert (Hsame : forall (lx lx' : L.t), L.warned lx' = L.warned lx ->
            exists ws, L.warned lx' = (L.warned lx ++ ws)%list
                       /\ forallb is_unterminated ws = true).
  { intros lx lx' E. exists []. rewrite app_nil_r. auto. }
  assert (Htrans : forall (lx lx1 lx' : L.t) ws1,
            L.warned lx1 = (L.warned lx ++ ws1)%list ->
            forallb is_unterminated ws1 = true ->
            (exists ws, L.warned lx' = (L.warned lx1 ++ ws)%list
                        /\ forallb is_unterminated ws = true) ->
            exists ws, L.warned lx' = (L.warned lx ++ ws)%list
                       /\ forallb is_unterminated ws = true).
  { intros lx lx1 lx' ws1 E1 F1 (ws & E & F). exists (ws1 ++ ws)%list.
    rewrite E, E1, app_assoc, forallb_app, F1, F. auto. }
  induction fuel as [|fuel IH]; intros lx tok lx' fin H; [discriminate|].
  rewrite lex_S in H.
  destruct (L.lexer_bool lx) eqn:Hb; cbn [negb] in H.
  2:{ injection H as _ <- _. now apply Hsame. }
  destruct (sym_is (L.symbol lx) nl) eqn:Hnl.
  { destruct (if sym_is (L.next_symbol lx) nl
              then L.skip_blank_lines (S (String.length (L.leftover lx))) lx
              else Ok lx) as [lx1| |] eqn:E1; cbn [bind] in H; try discriminate.
    assert (W1 : L.warned lx1 = L.warned lx).
    { destruct (sym_is (L.next_symbol lx) nl);
        [now apply skip_blank_lines_warned in E1 | now injection E1 as <-]. }
    rewrite (advance_pair lx1) in H. injection H as _ <- _.
    apply Hsame. now rewrite advance_warned. }
  destruct (isspace (L.symbol lx)).
  { apply IH in H. eapply Htrans; [| |exact H].
    - rewrite advance_warned. symmetry. apply app_nil_r.
    - reflexivity. }
  destruct (sym_is (L.symbol lx) "/" && sym_is (L.next_symbol lx) "/").
  { destruct (L.read_comment _ _) as [lx1| |] eqn:E1; cbn [bind] in H; try discriminate.
    apply read_comment_warned in E1. rewrite !advance_warned in E1.
    apply IH in H. eapply Htrans; [| |exact H].
    - rewrite E1. symmetry. apply app_nil_r.
    - reflexivity. }
  destruct (sym_is (L.symbol lx) "{") eqn:Hlb.
  { rewrite (advance_pair lx) in H. injection H as _ <- _.
    apply Hsame. apply advance_warned. }
  destruct (sym_is (L.symbol lx) "}") eqn:Hrb.
  { rewrite (advance_pair lx) in H. injection H as _ <- _.
    apply Hsame. apply advance_warned. }
  destruct (L._is_valid_symbol (L.symbol lx)) eqn:Hv.
  { unfold L.read_simple_string in H.
    destruct (L.read_simple_loop _ _ lx EmptyString) as [[s lx1]| |] eqn:E1;
      cbn [bind] in H; try discriminate.
    apply read_simple_loop_warned in E1.
    destruct (is_empty (rstrip (strip s))); cbn [negb] in H.
    - apply IH in H. eapply Htrans; [| |exact H].
      + rewrite E1. symmetry. apply app_nil_r.
      + reflexivity.
    - injection H as _ <- _. now apply Hsame. }
  destruct (str_in (L.symbol lx) L.quotes) eqn:Hq.
  { destruct (str_in (L.next_symbol lx) L.quotes).
    - injection H as _ <- _. apply Hsame. now rewrite !advance_warned.
    - unfold L.read_quoted_string in H. rewrite (advance_pair lx) in H.
      destruct (L.read_quoted_loop _ _ _ EmptyString) as [[s lx1]| |] eqn:E1;
        cbn [bind] in H; try discriminate.
      apply read_quoted_loop_warned in E1. rewrite advance_warned in E1.
      match type of H with context [if negb (is_empty ?s0) then Ok (_, ?l, _) else _] =>
        assert (W2 : exists ws2, L.warned l = (L.warned lx ++ ws2)%list
                                 /\ forallb is_unterminated ws2 = true) end.
      { destruct (L.option_ascii_eqb (L.symbol lx1) (fst (L.advance lx))).
        - exists []. rewrite advance_warned, E1, app_nil_r. auto.
        - eexists [_]. cbn [L.warn L.warned]. rewrite E1. split; reflexivity. }
      destruct W2 as (ws2 & W2 & F2).
      destruct (is_empty (rstrip (strip s))); cbn [negb] in H.
      + apply IH in H. eapply Htrans; [exact W2 | exact F2 | exact H].
      + injection H as _ <- _. exists ws2. auto. }
  destruct (sym_is (L.symbol lx) "[") eqn:Hlk.
  { rewrite (advance_pair lx) in H. injection H as _ <- _.
    apply Hsame. apply advance_warned. }
  destruct (sym_is (L.symbol lx) "]") eqn:Hrk.
  { rewrite (advance_pair lx) in H. injection H as _ <- _.
    apply Hsame. apply advance_warned. }
  destruct (isprintable (L.symbol lx)) eqn:Hp; [|discriminate].
  exfalso. clear H IH.
  destruct (L.symbol lx) as [c|] eqn:Hs.
  2:{ apply lexer_bool_len in Hb. apply symbol_none_len in Hs. lia. }
  cbn [isprintable sym_is str_in] in *.
  destruct (printable_is_handled c Hp) as [E|[E|[E|[E|[E|E]]]]]; congruence.
Qed.

(** ** Characters the lexer refuses *)

Lemma fatal_char_facts (c : ascii) :
  isprintable_char c = false -> isspace_char c = false ->
  Ascii.eqb c nl = false /\ Ascii.eqb c "/" = false
  /\ Ascii.eqb c "{" = false /\ Ascii.eqb c "}" = false
  /\ L._is_valid_symbol (Some c) = false /\ mem_char c L.quotes = false
  /\ Ascii.eqb c "[" = false /\ Ascii.eqb c "]" = false.
Proof.
  destruct c as [[] [] [] [] [] [] [] []]; vm_compute; intros H1 H2;
    try discriminate H1; try discriminate H2; repeat split.
Qed.

(** X3.  A character that is neither printable nor white space, met where a
    token may start, is fatal: the lexer raises its exception, whatever
    follows. *)
Theorem lex_fatal_symbol (c : ascii) (rest bn : string) (ln col : nat)
    (wd : list warning) (fuel : nat) :
  isprintable_char c = false -> isspace_char c = false ->
  L.lex (S fuel) (L.mkLexer (String c rest) bn ln col wd) = Raise FGDLexerException.
Proof.
  intros H1 H2.
  destruct (fatal_char_facts c H1 H2) as (E1 & E2 & E3 & E4 & E5 & E6 & E7 & E8).
  rewrite lex_S. unfold L.lexer_bool, L.symbol, L.next_symbol.
  cbn [L.leftover is_empty negb sym_is isspace isprintable str_in].
  rewrite E1, H2, E2. cbn [andb]. rewrite E3, E4, E5, E6, E7, E8, H1. reflexivity.
Qed.

Lemma lex_fatal_symbol_witness :
  isprintable_char zero = false /\ isspace_char zero = false
  /\ L.lex 1 (L.mkLexer (String zero "key") "memory" 1 1 []) = Raise FGDLexerException.
Proof.
  split; [reflexivity | split; [reflexivity|]].
  exact (lex_fatal_symbol zero "key" "memory" 1 1 [] 0 eq_refl eq_refl).
Defined.

(** ** Blank lines, comments and blanks *)

Lemma length_newlines (n : nat) : String.length (newlines n) = n.
Proof. induction n as [|n IH]; simpl; [reflexivity | now rewrite IH]. Qed.

Lemma skip_blank_lines_run (n : nat) :
  forall rest bn ln col wd fuel,
  String.prefix (String nl EmptyString) rest = false -> n < fuel ->
  L.skip_blank_lines fuel (L.mkLexer (String nl (newlines n ++ rest)) bn ln col wd)
  = Ok (L.mkLexer (String nl rest) bn (ln + n) (if n =? 0 then col else 1)%nat wd).
Proof.
  induction n as [|n IH]; intros rest bn ln col wd fuel Hrest Hf;
    (destruct fuel as [|fuel]; [lia|]); cbn [L.skip_blank_lines newlines append].
  - unfold L.next_symbol. cbn [L.leftover].
    assert (E : sym_is match rest with String c _ => Some c | EmptyString => None end nl = false).
    { destruct rest as [|d rest]; [reflexivity|]. cbn [String.prefix] in Hrest. cbn [sym_is].
      destruct (ascii_dec nl d) as [<-|Hd]; [destruct rest; discriminate|].
      apply Ascii.eqb_neq. congruence. }
    rewrite E, Nat.add_0_r. reflexivity.
  - unfold L.next_symbol, L.advance, L.symbol. cbn [L.leftover sym_is].
    change (Ascii.eqb nl nl) with true. cbn iota.
    change (Ascii.eqb nl cr) with false.
    cbn [andb orb L.drop1 L.buffer_name L._line L._column L.warned snd].
    rewrite IH; [|exact Hrest|lia].
    replace (ln + 1 + n) with (ln + S n) by lia.
    destruct n; reflexivity.
Qed.

(** X4.  A run of newline characters, however long, is lexed as one newline
    token; the line counter advances by the length of the run. *)
Theorem lex_newline_run (n : nat) (rest bn : string) (ln col : nat)
    (wd : list warning) (fuel : nat) :
  String.prefix (String nl EmptyString) rest = false ->
  L.lex (S fuel) (L.mkLexer (String nl (newlines n ++ rest)) bn ln col wd)
  = Ok ((NEWLINE, Some (String nl EmptyString)),
        L.mkLexer rest bn (ln + n + 1) 1 wd, false).
Proof.
  intros Hrest. rewrite lex_S.
  change (negb (L.lexer_bool (L.mkLexer (String nl (newlines n ++ rest)) bn ln col wd)))
    with false. cbn iota.
  change (sym_is (L.symbol (L.mkLexer (String nl (newlines n ++ rest)) bn ln col wd)) nl)
    with true. cbn iota.
  destruct n as [|n].
  - cbn [newlines append]. unfold L.next_symbol. cbn [L.leftover].
    assert (E : sym_is match rest with String c _ => Some c | EmptyString => None end nl = false).
    { destruct rest as [|d rest]; [reflexivity|]. cbn [String.prefix] in Hrest. cbn [sym_is].
      destruct (ascii_dec nl d) as [<-|Hd]; [destruct rest; discriminate|].
      apply Ascii.eqb_neq. congruence. }
    rewrite E. cbn [bind]. rewrite Nat.add_0_r. reflexivity.
  - change (sym_is (L.next_symbol (L.mkLexer (String nl (newlines (S n) ++ rest)) bn ln col wd)) nl)
      with true. cbn iota.
    rewrite skip_blank_lines_run; [|exact Hrest|].
    2:{ cbn [L.leftover String.length]. rewrite length_append, length_newlines. lia. }
    cbn [bind]. reflexivity.
Qed.

Lemma lex_newline_run_witness :
  String.prefix (String nl EmptyString) "key" = false
  /\ L.lex 1 (L.mkLexer (String nl (newlines 3 ++ "key")) "memory" 1 7 [])
     = Ok ((NEWLINE, Some (String nl EmptyString)), L.mkLexer "key" "memory" 5 1 [], false).
Proof.
  split; [reflexivity|].
  exact (lex_newline_run 3 "key" "memory" 1 7 [] 0 eq_refl).
Defined.

Lemma read_comment_text (c : string) :
  forall rest bn ln col wd fuel,
  all_chars in_line c = true -> line_end rest = true -> String.length c < fuel ->
  L.read_comment fuel (L.mkLexer (c ++ rest) bn ln col wd)
  = Ok (L.mkLexer rest bn ln (col + String.length c) wd).
Proof.
  induction c as [|x c IH]; intros rest bn ln col wd fuel Hc Hr Hf;
    (destruct fuel as [|fuel]; [cbn in Hf; lia|]); cbn [L.read_comment append].
  - unfold L.symbol, L.lexer_bool. cbn [L.leftover].
    destruct rest as [|d rest]; cbn [line_end] in Hr.
    + cbn. now rewrite Nat.add_0_r.
    + cbn [sym_is]. rewrite Hr. cbn. now rewrite Nat.add_0_r.
  - cbn [all_chars] in Hc. apply andb_true_iff in Hc as [Hx Hc].
    unfold in_line in Hx. apply andb_true_iff in Hx as [Hnl Hcr].
    apply negb_true_iff in Hnl, Hcr.
    unfold L.advance. unfold L.symbol, L.lexer_bool, L.next_symbol.
    cbn [L.leftover sym_is is_empty negb].
    rewrite Hnl, Hcr. cbn [negb andb orb snd L.drop1 L.buffer_name L._line L._column L.warned].
    rewrite IH; [|exact Hc|exact Hr|cbn in Hf; lia].
    cbn [String.length]. replace (col + 1 + String.length c) with (col + S (String.length c)) by lia.
    reflexivity.
Qed.

(** X5.  A line comment yields no token: the token that follows two slashes
    and the text up to the end of the line is the one lexed from the end of
    that line. *)
Theorem lex_comment (c rest bn : string) (ln col : nat) (wd : list warning) :
  all_chars in_line c = true -> line_end rest = true ->
  L.lex (S (String.length ("//" ++ c ++ rest)))
        (L.mkLexer ("//" ++ c ++ rest) bn ln col wd)
  = L.lex (S (String.length rest))
          (L.mkLexer rest bn ln (col + 1 + 1 + String.length c) wd).
Proof.
  intros Hc Hr.
  set (lx := L.mkLexer ("//" ++ c ++ rest) bn ln col wd).
  rewrite lex_S.
  change (negb (L.lexer_bool lx)) with false. cbn iota.
  change (sym_is (L.symbol lx) nl) with false. cbn iota.
  change (isspace (L.symbol lx)) with false. cbn iota.
  change (sym_is (L.symbol lx) "/" && sym_is (L.next_symbol lx) "/") with true. cbn iota.
  change (snd (L.advance (snd (L.advance lx))))
    with (L.mkLexer (c ++ rest) bn ln (col + 1 + 1) wd).
  rewrite read_comment_text; [|exact Hc|exact Hr|].
  2:{ subst lx. cbn [L.leftover append String.length]. rewrite length_append. lia. }
  cbn [bind]. apply lex_fuel; subst lx; unfold len; cbn [L.leftover append String.length];
    rewrite ?length_append; lia.
Qed.

Lemma lex_comment_witness :
  all_chars in_line " a comment {" = true /\ line_end (String nl "k v") = true
  /\ L.lex 19 (L.mkLexer ("//" ++ " a comment {" ++ String nl "k v") "memory" 1 1 [])
     = L.lex 5 (L.mkLexer (String nl "k v") "memory" 1 15 []).
Proof.
  split; [reflexivity | split; [reflexivity|]].
  exact (lex_comment " a comment {" (String nl "k v") "memory" 1 1 [] eq_refl eq_refl).
Defined.

(** X6.  Spaces and tabs before a token are skipped: they change the column
    and nothing else. *)
Theorem lex_blanks (b : string) :
  forall rest bn ln col wd,
  all_chars is_blank b = true ->
  L.lex (S (String.length (b ++ rest))) (L.mkLexer (b ++ rest) bn ln col wd)
  = L.lex (S (String.length rest)) (L.mkLexer rest bn ln (col + String.length b) wd).
Proof.
  induction b as [|x b IH]; intros rest bn ln col wd Hb.
  - cbn. now rewrite Nat.add_0_r.
  - cbn [all_chars] in Hb. apply andb_true_iff in Hb as [Hx Hb].
    cbn [append String.length]. rewrite lex_S.
    assert (Hx' : x = " "%char \/ x = tab).
    { unfold is_blank in Hx. apply orb_true_iff in Hx as [E|E];
        apply Ascii.eqb_eq in E; auto. }
    replace (col + S (String.length b)) with (col + 1 + String.length b) by lia.
    destruct Hx' as [-> | ->]; cbn; apply IH; exact Hb.
Qed.

Lemma lex_blanks_witness :
  all_chars is_blank (String " " (String tab " ")) = true
  /\ L.lex 7 (L.mkLexer (String " " (String tab " ") ++ "key") "memory" 1 1 [])
     = L.lex 4 (L.mkLexer "key" "memory" 1 4 []).
Proof.
  split; [reflexivity|].
  exact (lex_blanks (String " " (String tab " ")) "key" "memory" 1 1 [] eq_refl).
Defined.

(** ** Quoted strings *)

Lemma valid_quoted_facts (c : ascii) :
  L._is_valid_quoted_symbol (Some c) = true ->
  Ascii.eqb c nl = false /\ Ascii.eqb c cr = false /\ mem_char c L.quotes = false.
Proof.
  destruct c as [[] [] [] [] [] [] [] []]; vm_compute; intros H;
    try discriminate H; repeat split.
Qed.

Lemma quoted_char_facts (t c : ascii) :
  quoted_char t c = true ->
  L._is_valid_quoted_symbol (Some c) = true /\ Ascii.eqb c t = false
  /\ Ascii.eqb c backslash = false /\ Ascii.eqb c nl = false
  /\ Ascii.eqb c cr = false /\ mem_char c L.quotes = false.
Proof.
  unfold quoted_char. intros H.
  apply andb_true_iff in H as [H Hb]. apply andb_true_iff in H as [Hv Ht].
  apply negb_true_iff in Hb, Ht.
  destruct (valid_quoted_facts c Hv) as (H1 & H2 & H3). auto 7.
Qed.

Lemma advance_char (c : ascii) (rest bn : string) (ln col : nat) (wd : list warning) :
  Ascii.eqb c nl = false -> Ascii.eqb c cr = false ->
  L.advance (L.mkLexer (String c rest) bn ln col wd)
  = (Some c, L.mkLexer rest bn ln (col + 1) wd).
Proof.
  intros Hnl Hcr. unfold L.advance. unfold L.symbol, L.next_symbol.
  cbn [L.leftover]. rewrite Hnl, Hcr. reflexivity.
Qed.

Lemma read_quoted_loop_S (fuel : nat) (terminator : option ascii) (lx : L.t)
    (string_buffer : string) :
  L.read_quoted_loop (S fuel) terminator lx string_buffer
  = let s := L.symbol lx in
    let lx1 :=
      if sym_is s backslash && str_in (L.next_symbol lx) L.escapable
      then snd (L.advance lx) else lx in
    if negb (L._is_valid_quoted_symbol s)
       || str_in s (str_of terminator ++ String nl EmptyString)
    then Ok (string_buffer, lx1)
    else
      let '(c, lx2) := L.advance lx1 in
      L.read_quoted_loop fuel terminator lx2 (string_buffer ++ str_of c).
Proof. reflexivity. Qed.

(** The loop of [read_quoted_string] takes the characters it reads on
    without further ado one by one. *)
Lemma read_quoted_loop_run (t : ascii) (w : string) :
  forall rest bn ln col wd acc fuel,
  all_chars (quoted_char t) w = true ->
  L.read_quoted_loop (String.length w + fuel) (Some t)
    (L.mkLexer (w ++ rest) bn ln col wd) acc
  = L.read_quoted_loop fuel (Some t)
      (L.mkLexer rest bn ln (col + String.length w) wd) (acc ++ w).
Proof.
  induction w as [|c w IH]; intros rest bn ln col wd acc fuel Hw.
  - cbn. now rewrite Nat.add_0_r, append_empty_r.
  - cbn [all_chars] in Hw. apply andb_true_iff in Hw as [Hc Hw].
    apply quoted_char_facts in Hc as (Hv & Ht & Hb & Hnl & Hcr & _).
    cbn [String.length Nat.add append].
    rewrite read_quoted_loop_S. cbv zeta.
    change (L.symbol (L.mkLexer (String c (w ++ rest)) bn ln col wd)) with (Some c).
    cbn [sym_is str_in str_of append mem_char].
    rewrite Hb, Hv, Ht, Hnl. cbn [andb orb negb].
    rewrite advance_char; [|exact Hnl|exact Hcr].
    rewrite IH; [|exact Hw]. cbn [str_of]. rewrite append_assoc. cbn [append].
    replace (col + 1 + String.length w) with (col + S (String.length w)) by lia.
    reflexivity.
Qed.

(** The loop stops on the terminator, on a newline and at the end of the
    buffer, taking nothing. *)
Lemma read_quoted_loop_stop (t : ascii) (rest bn : string) (ln col : nat)
    (wd : list warning) (acc : string) (fuel : nat) :
  match rest with
  | EmptyString => true
  | String c _ => Ascii.eqb c t || Ascii.eqb c nl
  end = true ->
  is_quote t = true ->
  L.read_quoted_loop (S fuel) (Some t) (L.mkLexer rest bn ln col wd) acc
  = Ok (acc, L.mkLexer rest bn ln col wd).
Proof.
  intros Hr Ht. cbn [L.read_quoted_loop]. unfold L.symbol. cbn [L.leftover].
  destruct rest as [|c rest]; [reflexivity|].
  cbn [sym_is str_in str_of append mem_char]. rewrite orb_false_r, Hr, orb_true_r.
  assert (Hb : Ascii.eqb c backslash = false).
  { apply orb_true_iff in Hr as [E|E]; apply Ascii.eqb_eq in E; subst c;
      [apply is_quote_cases in Ht as [-> | ->]|]; reflexivity. }
  rewrite Hb. reflexivity.
Qed.

Lemma rstrip_idem (s : string) : rstrip (rstrip s) = rstrip s.
Proof.
  induction s as [|c s IH]; [reflexivity|]. cbn [rstrip].
  destruct (is_empty (rstrip s) && isspace_char c) eqn:E; [reflexivity|].
  cbn [rstrip]. rewrite IH, E. reflexivity.
Qed.

Lemma rstrip_strip (s : string) : rstrip (strip s) = strip s.
Proof. unfold strip. apply rstrip_idem. Qed.

Lemma first_of_quoted_run (t : ascii) (w rest : string) :
  all_chars (quoted_char t) w = true -> is_empty w = false ->
  str_in match (w ++ rest)%string with String c _ => Some c | EmptyString => None end
         L.quotes = false.
Proof.
  destruct w as [|c w]; [discriminate|]. cbn [all_chars append str_in].
  intros H _. apply andb_true_iff in H as [Hc _].
  now apply quoted_char_facts in Hc as (_ & _ & _ & _ & _ & Hq).
Qed.

Lemma strip_nonempty (w : string) : is_empty (strip w) = false -> is_empty w = false.
Proof. destruct w; [discriminate | reflexivity]. Qed.

(** How [lex] enters a string opened by the quote [t] and followed by
    something other than a quote. *)
Lemma lex_open_quote (t : ascii) (body bn : string) (ln col : nat)
    (wd : list warning) (fuel : nat) :
  is_quote t = true ->
  str_in match body with String c _ => Some c | EmptyString => None end L.quotes = false ->
  L.lex (S fuel) (L.mkLexer (String t body) bn ln col wd)
  = ('(s, lx1) <- L.read_quoted_string (L.mkLexer (String t body) bn ln col wd) ;;
     if negb (is_empty s) then Ok ((STRING, Some s), lx1, false)
     else L.lex fuel lx1).
Proof.
  intros Ht Hn. rewrite lex_S.
  unfold L.lexer_bool, L.symbol, L.next_symbol. cbn [L.leftover is_empty negb].
  rewrite Hn.
  apply is_quote_cases in Ht as [-> | ->]; reflexivity.
Qed.

Lemma advance_quote (t : ascii) (body bn : string) (ln col : nat) (wd : list warning) :
  is_quote t = true ->
  L.advance (L.mkLexer (String t body) bn ln col wd)
  = (Some t, L.mkLexer body bn ln (col + 1) wd).
Proof. intros Ht. apply is_quote_cases in Ht as [-> | ->]; reflexivity. Qed.

Lemma read_quoted_string_closed (t : ascii) (w rest bn : string) (ln col : nat)
    (wd : list warning) :
  is_quote t = true -> all_chars (quoted_char t) w = true ->
  L.read_quoted_string (L.mkLexer (String t (w ++ String t rest)) bn ln col wd)
  = Ok (rstrip (strip w), L.mkLexer rest bn ln (col + 1 + String.length w + 1) wd).
Proof.
  intros Ht Hw.
  unfold L.read_quoted_string. rewrite advance_quote; [|exact Ht].
  cbn [L.leftover]. rewrite length_append. cbn [String.length].
  replace (S (String.length w + S (String.length rest)))
    with (String.length w + S (S (String.length rest))) by lia.
  rewrite read_quoted_loop_run; [|exact Hw].
  rewrite read_quoted_loop_stop; [|cbn; now rewrite Ascii.eqb_refl|exact Ht].
  cbn [bind append].
  change (L.symbol (L.mkLexer (String t rest) bn ln (col + 1 + String.length w) wd))
    with (Some t).
  cbn [L.option_ascii_eqb]. rewrite Ascii.eqb_refl, advance_quote; [|exact Ht].
  reflexivity.
Qed.

Lemma read_quoted_string_open (t : ascii) (w rest bn : string) (ln col : nat)
    (wd : list warning) :
  is_quote t = true -> all_chars (quoted_char t) w = true -> line_end rest = true ->
  L.read_quoted_string (L.mkLexer (String t (w ++ rest)) bn ln col wd)
  = Ok (rstrip (strip w),
        L.mkLexer rest bn ln (col + 1 + String.length w)
          (wd ++ [ExpectedTerminator (String t EmptyString)
                    (str_of (L.symbol (L.mkLexer rest bn ln col wd)))
                    ln (col + 1 + String.length w)])).
Proof.
  intros Ht Hw Hr.
  unfold L.read_quoted_string. rewrite advance_quote; [|exact Ht].
  cbn [L.leftover]. rewrite length_append.
  replace (S (String.length w + String.length rest))
    with (String.length w + S (String.length rest)) by lia.
  rewrite read_quoted_loop_run; [|exact Hw].
  rewrite read_quoted_loop_stop; [| |exact Ht].
  2:{ destruct rest as [|c rest]; [reflexivity|]. cbn [line_end] in Hr.
      now rewrite Hr, orb_true_r. }
  cbn [bind append].
  assert (E : L.option_ascii_eqb
                (L.symbol (L.mkLexer rest bn ln (col + 1 + String.length w) wd))
                (Some t) = false).
  { unfold L.symbol. cbn [L.leftover].
    destruct rest as [|c rest]; [reflexivity|]. cbn [line_end] in Hr.
    apply Ascii.eqb_eq in Hr. subst c. cbn.
    apply is_quote_cases in Ht as [-> | ->]; reflexivity. }
  rewrite E. reflexivity.
Qed.

(** X7.  A quoted string that holds neither its own quote nor a backslash and
    is closed on its line is lexed as one string token: the text between the
    quotes, braces and brackets included, with the white space at its two
    ends stripped. *)
Theorem lex_quoted_string (t : ascii) (w rest bn : string) (ln col : nat)
    (wd : list warning) (fuel : nat) :
  is_quote t = true -> all_chars (quoted_char t) w = true ->
  is_empty (strip w) = false ->
  L.lex (S fuel) (L.mkLexer (String t (w ++ String t rest)) bn ln col wd)
  = Ok ((STRING, Some (strip w)),
        L.mkLexer rest bn ln (col + 1 + String.length w + 1) wd, false).
Proof.
  intros Ht Hw Hs.
  rewrite lex_open_quote;
    [|exact Ht|apply (first_of_quoted_run t); [exact Hw | now apply strip_nonempty]].
  rewrite read_quoted_string_closed; [|exact Ht|exact Hw].
  cbn [bind]. rewrite rstrip_strip, Hs. reflexivity.
Qed.

Lemma lex_quoted_string_witness :
  is_quote dquote = true /\ all_chars (quoted_char dquote) " [0.0 1.0] {x} " = true
  /\ is_empty (strip " [0.0 1.0] {x} ") = false
  /\ L.lex 1 (L.mkLexer (String dquote (" [0.0 1.0] {x} " ++ String dquote " z")) "memory" 1 1 [])
     = Ok ((STRING, Some "[0.0 1.0] {x}"), L.mkLexer " z" "memory" 1 18 [], false).
Proof.
  split; [reflexivity | split; [reflexivity | split; [reflexivity|]]].
  exact (lex_quoted_string dquote " [0.0 1.0] {x} " " z" "memory" 1 1 [] 0
           eq_refl eq_refl eq_refl).
Defined.

Lemma blank_is_quoted_char (t c : ascii) :
  is_quote t = true -> is_blank c = true ->
  quoted_char t c = true /\ isspace_char c = true.
Proof.
  intros Ht Hc. unfold is_blank in Hc.
  apply is_quote_cases in Ht as [-> | ->];
    apply orb_true_iff in Hc as [E|E]; apply Ascii.eqb_eq in E; subst c;
    split; reflexivity.
Qed.

Lemma blank_run (t : ascii) (w : string) :
  is_quote t = true -> all_chars is_blank w = true ->
  all_chars (quoted_char t) w = true /\ strip w = EmptyString.
Proof.
  intros Ht. induction w as [|c w IH]; [split; reflexivity|].
  cbn [all_chars]. intros H. apply andb_true_iff in H as [Hc Hw].
  destruct (blank_is_quoted_char t c Ht Hc) as [Hq Hsp].
  destruct (IH Hw) as [IH1 IH2]. split.
  - now rewrite Hq, IH1.
  - unfold strip in *. cbn [lstrip]. now rewrite Hsp.
Qed.

(** X8.  A quoted string that holds blanks only yields no token at all,
    unlike two quotes in a row: the lexer goes on after the closing quote
    as if the string had not been there. *)
Theorem lex_quoted_blanks (t : ascii) (w rest bn : string) (ln col : nat)
    (wd : list warning) :
  is_quote t = true -> all_chars is_blank w = true -> is_empty w = false ->
  L.lex (S (String.length (String t (w ++ String t rest))))
        (L.mkLexer (String t (w ++ String t rest)) bn ln col wd)
  = L.lex (S (String.length rest))
          (L.mkLexer rest bn ln (col + 1 + String.length w + 1) wd).
Proof.
  intros Ht Hw Hne. destruct (blank_run t w Ht Hw) as [Hq Hs].
  rewrite lex_open_quote; [|exact Ht|now apply (first_of_quoted_run t)].
  rewrite read_quoted_string_closed; [|exact Ht|exact Hq].
  cbn [bind]. rewrite Hs. cbn [rstrip is_empty negb].
  apply lex_fuel; unfold len; cbn [L.leftover String.length]; rewrite ?length_append;
    cbn [String.length]; lia.
Qed.

Lemma lex_quoted_blanks_witness :
  is_quote dquote = true /\ all_chars is_blank "  " = true
  /\ L.lex 9 (L.mkLexer (String dquote ("  " ++ String dquote (String nl "k v"))) "memory" 1 5 [])
     = L.lex 5 (L.mkLexer (String nl "k v") "memory" 1 9 []).
Proof.
  split; [reflexivity | split; [reflexivity|]].
  exact (lex_quoted_blanks dquote "  " (String nl "k v") "memory" 1 5 []
           eq_refl eq_refl eq_refl).
Defined.

(** X9.  A quoted string that is not closed before the end of its line is no
    error: the lexer emits the one diagnostic, yields the text read so far
    as a string token and goes on from the end of the line, which it has
    not consumed. *)
Theorem lex_unterminated_string (t : ascii) (w rest bn : string) (ln col : nat)
    (wd : list warning) (fuel : nat) :
  is_quote t = true -> all_chars (quoted_char t) w = true ->
  is_empty (strip w) = false -> line_end rest = true ->
  L.lex (S fuel) (L.mkLexer (String t (w ++ rest)) bn ln col wd)
  = Ok ((STRING, Some (strip w)),
        L.mkLexer rest bn ln (col + 1 + String.length w)
          (wd ++ [ExpectedTerminator (String t EmptyString)
                    (str_of (L.symbol (L.mkLexer rest bn ln col wd)))
                    ln (col + 1 + String.length w)]),
        false).
Proof.
  intros Ht Hw Hs Hr.
  rewrite lex_open_quote;
    [|exact Ht|apply (first_of_quoted_run t); [exact Hw | now apply strip_nonempty]].
  rewrite read_quoted_string_open; [|exact Ht|exact Hw|exact Hr].
  cbn [bind]. rewrite rstrip_strip, Hs. reflexivity.
Qed.

Lemma lex_unterminated_string_witness :
  is_quote dquote = true /\ all_chars (quoted_char dquote) "value" = true
  /\ line_end (String nl "d e") = true
  /\ L.lex 1 (L.mkLexer (String dquote ("value" ++ String nl "d e")) "memory" 1 5 [])
     = Ok ((STRING, Some "value"),
           L.mkLexer (String nl "d e") "memory" 1 11
             [ExpectedTerminator (String dquote EmptyString) (String nl EmptyString) 1 11],
           false).
Proof.
  split; [reflexivity | split; [reflexivity | split; [reflexivity|]]].
  exact (lex_unterminated_string dquote "value" (String nl "d e") "memory" 1 5 [] 0
           eq_refl eq_refl eq_refl eq_refl).
Defined.

Lemma read_quoted_loop_escape (t e : ascii) (rest bn : string) (ln col : nat)
    (wd : list warning) (acc : string) (fuel : nat) :
  is_quote t = true -> is_quote e = true ->
  L.read_quoted_loop (S fuel) (Some t)
    (L.mkLexer (String backslash (String e rest)) bn ln col wd) acc
  = L.read_quoted_loop fuel (Some t)
      (L.mkLexer rest bn ln (col + 1 + 1) wd) (acc ++ String e EmptyString).
Proof.
  intros Ht He.
  apply is_quote_cases in Ht as [-> | ->];
    apply is_quote_cases in He as [-> | ->]; reflexivity.
Qed.

(** X10.  Inside a quoted string a backslash before a quote character is
    dropped and the quote is kept as text: the string does not end there. *)
Theorem lex_escaped_quote (t e : ascii) (u v rest bn : string) (ln col : nat)
    (wd : list warning) (fuel : nat) :
  is_quote t = true -> is_quote e = true ->
  all_chars (quoted_char t) u = true -> all_chars (quoted_char t) v = true ->
  is_empty (strip (u ++ String e v)) = false ->
  L.lex (S fuel)
    (L.mkLexer (String t (u ++ String backslash (String e (v ++ String t rest))))
               bn ln col wd)
  = Ok ((STRING, Some (strip (u ++ String e v))),
        L.mkLexer rest bn ln
          (col + 1 + String.length u + 1 + 1 + String.length v + 1) wd,
        false).
Proof.
  intros Ht He Hu Hv Hs.
  rewrite lex_open_quote; [|exact Ht|].
  2:{ destruct u as [|c u]; [reflexivity|]. now apply (first_of_quoted_run t). }
  unfold L.read_quoted_string. rewrite advance_quote; [|exact Ht].
  cbn [L.leftover]. rewrite length_append. cbn [String.length].
  rewrite length_append. cbn [String.length].
  replace (S (String.length u + S (S (String.length v + S (String.length rest)))))
    with (String.length u + S (String.length v + S (S (S (String.length rest))))) by lia.
  rewrite read_quoted_loop_run; [|exact Hu].
  rewrite read_quoted_loop_escape; [|exact Ht|exact He].
  rewrite read_quoted_loop_run; [|exact Hv].
  rewrite read_quoted_loop_stop; [|cbn; now rewrite Ascii.eqb_refl|exact Ht].
  cbn [bind append]. unfold L.symbol at 1. cbn [L.leftover L.option_ascii_eqb].
  rewrite Ascii.eqb_refl, advance_quote; [|exact Ht].
  cbn [snd]. rewrite append_assoc. cbn [append].
  rewrite rstrip_strip, Hs. reflexivity.
Qed.

Lemma lex_escaped_quote_witness :
  is_quote dquote = true
  /\ L.lex 1 (L.mkLexer (String dquote ("valu" ++ String backslash
                          (String dquote ("e1" ++ String dquote EmptyString))))
                        "memory" 1 1 [])
     = Ok ((STRING, Some ("valu" ++ String dquote "e1")),
           L.mkLexer EmptyString "memory" 1 11 [], false).
Proof.
  split; [reflexivity|].
  exact (lex_escaped_quote dquote dquote "valu" "e1" EmptyString "memory" 1 1 [] 0
           eq_refl eq_refl eq_refl eq_refl eq_refl).
Defined.

(** * Further properties of the parser *)

(** ** What the token operations leave alone, and what they raise *)

Lemma frame_refl (p : P.t) : frame p p.
Proof. repeat split. Qed.

Lemma frame_trans (p q r : P.t) : frame p q -> frame q r -> frame p r.
Proof.
  unfold frame. intros (A1 & A2 & A3 & A4) (B1 & B2 & B3 & B4).
  repeat split; congruence.
Qed.

Lemma next_token_op (p : P.t) : token_op p (P.next p).
Proof.
  unfold P.next. destruct (P._finished p); [reflexivity|].
  pose proof (lex_progress (S (len (P._lexer p))) (P._lexer p) (Nat.lt_succ_diag_r _)) as H.
  unfold len in H at 1.
  destruct (L.lex _ _) as [[[tok lx'] fin]|e|]; cbn [bind token_op]; auto.
  - repeat split.
  - cbn in H. now subst e.
Qed.

Lemma peek_token_op (p : P.t) : token_op p (P.peek p).
Proof.
  unfold P.peek. destruct (P._last_peek p); [apply frame_refl|].
  pose proof (next_token_op p) as H.
  destruct (P.next p) as [[tok p1]|e|]; cbn [bind token_op] in *; auto.
Qed.

Lemma advance_token_op (p : P.t) : token_op p (P.advance p).
Proof.
  unfold P.advance. destruct (P._last_peek p); [repeat split | apply next_token_op].
Qed.

Lemma match_token_op (token_type : VKVToken) (consume : bool) (p : P.t) :
  token_op p (P.match_ token_type consume p).
Proof.
  unfold P.match_. pose proof (peek_token_op p) as H.
  destruct (P.peek p) as [[[tok v] p1]|e|]; cbn [bind token_op] in *; auto.
  destruct (VKVToken_eqb tok token_type); [|exact H].
  destruct consume; [|exact H].
  pose proof (advance_token_op p1) as H1.
  destruct (P.advance p1) as [[t2 p2]|e|]; cbn [bind token_op] in *; auto.
  eapply frame_trans; eassumption.
Qed.

Lemma skip_to_newline_token_loop (fuel : nat) :
  forall p, token_loop p (P.skip_to_newline fuel p).
Proof.
  induction fuel as [|fuel IH]; intros p; [exact I|].
  rewrite skip_to_newline_S.
  pose proof (match_token_op NEWLINE false p) as H.
  destruct (P.match_ NEWLINE false p) as [[b p1]|e|]; cbn [bind token_op token_loop] in *; auto.
  destruct b; [exact H|].
  pose proof (advance_token_op p1) as H1.
  destruct (P.advance p1) as [[t2 p2]|e|]; cbn [bind token_op token_loop] in *; auto.
  specialize (IH p2). destruct (P.skip_to_newline fuel p2); cbn [token_loop] in *; auto.
  eapply frame_trans; [exact H|]. eapply frame_trans; eassumption.
Qed.

Lemma _skip_newlines_token_loop (fuel : nat) :
  forall p, token_loop p (P._skip_newlines_loop fuel p).
Proof.
  induction fuel as [|fuel IH]; intros p; [exact I|].
  rewrite _skip_newlines_loop_S.
  pose proof (match_token_op NEWLINE false p) as H.
  destruct (P.match_ NEWLINE false p) as [[b p1]|e|]; cbn [bind token_op token_loop] in *; auto.
  destruct b; [|exact H].
  pose proof (advance_token_op p1) as H1.
  destruct (P.advance p1) as [[t2 p2]|e|]; cbn [bind token_op token_loop] in *; auto.
  specialize (IH p2). destruct (P._skip_newlines_loop fuel p2); cbn [token_loop] in *; auto.
  eapply frame_trans; [exact H|]. eapply frame_trans; eassumption.
Qed.

Lemma frame_warn (w : warning) (p : P.t) : frame p (P.warn w p).
Proof. repeat split. Qed.

Lemma expect_token_op (token_type : VKVToken) (p : P.t) :
  token_op p (P.expect token_type p).
Proof.
  unfold P.expect. pose proof (peek_token_op p) as H.
  destruct (P.peek p) as [[[tok v] p1]|e|]; cbn [bind token_op] in *; auto.
  destruct (VKVToken_eqb tok token_type).
  - pose proof (advance_token_op p1) as H1.
    destruct (P.advance p1) as [[t2 p2]|e|]; cbn [bind token_op] in *; auto.
    eapply frame_trans; eassumption.
  - destruct (P._self_recover p1); [|reflexivity].
    match goal with |- context [P.skip_to_newline ?f ?q] =>
      pose proof (skip_to_newline_token_loop f q) as H1;
      destruct (P.skip_to_newline f q) end; cbn [bind token_op token_loop] in *; auto.
    eapply frame_trans; [exact H|]. eapply frame_trans; [apply frame_warn | exact H1].
Qed.

(** ** The node stack stays within the tree *)

Lemma update_length {A : Type} (l : list A) (i : nat) (a : A) :
  List.length (P.update l i a) = List.length l.
Proof.
  revert i. induction l as [|x l IH]; intros [|i]; simpl; auto.
Qed.

Lemma top_spec {A : Type} (node_stack : list A) :
  match P.top node_stack with
  | Ok a => exists l, node_stack = (l ++ [a])%list
  | Raise e => e = IndexError /\ node_stack = []
  | OutOfFuel => False
  end.
Proof.
  unfold P.top. destruct (rev node_stack) as [|a r] eqn:E.
  - split; [reflexivity|]. rewrite <- (rev_involutive node_stack), E. reflexivity.
  - exists (rev r). rewrite <- (rev_involutive node_stack), E. reflexivity.
Qed.

Lemma pop_spec {A : Type} (node_stack : list A) :
  match P.pop node_stack with
  | Ok l => exists a, node_stack = (l ++ [a])%list
  | Raise e => e = IndexError /\ node_stack = []
  | OutOfFuel => False
  end.
Proof.
  unfold P.pop. destruct (rev node_stack) as [|a r] eqn:E.
  - split; [reflexivity|]. rewrite <- (rev_involutive node_stack), E. reflexivity.
  - exists a. rewrite <- (rev_involutive node_stack), E. reflexivity.
Qed.

Lemma store_sound (node_stack : list nat) (key : string) (v : value) (p : P.t) :
  stack_ok (P.heap p) node_stack ->
  match P.store node_stack key v p with
  | Ok p' => grows p p' /\ List.length (P.heap p') = List.length (P.heap p)
  | Raise e => e = IndexError /\ node_stack = []
  | OutOfFuel => False
  end.
Proof.
  intros Hok. unfold P.store. pose proof (top_spec node_stack) as Ht.
  destruct (P.top node_stack) as [a| |]; cbn [bind]; auto.
  destruct Ht as [l ->].
  assert (Ha : a < List.length (P.heap p)).
  { unfold stack_ok in Hok. rewrite Forall_forall in Hok. apply Hok.
    apply in_or_app. right. now left. }
  destruct (nth_error (P.heap p) a) eqn:E.
  - unfold grows. cbn. rewrite update_length. auto.
  - apply nth_error_None in E. lia.
Qed.

Lemma stack_ok_mono (h h' : list node) (node_stack : list nat) :
  List.length h <= List.length h' -> stack_ok h node_stack -> stack_ok h' node_stack.
Proof.
  unfold stack_ok. intros Hl H. eapply Forall_impl; [|exact H].
  cbn. intros a Ha. lia.
Qed.

Lemma grows_refl (p : P.t) : grows p p.
Proof. unfold grows. auto. Qed.

Lemma grows_trans (p q r : P.t) : grows p q -> grows q r -> grows p r.
Proof.
  unfold grows. intros (A1 & A2 & A3) (B1 & B2 & B3).
  repeat split; [lia | congruence | congruence].
Qed.

Lemma frame_grows (p q : P.t) : frame p q -> grows p q.
Proof. intros (Fh & Ft & Fr & _). unfold grows. rewrite Fh. auto. Qed.

Lemma grows_frame (p q r : P.t) : grows p q -> frame q r -> grows p r.
Proof. intros G F. eapply grows_trans; [exact G | now apply frame_grows]. Qed.

Lemma grows_stack_ok (p q : P.t) (node_stack : list nat) :
  grows p q -> stack_ok (P.heap p) node_stack -> stack_ok (P.heap q) node_stack.
Proof. intros (Gl & _). now apply stack_ok_mono. Qed.

(** A round of [parse] keeps every address of the node stack within the
    tree, never shrinks the tree, and raises [IndexError] in one case only:
    when it is started with the node stack empty. *)
Lemma parse_round_sound (node_stack : list nat) (p : P.t) :
  stack_ok (P.heap p) node_stack ->
  round_sound node_stack p (P.parse_round node_stack p).
Proof.
  intros Hok. unfold P.parse_round, P._skip_newlines.
  tokl (_skip_newlines_token_loop (S (P.budget p)) p) F0 q0.
  tok (match_token_op STRING false q0) F1 b1 q1.
  assert (G1 : grows p q1).
  { eapply grows_frame; [|exact F1]. now apply frame_grows. }
  destruct b1.
  - tok (advance_token_op q1) F2 key_tok q2.
    tokl (_skip_newlines_token_loop (S (P.budget q2)) q2) F3 q3.
    tok (match_token_op LBRACE true q3) F4 b4 q4.
    assert (G4 : grows p q4).
    { eapply grows_frame; [|exact F4]. eapply grows_frame; [|exact F3].
      eapply grows_frame; [exact G1 | exact F2]. }
    destruct b4.
    + cbn [P.new_dict].
      set (q4' := P.set_heap q4 (P.heap q4 ++ [ [] ])%list).
      assert (G4' : grows p q4' /\ List.length (P.heap q4') = S (List.length (P.heap q4))).
      { subst q4'. unfold grows in *. cbn. rewrite length_app. cbn.
        destruct G4 as (A & B & C). repeat split; [lia | exact B | exact C | lia]. }
      destruct G4' as [G4' L4'].
      pose proof (store_sound node_stack (P.text key_tok)
                    (VNode (List.length (P.heap q4))) q4'
                    (grows_stack_ok _ _ _ G4' Hok)) as S5.
      destruct (P.store _ _ _ q4') as [q5| |]; cbn [bind round_sound];
        [ | right; exact S5 | contradiction ].
      destruct S5 as [G5 L5]. split; [|eapply grows_trans; eassumption].
      unfold stack_ok. apply Forall_app. split.
      * apply (grows_stack_ok p); [eapply grows_trans; eassumption | exact Hok].
      * constructor; [|constructor]. rewrite L5, L4'. lia.
    + tok (match_token_op STRING false q4) F5 b5 q5.
      assert (G5 : grows p q5) by (eapply grows_frame; eassumption).
      destruct b5; [|split; [now apply (grows_stack_ok p) | exact G5]].
      tok (advance_token_op q5) F6 value_tok q6.
      tok (match_token_op LBRACKET true q6) F7 b7 q7.
      assert (G7 : grows p q7).
      { eapply grows_frame; [|exact F7]. eapply grows_frame; eassumption. }
      assert (Tail : forall q, grows p q ->
                 round_sound node_stack p
                   ('(_, p0) <- P.expect NEWLINE q ;; Ok (P.Next, node_stack, p0))).
      { intros q Gq. tok (expect_token_op NEWLINE q) F9 x9 q9.
        assert (G9 : grows p q9) by (eapply grows_frame; eassumption).
        split; [now apply (grows_stack_ok p) | exact G9]. }
      destruct b7.
      * tok (advance_token_op q7) F8 condition q8.
        tok (expect_token_op RBRACKET q8) F9 x9 q9.
        assert (G9 : grows p q9).
        { eapply grows_frame; [|exact F9]. eapply grows_frame; eassumption. }
        pose proof (store_sound node_stack (P.text key_tok)
                      (VCond (P.text value_tok) (snd condition)) q9
                      (grows_stack_ok _ _ _ G9 Hok)) as S10.
        destruct (P.store _ _ _ q9) as [q10| |]; cbn [bind round_sound];
          [ | right; exact S10 | contradiction ].
        apply Tail. eapply grows_trans; [exact G9 | apply S10].
      * pose proof (store_sound node_stack (P.text key_tok)
                      (VStr (P.text value_tok)) q7
                      (grows_stack_ok _ _ _ G7 Hok)) as S10.
        destruct (P.store _ _ _ q7) as [q10| |]; cbn [bind round_sound];
          [ | right; exact S10 | contradiction ].
        apply Tail. eapply grows_trans; [exact G7 | apply S10].
  - tok (match_token_op RBRACE true q1) F2 b2 q2.
    assert (G2 : grows p q2) by (eapply grows_frame; eassumption).
    destruct b2.
    + pose proof (pop_spec node_stack) as Hp.
      destruct (P.pop node_stack) as [l| |]; cbn [bind round_sound];
        [ | right; exact Hp | contradiction ].
      destruct Hp as [a ->]. split; [|exact G2].
      apply (grows_stack_ok p _ _ G2).
      unfold stack_ok in *. now apply Forall_app in Hok as [Hok _].
    + tok (match_token_op EOF false q2) F3 b3 q3.
      assert (G3 : grows p q3) by (eapply grows_frame; eassumption).
      destruct b3; [|left; reflexivity].
      split; [now apply (grows_stack_ok p) | exact G3].
Qed.

Lemma token_parse_exn (e : exn) : token_exn e = true -> parse_exn e = true.
Proof. destruct e; simpl; auto. Qed.

Lemma parse_loop_sound (fuel : nat) :
  forall node_stack p,
  stack_ok (P.heap p) node_stack ->
  match P.parse_loop fuel node_stack p with
  | Ok (node_stack', p') => stack_ok (P.heap p') node_stack' /\ grows p p'
  | Raise e => parse_exn e = true
  | OutOfFuel => True
  end.
Proof.
  induction fuel as [|fuel IH]; intros node_stack p Hok; [exact I|].
  rewrite parse_loop_S.
  destruct (L.lexer_bool (P._lexer p)); [|split; [exact Hok | apply grows_refl]].
  pose proof (parse_round_sound node_stack p Hok) as H.
  destruct (P.parse_round node_stack p) as [[[fl ns] p1]|e|]; cbn [bind round_sound] in *.
  - destruct H as [Hok1 G1]. destruct fl.
    + specialize (IH ns p1 Hok1).
      destruct (P.parse_loop fuel ns p1) as [[ns2 p2]|e|]; auto.
      destruct IH as [Hok2 G2]. split; [exact Hok2 | eapply grows_trans; eassumption].
    + split; assumption.
  - destruct H as [H | [-> _]]; [now apply token_parse_exn | reflexivity].
  - exact I.
Qed.

(** X11.  [parse] comes to an end on every buffer, and the only exceptions it
    lets out are the lexer's, the parser's, [IndexError] and
    [StopIteration]; when it returns, the tree it leaves is no smaller than
    the one it started from. *)
Theorem parse_raises_only (p : P.t) :
  P.tree p < List.length (P.heap p) -> parse_sound p (P.parse p).
Proof.
  intros Ht. unfold P.parse.
  pose proof (parse_loop_total (S (P.budget p)) [P.tree p] p (Nat.lt_succ_diag_r _)) as Hfuel.
  pose proof (parse_loop_sound (S (P.budget p)) [P.tree p] p) as H.
  destruct (P.parse_loop _ _ _) as [[ns p']|e|]; cbn [bind parse_sound].
  - apply H. constructor; [exact Ht | constructor].
  - apply H. constructor; [exact Ht | constructor].
  - congruence.
Qed.

Lemma parse_raises_only_witness :
  parse_sound (P.of_buffer ("a { b c" ++ Sample.NL ++ "} } d") "memory" true)
              (P.parse (P.of_buffer ("a { b c" ++ Sample.NL ++ "} } d") "memory" true)).
Proof.
  apply parse_raises_only. cbn. lia.
Defined.

(** ** The statements of a document *)

Lemma lex_lbrace (rest bn : string) (ln col : nat) (wd : list warning) (fuel : nat) :
  L.lex (S fuel) (L.mkLexer (String "{" rest) bn ln col wd)
  = Ok ((LBRACE, Some "{"), L.mkLexer rest bn ln (col + 1) wd, false).
Proof. rewrite lex_S. reflexivity. Qed.

Lemma lex_lbracket (rest bn : string) (ln col : nat) (wd : list warning) (fuel : nat) :
  L.lex (S fuel) (L.mkLexer (String "[" rest) bn ln col wd)
  = Ok ((LBRACKET, Some "["), L.mkLexer rest bn ln (col + 1) wd, false).
Proof. rewrite lex_S. reflexivity. Qed.

Lemma lex_rbracket (rest bn : string) (ln col : nat) (wd : list warning) (fuel : nat) :
  L.lex (S fuel) (L.mkLexer (String "]" rest) bn ln col wd)
  = Ok ((RBRACKET, Some "]"), L.mkLexer rest bn ln (col + 1) wd, false).
Proof. rewrite lex_S. reflexivity. Qed.

Lemma lex_eof (bn : string) (ln col : nat) (wd : list warning) (fuel : nat) :
  L.lex (S fuel) (L.mkLexer EmptyString bn ln col wd)
  = Ok ((EOF, None), L.mkLexer EmptyString bn ln col wd, true).
Proof. rewrite lex_S. reflexivity. Qed.

(** The round of [parse] on a line [key value]: an assignment to the node
    on top of the stack. *)
Lemma parse_round_assignment (k v rest bn path : string) (ln col : nat)
    (wd : list warning) (rec : bool) (heap : list node) (tree : nat)
    (node_stack : list nat) (a : nat) (d : node) :
  is_word k = true -> is_word v = true ->
  String.prefix (String nl EmptyString) rest = false ->
  P.top node_stack = Ok a -> nth_error heap a = Some d ->
  P.parse_round node_stack
    (P.mkParser (L.mkLexer (k ++ String " " (v ++ String nl rest)) bn ln col wd)
                false None rec path heap tree)
  = Ok (P.Next, node_stack,
        P.mkParser (L.mkLexer rest bn (ln + 1) 1 wd) false None rec path
                   (P.update heap a (dict_set String.eqb d k (VStr v))) tree).
Proof.
  intros Hk Hv Hrest Htop Hd.
  unfold P.parse_round, P._skip_newlines.
  rewrite _skip_newlines_loop_S. pstep.
  rewrite lex_word; [|exact Hk|reflexivity]. cbn.
  rewrite _skip_newlines_loop_S. pstep.
  rewrite lex_space, lex_word; [|exact Hv|reflexivity]. cbn.
  rewrite lex_newline; [|exact Hrest]. cbn.
  rewrite Htop. cbn. rewrite Hd. reflexivity.
Qed.

(** X12.  The statement [key value] on a line of its own, wherever it stands:
    the round that meets it binds the key to the scalar in the node on top
    of the stack, replacing what the key was bound to, and leaves the stack
    as it is and the parser at the start of the next line. *)
Theorem parse_round_key_value (k v rest bn path : string) (ln col : nat)
    (wd : list warning) (rec : bool) (heap : list node) (tree : nat)
    (node_stack : list nat) (a : nat) (d : node) :
  is_word k = true -> is_word v = true ->
  String.prefix (String nl EmptyString) rest = false ->
  P.top node_stack = Ok a -> nth_error heap a = Some d ->
  P.parse_round node_stack
    (P.mkParser (L.mkLexer (k ++ String " " (v ++ String nl rest)) bn ln col wd)
                false None rec path heap tree)
  = Ok (P.Next, node_stack,
        P.mkParser (L.mkLexer rest bn (ln + 1) 1 wd) false None rec path
                   (P.update heap a (dict_set String.eqb d k (VStr v))) tree).
Proof. apply parse_round_assignment. Qed.

Lemma parse_round_key_value_witness :
  is_word "$basetexture" = true /\ is_word "models/a/b" = true
  /\ P.parse_round [0]
       (P.of_buffer ("$basetexture models/a/b" ++ Sample.NL ++ "k v") "memory" false)
     = Ok (P.Next, [0],
           P.mkParser (L.mkLexer "k v" "memory" 2 1 []) false None false "memory"
                      [ [("$basetexture", VStr "models/a/b")] ] 0).
Proof.
  split; [reflexivity | split; [reflexivity|]].
  exact (parse_round_key_value "$basetexture" "models/a/b" "k v" "memory" "memory"
           1 1 [] false [ [] ] 0 [0] 0 [] eq_refl eq_refl eq_refl eq_refl eq_refl).
Defined.

(** X13.  The statement [key value [condition]]: the round binds the key to
    the pair of the value and the condition, not to the bare scalar. *)
Theorem parse_round_conditional (k v c rest bn path : string) (ln col : nat)
    (wd : list warning) (rec : bool) (heap : list node) (tree : nat)
    (node_stack : list nat) (a : nat) (d : node) :
  is_word k = true -> is_word v = true -> is_word c = true ->
  String.prefix (String nl EmptyString) rest = false ->
  P.top node_stack = Ok a -> nth_error heap a = Some d ->
  P.parse_round node_stack
    (P.mkParser
       (L.mkLexer (k ++ String " " (v ++ String " " (String "["
                     (c ++ String "]" (String nl rest))))) bn ln col wd)
       false None rec path heap tree)
  = Ok (P.Next, node_stack,
        P.mkParser (L.mkLexer rest bn (ln + 1) 1 wd) false None rec path
                   (P.update heap a (dict_set String.eqb d k (VCond v (Some c)))) tree).
Proof.
  intros Hk Hv Hc Hrest Htop Hd.
  unfold P.parse_round, P._skip_newlines.
  rewrite _skip_newlines_loop_S. pstep.
  rewrite lex_word; [|exact Hk|reflexivity]. cbn.
  rewrite _skip_newlines_loop_S. pstep.
  rewrite lex_space, lex_word; [|exact Hv|reflexivity]. cbn.
  rewrite lex_space, lex_lbracket. cbn.
  rewrite lex_word; [|exact Hc|reflexivity]. cbn.
  rewrite lex_rbracket. cbn.
  rewrite Htop. cbn. rewrite Hd. cbn.
  rewrite lex_newline; [|exact Hrest]. reflexivity.
Qed.

Lemma parse_round_conditional_witness :
  is_word "$key4" = true /\ is_word "value3" = true /\ is_word "!PS3" = true
  /\ P.parse_round [0]
       (P.of_buffer ("$key4 value3 [!PS3]" ++ Sample.NL) "memory" false)
     = Ok (P.Next, [0],
           P.mkParser (L.mkLexer EmptyString "memory" 2 1 []) false None false "memory"
                      [ [("$key4", VCond "value3" (Some "!PS3"))] ] 0).
Proof.
  split; [reflexivity | split; [reflexivity | split; [reflexivity|]]].
  exact (parse_round_conditional "$key4" "value3" "!PS3" EmptyString "memory" "memory"
           1 1 [] false [ [] ] 0 [0] 0 [] eq_refl eq_refl eq_refl eq_refl eq_refl eq_refl).
Defined.

(** X14.  The statement [key {]: the round allocates a fresh empty node, binds
    the key to it in the node on top of the stack, and pushes it: what
    follows is stored in the new node. *)
Theorem parse_round_open_block (k rest bn path : string) (ln col : nat)
    (wd : list warning) (rec : bool) (heap : list node) (tree : nat)
    (node_stack : list nat) (a : nat) (d : node) :
  is_word k = true ->
  P.top node_stack = Ok a -> nth_error heap a = Some d ->
  P.parse_round node_stack
    (P.mkParser (L.mkLexer (k ++ String " " (String "{" rest)) bn ln col wd)
                false None rec path heap tree)
  = Ok (P.Next, (node_stack ++ [List.length heap])%list,
        P.mkParser (L.mkLexer rest bn ln (col + String.length k + 1 + 1) wd)
                   false None rec path
                   (P.update (heap ++ [ [] ])%list a
                      (dict_set String.eqb d k (VNode (List.length heap))))
                   tree).
Proof.
  intros Hk Htop Hd.
  unfold P.parse_round, P._skip_newlines.
  rewrite _skip_newlines_loop_S. pstep.
  rewrite lex_word; [|exact Hk|reflexivity]. cbn.
  rewrite _skip_newlines_loop_S. pstep.
  rewrite lex_space, lex_lbrace. cbn.
  rewrite Htop. cbn.
  rewrite nth_error_app1; [|apply nth_error_Some; congruence].
  rewrite Hd. reflexivity.
Qed.

Lemma parse_round_open_block_witness :
  is_word "Proxies" = true
  /\ P.parse_round [0]
       (P.of_buffer ("Proxies {" ++ Sample.NL ++ "k v") "memory" false)
     = Ok (P.Next, [0; 1],
           P.mkParser (L.mkLexer (Sample.NL ++ "k v") "memory" 1 10 []) false None false
                      "memory" [ [("Proxies", VNode 1)]; [] ] 0).
Proof.
  split; [reflexivity|].
  exact (parse_round_open_block "Proxies" (Sample.NL ++ "k v") "memory" "memory"
           1 1 [] false [ [] ] 0 [0] 0 [] eq_refl eq_refl eq_refl).
Defined.

(** X15.  A closing brace pops the node stack, whatever is on it, and changes
    nothing in the tree: what follows is stored in the node below. *)
Theorem parse_round_close_block (rest bn path : string) (ln col : nat)
    (wd : list warning) (rec : bool) (heap : list node) (tree : nat)
    (node_stack : list nat) (a : nat) :
  P.parse_round (node_stack ++ [a])%list
    (P.mkParser (L.mkLexer (String "}" rest) bn ln col wd)
                false None rec path heap tree)
  = Ok (P.Next, node_stack,
        P.mkParser (L.mkLexer rest bn ln (col + 1) wd) false None rec path heap tree).
Proof.
  unfold P.parse_round, P._skip_newlines.
  rewrite _skip_newlines_loop_S. pstep.
  rewrite lex_rbrace. cbn.
  unfold P.pop. rewrite rev_app_distr. cbn. now rewrite rev_involutive.
Qed.

(** X16.  Newlines between a key and its value are skipped: a key alone on
    its line takes the first token of the next line as its value. *)
Theorem parse_round_key_newline_value (k v rest bn path : string) (ln col : nat)
    (wd : list warning) (rec : bool) (heap : list node) (tree : nat)
    (node_stack : list nat) (a : nat) (d : node) :
  is_word k = true -> is_word v = true ->
  String.prefix (String nl EmptyString) rest = false ->
  P.top node_stack = Ok a -> nth_error heap a = Some d ->
  P.parse_round node_stack
    (P.mkParser (L.mkLexer (k ++ String nl (v ++ String nl rest)) bn ln col wd)
                false None rec path heap tree)
  = Ok (P.Next, node_stack,
        P.mkParser (L.mkLexer rest bn (ln + 1 + 1) 1 wd) false None rec path
                   (P.update heap a (dict_set String.eqb d k (VStr v))) tree).
Proof.
  intros Hk Hv Hrest Htop Hd.
  unfold P.parse_round, P._skip_newlines.
  rewrite _skip_newlines_loop_S. pstep.
  rewrite lex_word; [|exact Hk|reflexivity]. cbn.
  rewrite _skip_newlines_loop_S. pstep.
  rewrite lex_newline; [|now apply first_not_newline]. cbn.
  rewrite _skip_newlines_loop_S. pstep.
  rewrite lex_word; [|exact Hv|reflexivity]. cbn.
  rewrite lex_newline; [|exact Hrest]. cbn.
  rewrite Htop. cbn. rewrite Hd. reflexivity.
Qed.

Lemma parse_round_key_newline_value_witness :
  is_word "a" = true /\ is_word "b" = true
  /\ P.parse_round [0] (P.of_buffer ("a" ++ Sample.NL ++ "b" ++ Sample.NL) "memory" false)
     = Ok (P.Next, [0],
           P.mkParser (L.mkLexer EmptyString "memory" 3 1 []) false None false "memory"
                      [ [("a", VStr "b")] ] 0).
Proof.
  split; [reflexivity | split; [reflexivity|]].
  exact (parse_round_key_newline_value "a" "b" EmptyString "memory" "memory"
           1 1 [] false [ [] ] 0 [0] 0 [] eq_refl eq_refl eq_refl eq_refl eq_refl).
Defined.

(** ** Whole documents *)

Lemma is_word_nonempty (w : string) : is_word w = true -> exists c w', w = String c w'.
Proof.
  destruct w as [|c w]; [discriminate | eauto].
Qed.

Lemma is_word_no_cr (w : string) : is_word w = true -> mem_char cr w = false.
Proof. intros H. apply all_plain_no_cr. now apply is_word_all_plain. Qed.

(** X17.  A key that is the last token of the buffer, with no value after it,
    is dropped without a diagnostic: the parse returns and the tree is
    empty. *)
Theorem parse_trailing_key_is_dropped (k name : string) (rec : bool) :
  is_word k = true ->
  P.parse (P.of_buffer k name rec)
  = Ok (P.mkParser (L.mkLexer EmptyString name 1 (1 + String.length k) [])
                   true (Some (EOF, None)) rec name [ [] ] 0).
Proof.
  intros Hk. unfold P.parse, P.of_buffer, L.init.
  rewrite replace_crlf_no_cr; [|now apply is_word_no_cr].
  destruct (is_word_nonempty k Hk) as (c & k' & Ek).
  cbn [P.tree]. rewrite parse_loop_S.
  assert (Hb : L.lexer_bool (L.mkLexer k name 1 1 []) = true) by (rewrite Ek; reflexivity).
  cbn [P._lexer]. rewrite Hb.
  unfold P.parse_round, P._skip_newlines.
  rewrite _skip_newlines_loop_S. pstep.
  rewrite <- (append_empty_r k) at 2.
  rewrite lex_word; [|exact Hk|reflexivity]. cbn.
  rewrite _skip_newlines_loop_S. pstep.
  rewrite lex_eof. cbn.
  unfold P.budget. cbn [P._lexer P._finished P._last_peek L.leftover].
  rewrite Ek. cbn [String.length Nat.add]. rewrite parse_loop_S.
  reflexivity.
Qed.

Lemma parse_trailing_key_is_dropped_witness :
  is_word "orphan" = true
  /\ P.parse (P.of_buffer "orphan" "memory" true)
     = Ok (P.mkParser (L.mkLexer EmptyString "memory" 1 7 [])
                      true (Some (EOF, None)) true "memory" [ [] ] 0).
Proof.
  split; [reflexivity|].
  exact (parse_trailing_key_is_dropped "orphan" "memory" true eq_refl).
Defined.

(** X18.  A document whose last [key value] statement is not ended by a
    newline is not parsed to its end: without recovery the statement
    terminator is missed and the parser raises its exception; in recovery
    mode the search for a newline runs off the end of the token stream and
    [StopIteration] comes out. *)
Theorem parse_missing_final_newline (k v name : string) (rec : bool) :
  is_word k = true -> is_word v = true ->
  P.parse (P.of_buffer (k ++ String " " v) name rec)
  = Raise (if rec then StopIteration else FGDParserException).
Proof.
  intros Hk Hv. unfold P.parse, P.of_buffer, L.init.
  rewrite replace_crlf_no_cr.
  2:{ rewrite mem_char_append. cbn [mem_char].
      rewrite (is_word_no_cr k Hk), (is_word_no_cr v Hv). reflexivity. }
  destruct (is_word_nonempty k Hk) as (c & k' & Ek).
  cbn [P.tree]. rewrite parse_loop_S.
  assert (Hb : L.lexer_bool (L.mkLexer (k ++ String " " v) name 1 1 []) = true)
    by (rewrite Ek; reflexivity).
  cbn [P._lexer]. rewrite Hb.
  unfold P.parse_round, P._skip_newlines.
  rewrite _skip_newlines_loop_S. pstep.
  rewrite lex_word; [|exact Hk|reflexivity]. cbn.
  rewrite _skip_newlines_loop_S. pstep.
  rewrite lex_space.
  rewrite <- (append_empty_r v) at 2.
  rewrite lex_word; [|exact Hv|reflexivity]. cbn.
  rewrite lex_eof. cbn.
  destruct rec; [|reflexivity].
  cbn. rewrite skip_to_newline_S. pstep.
  destruct (String.length v + 0 + 0 + 1); [reflexivity|].
  rewrite skip_to_newline_S. reflexivity.
Qed.

Lemma parse_missing_final_newline_witness :
  is_word "key" = true /\ is_word "value" = true
  /\ P.parse (P.of_buffer "key value" "memory" true) = Raise StopIteration
  /\ P.parse (P.of_buffer "key value" "memory" false) = Raise FGDParserException.
Proof.
  split; [reflexivity | split; [reflexivity | split]].
  - exact (parse_missing_final_newline "key" "value" "memory" true eq_refl eq_refl).
  - exact (parse_missing_final_newline "key" "value" "memory" false eq_refl eq_refl).
Defined.

(** ** Flat documents *)

Lemma words_cons (k v : string) (pairs : list (string * string)) :
  words ((k, v) :: pairs) = true ->
  is_word k = true /\ is_word v = true /\ words pairs = true.
Proof.
  unfold words. cbn [forallb fst snd]. intros H.
  apply andb_true_iff in H as [H Hp]. apply andb_true_iff in H as [Hk Hv]. auto.
Qed.

Lemma dump_no_cr (pairs : list (string * string)) :
  words pairs = true -> mem_char cr (dump pairs) = false.
Proof.
  induction pairs as [|[k v] pairs IH]; [reflexivity|].
  intros H. apply words_cons in H as (Hk & Hv & Hp).
  cbn [dump]. rewrite mem_char_append. cbn [mem_char]. rewrite mem_char_append.
  cbn [mem_char]. rewrite (is_word_no_cr k Hk), (is_word_no_cr v Hv), (IH Hp).
  reflexivity.
Qed.

Lemma dump_first (pairs : list (string * string)) :
  words pairs = true -> String.prefix (String nl EmptyString) (dump pairs) = false.
Proof.
  destruct pairs as [|[k v] pairs]; [reflexivity|].
  intros H. apply words_cons in H as (Hk & _). cbn [dump].
  now apply first_not_newline.
Qed.

Lemma dump_length (pairs : list (string * string)) :
  List.length pairs <= String.length (dump pairs).
Proof.
  induction pairs as [|[k v] pairs IH]; [cbn; lia|].
  cbn [dump List.length]. rewrite length_append. cbn [String.length].
  rewrite length_append. cbn [String.length]. lia.
Qed.

(** The loop of [parse] on a flat document: one round per line, each an
    assignment to the root. *)
Lemma parse_loop_dump (pairs : list (string * string)) :
  forall fuel bn path ln col wd rec d,
  words pairs = true -> List.length pairs < fuel ->
  exists lx',
    P.parse_loop fuel [0]
      (P.mkParser (L.mkLexer (dump pairs) bn ln col wd) false None rec path [d] 0)
    = Ok ([0], P.mkParser lx' false None rec path [assign_all d pairs] 0).
Proof.
  induction pairs as [|[k v] pairs IH]; intros fuel bn path ln col wd rec d Hw Hf;
    (destruct fuel as [|fuel]; [cbn in Hf; lia|]); rewrite parse_loop_S.
  - eexists. reflexivity.
  - apply words_cons in Hw as (Hk & Hv & Hp).
    destruct (is_word_nonempty k Hk) as (c & k' & Ek).
    assert (Hb : L.lexer_bool (L.mkLexer (dump ((k, v) :: pairs)) bn ln col wd) = true)
      by (cbn [dump]; rewrite Ek; reflexivity).
    cbn [P._lexer]. rewrite Hb. cbn [dump].
    rewrite (parse_round_assignment k v (dump pairs) bn path ln col wd rec [d] 0 [0] 0 d
               Hk Hv (dump_first pairs Hp) eq_refl eq_refl).
    cbn [bind P.update].
    destruct (IH fuel bn path (ln + 1) 1 wd rec (dict_set String.eqb d k (VStr v)) Hp)
      as [lx' E]; [cbn in Hf; lia|].
    exists lx'. rewrite E. reflexivity.
Qed.

Lemma dict_set_absent {V : Type} (d : dict string V) (k : string) (v : V) :
  dict_get String.eqb d k = None -> dict_set String.eqb d k v = (d ++ [(k, v)])%list.
Proof.
  induction d as [|[k' v'] d IH]; [reflexivity|]. cbn [dict_get dict_set app].
  destruct (String.eqb k k'); [discriminate|]. intros H. now rewrite (IH H).
Qed.

Lemma dict_get_app_absent {V : Type} (d : dict string V) (k k' : string) (v : V) :
  k <> k' -> dict_get String.eqb d k = None ->
  dict_get String.eqb (d ++ [(k', v)])%list k = None.
Proof.
  intros Hne. induction d as [|[k0 v0] d IH]; cbn [dict_get app].
  - apply String.eqb_neq in Hne. now rewrite Hne.
  - destruct (String.eqb k k0); [discriminate | exact IH].
Qed.

(** A document whose keys are all different assigns each to a fresh key:
    the dictionary is the list of its lines, in their order. *)
Lemma assign_all_distinct (pairs : list (string * string)) :
  forall d,
  NoDup (map fst pairs) ->
  (forall k, In k (map fst pairs) -> dict_get String.eqb d k = None) ->
  assign_all d pairs = (d ++ as_node pairs)%list.
Proof.
  induction pairs as [|[k v] pairs IH]; intros d Hnd Hfresh.
  - cbn. now rewrite app_nil_r.
  - cbn [map fst] in Hnd. inversion Hnd as [|? ? Hk Hnd']; subst.
    unfold assign_all. cbn [fold_left fst snd].
    rewrite dict_set_absent; [|apply Hfresh; now left].
    fold (assign_all (d ++ [(k, VStr v)])%list pairs). rewrite IH; [|exact Hnd'|].
    + cbn [as_node map fst snd]. now rewrite <- app_assoc.
    + intros k0 Hin. apply dict_get_app_absent.
      * intros ->. contradiction.
      * apply Hfresh. now right.
Qed.

(** X19.  Round trip on flat documents: the parse of the lines [key value] of
    a list of pairs of words with different keys returns, and the tree it
    leaves is that list, each key bound to its value, in the order of the
    lines. *)
Theorem parse_dump (pairs : list (string * string)) (name : string) (rec : bool) :
  words pairs = true -> NoDup (map fst pairs) ->
  exists p',
    P.parse (P.of_buffer (dump pairs) name rec) = Ok p'
    /\ P.heap p' = [as_node pairs] /\ P.tree p' = 0.
Proof.
  intros Hw Hnd. unfold P.parse, P.of_buffer, L.init.
  rewrite replace_crlf_no_cr; [|now apply dump_no_cr].
  cbn [P.tree].
  destruct (parse_loop_dump pairs
              (S (P.budget (P.mkParser (L.mkLexer (dump pairs) name 1 1 []) false None
                                       rec name [ [] ] 0)))
              name name 1 1 [] rec [] Hw) as [lx' E].
  { unfold P.budget. cbn [P._lexer P._finished P._last_peek L.leftover].
    pose proof (dump_length pairs). lia. }
  eexists. split; [etransitivity; [apply (f_equal (fun r => bind r _) E)|reflexivity]|].
  cbn [P.heap P.tree]. split; [|reflexivity].
  rewrite assign_all_distinct; [reflexivity | exact Hnd | reflexivity].
Qed.

Lemma parse_dump_witness :
  words [("classname", "worldspawn"); ("skyname", "sky_day01_01")] = true
  /\ exists p',
       P.parse (P.of_buffer (dump [("classname", "worldspawn"); ("skyname", "sky_day01_01")])
                            "memory" false) = Ok p'
       /\ P.heap p' = [ [("classname", VStr "worldspawn"); ("skyname", VStr "sky_day01_01")] ]
       /\ P.tree p' = 0.
Proof.
  split; [reflexivity|].
  apply (parse_dump [("classname", "worldspawn"); ("skyname", "sky_day01_01")] "memory" false).
  - reflexivity.
  - repeat constructor; cbn; intuition discriminate.
Defined.

(** X20.  A key assigned twice keeps its first place in the node and takes
    the later value: after the assignments of a flat document, the lookup of
    the key of the last line gives the value of that line. *)
Theorem parse_dump_last_wins (pairs : list (string * string)) (k v name : string)
    (rec : bool) :
  words (pairs ++ [(k, v)])%list = true ->
  exists p' d,
    P.parse (P.of_buffer (dump (pairs ++ [(k, v)])%list) name rec) = Ok p'
    /\ P.heap p' = [d] /\ dict_get String.eqb d k = Some (VStr v).
Proof.
  intros Hw. unfold P.parse, P.of_buffer, L.init.
  rewrite replace_crlf_no_cr; [|now apply dump_no_cr].
  cbn [P.tree].
  destruct (parse_loop_dump (pairs ++ [(k, v)])%list
              (S (P.budget (P.mkParser (L.mkLexer (dump (pairs ++ [(k, v)])%list) name 1 1 [])
                                       false None rec name [ [] ] 0)))
              name name 1 1 [] rec [] Hw) as [lx' E].
  { unfold P.budget. cbn [P._lexer P._finished P._last_peek L.leftover].
    pose proof (dump_length (pairs ++ [(k, v)])%list). lia. }
  eexists _, _. split; [etransitivity; [apply (f_equal (fun r => bind r _) E)|reflexivity]|].
  cbn [P.heap]. split; [reflexivity|].
  unfold assign_all. rewrite fold_left_app. cbn [fold_left fst snd].
  apply dict_get_set_same.
Qed.

Lemma parse_dump_last_wins_witness :
  words ([("a", "1"); ("b", "2")] ++ [("a", "3")])%list = true
  /\ exists p' d,
       P.parse (P.of_buffer (dump ([("a", "1"); ("b", "2")] ++ [("a", "3")])%list)
                            "memory" false) = Ok p'
       /\ P.heap p' = [d] /\ dict_get String.eqb d "a" = Some (VStr "3").
Proof.
  split; [reflexivity|].
  exact (parse_dump_last_wins [("a", "1"); ("b", "2")] "a" "3" "memory" false eq_refl).
Defined.

(** * Further properties of the token stream *)

Lemma replace_crlf_length (s : string) :
  String.length (replace_crlf s) <= String.length s
  /\ forall c, String.length (replace_crlf (String c s)) <= S (String.length s).
Proof.
  induction s as [|c' s [IH1 IH2]].
  - split; [cbn; lia | intros c; cbn; lia].
  - split; [apply IH2|]. intros c.
    change (replace_crlf (String c (String c' s)))
      with (if Ascii.eqb c cr && Ascii.eqb c' nl
            then String nl (replace_crlf s)
            else String c (replace_crlf (String c' s))).
    specialize (IH2 c').
    destruct (Ascii.eqb c cr && Ascii.eqb c' nl); cbn [String.length]; lia.
Qed.

Lemma lex_all_run (fuel : nat) :
  forall lx, len lx < fuel -> token_run (len lx) (L.lex_all fuel lx).
Proof.
  induction fuel as [|fuel IH]; intros lx Hf; [lia|].
  cbn [L.lex_all].
  pose proof (lex_progress (S (len lx)) lx (Nat.lt_succ_diag_r _)) as H.
  unfold len in H at 1. 
  destruct (L.lex (S (String.length (L.leftover lx))) lx) as [[[tok lx'] fin]|e|];
    cbn [bind lex_outcome token_run] in H |- *; [|exact H|exact H].
  destruct fin.
  - destruct H as [-> _]. exists []. repeat split; [constructor | cbn; lia].
  - destruct H as [Hne Hlt].
    specialize (IH lx' ltac:(lia)).
    destruct (L.lex_all fuel lx') as [ts|e|]; cbn [bind token_run] in IH |- *;
      [|exact IH|exact IH].
    destruct IH as (body & -> & Hall & Hlen).
    exists (tok :: body). repeat split; [constructor; assumption | cbn; lia].
Qed.

(** X21.  The tokens of a buffer: the generator run to its end comes to an
    end on every buffer, with the lexer's exception or with a list of tokens
    that ends in the end-of-file token, holds no other end-of-file token,
    and has at most one token per character before it. *)
Theorem tokens_of_run (buffer : string) :
  token_run (String.length buffer) (L.tokens_of buffer).
Proof.
  unfold L.tokens_of.
  pose proof (lex_all_run (S (S (String.length (L.leftover (L.init buffer "<memory>")))))
                (L.init buffer "<memory>")) as H.
  unfold len in H. specialize (H ltac:(lia)).
  destruct (L.lex_all _ _) as [ts|e|]; cbn [token_run] in H |- *; auto.
  destruct H as (body & -> & Hall & Hlen). exists body. repeat split; auto.
  cbn [L.init L.leftover] in Hlen.
  pose proof (proj1 (replace_crlf_length buffer)). lia.
Qed.

(** ** Lookahead *)

(** X22.  [peek] loses no token: after a [peek] that returned a token, a
    second [peek] returns the same token and changes nothing, and [advance]
    returns that token, as it would have without the [peek], and leaves the
    lookahead empty. *)
Theorem peek_then_advance (p p1 : P.t) (tok : token) :
  P.peek p = Ok (tok, p1) ->
  P.peek p1 = Ok (tok, p1)
  /\ P.advance p1 = Ok (tok, P.set_last_peek p1 None)
  /\ P.advance p = Ok (tok, P.set_last_peek p1 None).
Proof.
  unfold P.peek, P.advance. destruct (P._last_peek p) as [t0|] eqn:E.
  - intros H. injection H as <- <-. rewrite E. auto.
  - unfold P.next. destruct (P._finished p); [discriminate|].
    destruct (L.lex _ _) as [[[t1 lx] fin]|e|]; cbn [bind]; try discriminate.
    intros H. injection H as <- <-.
    cbn [P._last_peek P.set_last_peek P.set_tokens P._lexer P._finished P._self_recover
         P._path P.heap P.tree].
    repeat split. unfold P.set_tokens, P.set_last_peek.
    cbn [P._last_peek P._lexer P._finished P._self_recover P._path P.heap P.tree].
    now rewrite E.
Qed.

Lemma peek_then_advance_witness :
  let p := P.of_buffer "key value" "memory" false in
  exists p1,
    P.peek p = Ok ((STRING, Some "key"), p1)
    /\ P.peek p1 = Ok ((STRING, Some "key"), p1)
    /\ P.advance p1 = Ok ((STRING, Some "key"), P.set_last_peek p1 None)
    /\ P.advance p = Ok ((STRING, Some "key"), P.set_last_peek p1 None).
Proof.
  eexists. split; [reflexivity|].
  apply (peek_then_advance (P.of_buffer "key value" "memory" false)).
  reflexivity.
Defined.

(** * Further properties of the container *)

Section Container.
Context {W : World}.
Variable parse : Lump_class -> LumpInfo.t -> option IBuffer -> BSPFile.t
                 -> result (Lump * BSPFile.t).

(** ** The descriptors [from_filename] reads *)

Lemma nth_error_update_other {A : Type} (l : list A) (i j : nat) (a : A) :
  i <> j -> nth_error (P.update l i a) j = nth_error l j.
Proof.
  revert i j. induction l as [|x l IH]; intros [|i] [|j] Hne; simpl; auto;
    try congruence.
Qed.

Lemma nth_error_update_same {A : Type} (l : list A) (i : nat) (a : A) :
  i < List.length l -> nth_error (P.update l i a) i = Some a.
Proof.
  revert i. induction l as [|x l IH]; intros [|i] Hlt; simpl in *; try lia; auto.
  apply IH. lia.
Qed.

(** The loop over the descriptor records fills the slots [lump_id], ...,
    [lump_id + rounds - 1], each with a record that carries the number of
    its slot, and leaves the slots before them as they were. *)
Lemma read_descriptors_spec (rounds : nat) :
  forall lump_id is_l4d2 buffer (lumps_info lumps_info' : list (option LumpInfo.t)) buffer',
  BSPFile.read_descriptors rounds lump_id is_l4d2 buffer lumps_info
  = Ok (lumps_info', buffer') ->
  List.length lumps_info' = List.length lumps_info
  /\ (forall i, lump_id <= i < lump_id + rounds ->
        exists lump, nth_error lumps_info' i = Some (Some lump) /\ LumpInfo.id lump = i)
  /\ (forall i, i < lump_id -> nth_error lumps_info' i = nth_error lumps_info i).
Proof.
  induction rounds as [|rounds IH]; intros lump_id is_l4d2 buffer infos infos' buffer' H.
  - injection H as <- <-. repeat split; auto. intros i Hi. lia.
  - cbn [BSPFile.read_descriptors] in H.
    destruct (LumpInfo_from_buffer buffer is_l4d2) as [[lump b1]| |];
      cbn [bind] in H; try discriminate.
    destruct (assign infos lump_id (Some (LumpInfo.set_id lump lump_id)))
      as [infos1| |] eqn:E; cbn [bind] in H; try discriminate.
    pose proof (assign_length _ _ _ _ E) as Hlen.
    unfold assign in E.
    destruct (lump_id <? List.length infos)%nat eqn:Hlt; [|discriminate].
    apply Nat.ltb_lt in Hlt. injection E as <-.
    destruct (IH _ _ _ _ _ _ H) as (H1 & H2 & H3). split; [|split].
    + lia.
    + intros i Hi. destruct (Nat.eq_dec i lump_id) as [->|Hne].
      * exists (LumpInfo.set_id lump lump_id). split; [|reflexivity].
        rewrite H3 by lia. now apply nth_error_update_same.
      * apply H2. lia.
    + intros i Hi. rewrite H3 by lia. apply nth_error_update_other. lia.
Qed.

(** X23.  A container [BSPFile.from_filename] returns has 64 descriptor
    slots, none of them empty, and the record in slot [i] carries the
    identifier [i]; nothing is decoded yet. *)
Theorem from_filename_descriptors (filepath : string) (bsp : BSPFile.t) :
  BSPFile.from_filename filepath = Ok bsp ->
  List.length (BSPFile.lumps_info bsp) = 64
  /\ (forall i, i < 64 ->
        exists lump, nth_error (BSPFile.lumps_info bsp) i = Some (Some lump)
                     /\ LumpInfo.id lump = i)
  /\ BSPFile.lumps bsp = []
  /\ BSPFile.filepath bsp = filepath.
Proof.
  unfold BSPFile.from_filename, BSPFile.init.
  destruct (FileBuffer filepath) as [b0| |]; cbn [bind]; try discriminate.
  destruct (provider_steam_id filepath) as [app| |]; cbn [bind]; try discriminate.
  destruct (read_fourcc b0) as [[magic b1]| |]; cbn [bind]; try discriminate.
  destruct (assert (magic =? "VBSP")) as [[]| |]; cbn [bind]; try discriminate.
  destruct (read_int32 b1) as [[v b2]| |]; cbn [bind]; try discriminate.
  destruct (peek_uint32 b2) as [peeked| |]; cbn [bind]; try discriminate.
  destruct (BSPFile.read_descriptors _ _ _ _ _) as [[infos b3]| |] eqn:E;
    cbn [bind]; try discriminate.
  destruct (read_int32 b3) as [[r b4]| |]; cbn [bind]; try discriminate.
  intros H. injection H as <-.
  destruct (read_descriptors_spec _ _ _ _ _ _ _ E) as (H1 & H2 & _).
  rewrite repeat_length in H1.
  cbn. repeat split; auto. intros i Hi. apply H2. lia.
Qed.

(** ** The decoder [get_lump] selects among equals *)

Lemma rank_matches_last (self : BSPFile.t)
    (matches : list (Lump_class * LumpTag.t)) :
  forall best best',
  BSPFile.rank_matches self matches best = Ok best' ->
  forall r m, dict_get Nat.eqb best' r = Some m ->
  (dict_get Nat.eqb best r = Some m
   /\ forall m', In m' matches -> BSPFile.rank self (snd m') <> Ok r)
  \/ (exists pre post,
        matches = (pre ++ m :: post)%list
        /\ BSPFile.rank self (snd m) = Ok r
        /\ forall m', In m' post -> BSPFile.rank self (snd m') <> Ok r).
Proof.
  induction matches as [|[sub dep] matches IH]; intros best best' H r m Hget.
  - injection H as <-. left. split; [exact Hget | intros m' []].
  - cbn [BSPFile.rank_matches] in H.
    destruct (BSPFile.rank self dep) as [r0| |] eqn:Hr; cbn [bind] in H;
      try discriminate.
    destruct (IH _ _ H r m Hget) as [[Hg Hnone] | (pre & post & -> & Hrk & Hpost)].
    + rewrite dict_get_set_nat in Hg. destruct (Nat.eqb r r0) eqn:E.
      * apply Nat.eqb_eq in E. subst r0. injection Hg as <-.
        right. exists [], matches. repeat split; auto.
      * apply Nat.eqb_neq in E. left. split; [exact Hg|].
        intros m' [<- | Hin]; [cbn [snd]; congruence | now apply Hnone].
    + right. exists ((sub, dep) :: pre), post. repeat split; auto.
Qed.

(** X24.  Among the candidates of the highest rank [get_lump] selects the one
    the registry lists last: every candidate listed after the selected one
    has a rank strictly below its rank. *)
Theorem best_match_last_of_equals (self : BSPFile.t) (lump_name : string)
    (sub : Lump_class) (dep : LumpTag.t) :
  BSPFile.best_match self lump_name = Ok (Some (sub, dep)) ->
  exists pre post r,
    BSPFile.scan_subclasses self lump_name all_subclasses []
    = Ok (pre ++ (sub, dep) :: post)%list
    /\ BSPFile.rank self dep = Ok r
    /\ forall m, In m post ->
         exists r', BSPFile.rank self (snd m) = Ok r' /\ r' < r.
Proof.
  unfold BSPFile.best_match. intros H.
  destruct (BSPFile.scan_subclasses self lump_name all_subclasses [])
    as [matches| |] eqn:Hscan; cbn [bind] in H; try discriminate.
  destruct (BSPFile.rank_matches self matches []) as [best| |] eqn:Hrank;
    cbn [bind] in H; try discriminate.
  destruct (rank_matches_spec _ _ _ _ Hrank) as (_ & _ & H3).
  destruct (dict_keys best) as [|k ks] eqn:Hk; [discriminate|].
  destruct (fold_max_spec ks k) as [_ Hmax].
  destruct (dict_get Nat.eqb best (fold_left Nat.max ks k)) as [m|] eqn:Hget;
    [|discriminate].
  injection H as ->.
  destruct (rank_matches_last _ _ _ _ Hrank _ _ Hget)
    as [[Hg _] | (pre & post & -> & Hr & Hpost)]; [discriminate|].
  exists pre, post, (fold_left Nat.max ks k). cbn [snd] in Hr.
  repeat split; auto.
  intros m' Hm'. destruct (H3 m') as (r' & Hr' & Hin').
  { apply in_or_app. right. now right. }
  exists r'. split; [exact Hr'|].
  specialize (Hmax r' Hin'). specialize (Hpost m' Hm').
  assert (r' <> fold_left Nat.max ks k) by congruence. lia.
Qed.

(** ** A name no decoder is registered for *)

Lemma scan_tags_no_name (self : BSPFile.t) (lump_name : string) (sub : Lump_class)
    (deps : list LumpTag.t) (matches : list (Lump_class * LumpTag.t)) :
  (forall dep, In dep deps -> LumpTag.lump_name dep <> lump_name) ->
  BSPFile.scan_tags self lump_name sub deps matches = Ok matches.
Proof.
  induction deps as [|dep deps IH]; intros Hn; [reflexivity|].
  cbn [BSPFile.scan_tags].
  assert (E : String.eqb (LumpTag.lump_name dep) lump_name = false).
  { apply String.eqb_neq. apply Hn. now left. }
  rewrite E. apply IH. intros d Hd. apply Hn. now right.
Qed.

Lemma scan_subclasses_no_name (self : BSPFile.t) (lump_name : string)
    (subs : list Lump_class) (matches : list (Lump_class * LumpTag.t)) :
  (forall sub dep, In sub subs -> In dep (tags sub) ->
     LumpTag.lump_name dep <> lump_name) ->
  BSPFile.scan_subclasses self lump_name subs matches = Ok matches.
Proof.
  induction subs as [|sub subs IH]; intros Hn; [reflexivity|].
  cbn [BSPFile.scan_subclasses].
  rewrite scan_tags_no_name; [|intros dep Hd; apply (Hn sub); [now left | exact Hd]].
  cbn [bind]. apply IH. intros s d Hs Hd. apply (Hn s); [now right | exact Hd].
Qed.

(** X25.  Asking for a lump no registered rule names: [get_lump] raises
    nothing, returns [None] and leaves the container as it is; in particular
    it caches nothing, and every later call scans the registry again. *)
Theorem get_lump_unknown_name (self : BSPFile.t) (lump_name : string) :
  (forall sub dep, In sub all_subclasses -> In dep (tags sub) ->
     LumpTag.lump_name dep <> lump_name) ->
  dict_get lumps_key_eqb (BSPFile.lumps self) (KName lump_name) = None ->
  BSPFile.get_lump parse lump_name self = Ok (None, self).
Proof.
  intros Hn Hc. unfold BSPFile.get_lump, BSPFile.best_match.
  rewrite Hc, scan_subclasses_no_name by exact Hn. reflexivity.
Qed.

(** ** What [get_lump] stores *)

Lemma lumps_key_eqb_eq (a b : lumps_key) : lumps_key_eqb a b = true <-> a = b.
Proof.
  destruct a as [x|x], b as [y|y]; cbn [lumps_key_eqb];
    try (split; [discriminate | congruence]).
  - rewrite String.eqb_eq. split; congruence.
  - rewrite Nat.eqb_eq. split; congruence.
Qed.

Lemma dict_get_set_key {V : Type} (d : dict lumps_key V) (k k' : lumps_key) (v : V) :
  dict_get lumps_key_eqb (dict_set lumps_key_eqb d k v) k'
  = if lumps_key_eqb k' k then Some v else dict_get lumps_key_eqb d k'.
Proof.
  induction d as [|[k0 v0] d IH]; cbn [dict_set dict_get].
  - reflexivity.
  - destruct (lumps_key_eqb k k0) eqn:E; cbn [dict_get].
    + apply lumps_key_eqb_eq in E. subst k0.
      destruct (lumps_key_eqb k' k); reflexivity.
    + rewrite IH. destruct (lumps_key_eqb k' k0) eqn:E0; [|reflexivity].
      apply lumps_key_eqb_eq in E0. subst k0.
      destruct (lumps_key_eqb k' k) eqn:E1; [|reflexivity].
      apply lumps_key_eqb_eq in E1. subst k'. rewrite lumps_key_eqb_refl in E.
      discriminate.
Qed.

(** X26.  A lump [get_lump] has decoded is stored twice in [lumps]: under the
    name it was asked for, by [get_lump], and under the identifier of the
    selected rule, by [parse_lump]; both entries hold the object
    returned. *)
Theorem get_lump_stores_under_name_and_id (self self1 : BSPFile.t)
    (lump_name : string) (lump : Lump) :
  dict_get lumps_key_eqb (BSPFile.lumps self) (KName lump_name) = None ->
  BSPFile.get_lump parse lump_name self = Ok (Some lump, self1) ->
  exists sub dep,
    BSPFile.best_match self lump_name = Ok (Some (sub, dep))
    /\ dict_get lumps_key_eqb (BSPFile.lumps self1) (KName lump_name) = Some (Some lump)
    /\ dict_get lumps_key_eqb (BSPFile.lumps self1) (KId (LumpTag.lump_id dep))
       = Some (Some lump).
Proof.
  intros Hc. unfold BSPFile.get_lump. rewrite Hc.
  destruct (BSPFile.best_match self lump_name) as [[[sub dep]|]| |];
    cbn [bind]; try discriminate.
  unfold BSPFile.parse_lump.
  destruct (index (BSPFile.lumps_info self) (LumpTag.lump_id dep)) as [slot| |];
    cbn [bind]; try discriminate.
  destruct (attr slot LumpInfo.size) as [sz| |]; cbn [bind]; try discriminate.
  destruct (negb (sz =? 0)%Z); [|discriminate].
  destruct (attr slot (fun i => i)) as [info| |]; cbn [bind]; try discriminate.
  destruct (BSPFile._get_lump_buffer (LumpTag.lump_id dep) info self)
    as [[buffer self2]| |]; cbn [bind]; try discriminate.
  destruct (parse sub info buffer self2) as [[parsed self3]| |]; cbn [bind];
    try discriminate.
  intros H. injection H as -> <-. exists sub, dep. split; [reflexivity|].
  cbn [BSPFile.lumps BSPFile.set_lumps]. rewrite !dict_get_set_key.
  cbn [lumps_key_eqb]. rewrite String.eqb_refl, Nat.eqb_refl. auto.
Qed.

(** X27.  An empty lump: when the selected rule names a lump of size 0 no
    buffer is made and no decoder is run; [get_lump] returns [None] and
    stores [None] under the name, so that later calls answer [None] from
    the cache. *)
Theorem get_lump_empty_lump (self : BSPFile.t) (lump_name : string)
    (sub : Lump_class) (dep : LumpTag.t) (lump_info : LumpInfo.t) :
  dict_get lumps_key_eqb (BSPFile.lumps self) (KName lump_name) = None ->
  BSPFile.best_match self lump_name = Ok (Some (sub, dep)) ->
  index (BSPFile.lumps_info self) (LumpTag.lump_id dep) = Ok (Some lump_info) ->
  LumpInfo.size lump_info = 0%Z ->
  let self1 :=
    BSPFile.set_lumps self
      (dict_set lumps_key_eqb (BSPFile.lumps self) (KName lump_name) None) in
  BSPFile.get_lump parse lump_name self = Ok (None, self1)
  /\ BSPFile.get_lump parse lump_name self1 = Ok (None, self1).
Proof.
  intros Hc Hb Hi Hs self1.
  assert (E : BSPFile.get_lump parse lump_name self = Ok (None, self1)).
  { unfold BSPFile.get_lump, BSPFile.parse_lump. rewrite Hc, Hb. cbn [bind].
    rewrite Hi. cbn [bind attr]. rewrite Hs. reflexivity. }
  split; [exact E|].
  unfold BSPFile.get_lump. subst self1. cbn [BSPFile.lumps BSPFile.set_lumps].
  rewrite dict_get_set_key, lumps_key_eqb_refl. reflexivity.
Qed.

(** ** The buffer handed to a decoder *)

(** X28.  [_get_lump_buffer] changes the container in one case only: when it
    returns a buffer the container is as it was, and it returns [None] only
    for a compressed lump without an override file, the container's buffer
    then being the decompressed lump, of the size its descriptor
    announces. *)
Theorem get_lump_buffer_keeps_container (lump_id : nat) (lump_info : LumpInfo.t)
    (self self1 : BSPFile.t) (buffer : option IBuffer) :
  BSPFile._get_lump_buffer lump_id lump_info self = Ok (buffer, self1) ->
  match buffer with
  | Some _ => self1 = self
  | None =>
      LumpInfo.compressed lump_info = true
      /\ path_exists (BSPFile.lump_path self lump_id) = false
      /\ buffer_size (BSPFile.buffer self1) = LumpInfo.decompressed_size lump_info
      /\ BSPFile.lumps self1 = BSPFile.lumps self
      /\ BSPFile.lumps_info self1 = BSPFile.lumps_info self
  end.
Proof.
  unfold BSPFile._get_lump_buffer.
  destruct (path_exists (BSPFile.lump_path self lump_id)).
  - destruct (FileBuffer _) as [b| |]; cbn [bind]; try discriminate.
    intros H. injection H as <- <-. reflexivity.
  - destruct (LumpInfo.compressed lump_info); cbn [negb].
    + destruct (slice _ _ _) as [sl| |]; cbn [bind]; try discriminate.
      destruct (decompress_lump sl) as [b| |]; cbn [bind]; try discriminate.
      destruct (assert _) as [[]| |] eqn:Ha; cbn [bind]; try discriminate.
      intros H. injection H as <- <-.
      unfold assert in Ha.
      destruct (buffer_size (BSPFile.buffer (BSPFile.set_buffer self b))
                =? LumpInfo.decompressed_size lump_info)%Z eqn:Hz; [|discriminate].
      apply Z.eqb_eq in Hz. repeat split; auto.
    + destruct (slice _ _ _) as [sl| |]; cbn [bind]; try discriminate.
      intros H. injection H as <- <-. reflexivity.
Qed.

End Container.

(** ** Opening a file *)

Section OpeningMore.
Context {W : World}.

Lemma substring_8_length (contents : string) :
  (String.length (substring 0 8 contents) = 8 <-> 8 <= String.length contents)%nat.
Proof.
  do 8 (destruct contents as [|? contents]; [cbn; lia|]).
  cbn. destruct contents; cbn; lia.
Qed.

Lemma substring_4_of_8 (contents : string) :
  (8 <= String.length contents)%nat ->
  substring 0 4 (substring 0 8 contents) = substring 0 4 contents.
Proof.
  intros Hlen.
  do 4 (destruct contents as [|? contents]; [simpl in Hlen; lia|]).
  cbn. destruct (substring 0 4 contents); destruct contents; reflexivity.
Qed.

(** X29.  A file shorter than the eight bytes of the header: [open_bsp]
    raises the error of [unpack], whatever the bytes are. *)
Theorem open_bsp_short_file (filepath contents : string) :
  file_bytes filepath = Some contents ->
  (String.length contents < 8)%nat ->
  open_bsp filepath = Raise StructError.
Proof.
  intros Hf Hlen. unfold open_bsp, path_exists, open_rb. rewrite Hf.
  cbn [assert bind]. unfold unpack_4sI.
  destruct (Nat.eqb_spec (String.length (substring 0 8 contents)) 8) as [E|E];
    [|reflexivity].
  apply substring_8_length in E. lia.
Qed.

(** X30.  Whatever [open_bsp] returns as a container is the result of
    [BSPFile.from_filename] on a file of at least eight bytes that starts
    with [VBSP]: no container ever comes from the respawn branch. *)
Theorem open_bsp_returns_only_vbsp (filepath : string) (bsp : BSPFile.t) :
  open_bsp filepath = Ok (Some bsp) ->
  exists contents,
    file_bytes filepath = Some contents
    /\ (8 <= String.length contents)%nat
    /\ substring 0 4 contents = "VBSP"
    /\ BSPFile.from_filename filepath = Ok bsp.
Proof.
  unfold open_bsp, path_exists, open_rb.
  destruct (file_bytes filepath) as [contents|]; cbn [assert bind]; [|discriminate].
  unfold unpack_4sI.
  destruct (Nat.eqb_spec (String.length (substring 0 8 contents)) 8) as [E|E];
    cbn [bind]; [|discriminate].
  apply substring_8_length in E. rewrite (substring_4_of_8 _ E).
  destruct (String.eqb_spec (substring 0 4 contents) "VBSP") as [Hv|Hv].
  - destruct (BSPFile.from_filename filepath) as [b| |]; cbn [bind]; try discriminate.
    intros H. injection H as <-. exists contents. auto.
  - destruct (String.eqb (substring 0 4 contents) "rBSP"); [|discriminate].
    destruct (RespawnBSPFile.from_filename filepath) as [b| |] eqn:Hr;
      cbn [bind]; try discriminate.
    exfalso. exact (respawn_from_filename_never_returns filepath b Hr).
Qed.

End OpeningMore.

(** ** The properties of the container, on examples *)

Lemma from_filename_descriptors_witness :
  exists bsp,
    @BSPFile.from_filename (Sample.world [("maps/v.bsp", vbsp_file)] [] 0) "maps/v.bsp"
    = Ok bsp
    /\ List.length (BSPFile.lumps_info bsp) = 64
    /\ (forall i, i < 64 ->
          exists lump, nth_error (BSPFile.lumps_info bsp) i = Some (Some lump)
                       /\ LumpInfo.id lump = i)
    /\ BSPFile.lumps bsp = []
    /\ BSPFile.filepath bsp = "maps/v.bsp".
Proof.
  assert (H : match @BSPFile.from_filename
                     (Sample.world [("maps/v.bsp", vbsp_file)] [] 0) "maps/v.bsp" with
             | Ok _ => true
             | _ => false
             end = true) by (vm_compute; reflexivity).
  destruct (@BSPFile.from_filename (Sample.world [("maps/v.bsp", vbsp_file)] [] 0)
              "maps/v.bsp") as [bsp|e|] eqn:E; [|discriminate H|discriminate H].
  exists bsp. split; [reflexivity|].
  exact (@from_filename_descriptors (Sample.world [("maps/v.bsp", vbsp_file)] [] 0)
           "maps/v.bsp" bsp E).
Defined.

Lemma best_match_spec_witness :
  let bsp := Sample.container Sample.registry_CB 3 false in
  BSPFile.best_match bsp "X" = Ok (Some ("C", Sample.tagC))
  /\ exists matches r,
       BSPFile.scan_subclasses bsp "X" ["C"; "B"] [] = Ok matches
       /\ In ("C", Sample.tagC) matches
       /\ BSPFile.passes bsp Sample.tagC = Ok true
       /\ BSPFile.rank bsp Sample.tagC = Ok r
       /\ forall m, In m matches ->
            exists r', BSPFile.rank bsp (snd m) = Ok r' /\ r' <= r.
Proof.
  cbv zeta. split; [reflexivity|].
  destruct (@best_match_spec (Sample.world [] Sample.registry_CB 0)
              (Sample.container Sample.registry_CB 3 false) "X" "C" Sample.tagC eq_refl)
    as (matches & r & H1 & H2 & _ & _ & _ & H6 & H7 & H8).
  exists matches, r. repeat split; assumption.
Defined.

Lemma best_match_last_of_equals_witness :
  let bsp := Sample.container Sample.registry_CB 3 false in
  BSPFile.best_match bsp "X" = Ok (Some ("C", Sample.tagC))
  /\ exists pre post r,
       BSPFile.scan_subclasses bsp "X" ["C"; "B"] [] = Ok (pre ++ ("C", Sample.tagC) :: post)%list
       /\ BSPFile.rank bsp Sample.tagC = Ok r
       /\ forall m, In m post ->
            exists r', BSPFile.rank bsp (snd m) = Ok r' /\ r' < r.
Proof.
  cbv zeta. split; [reflexivity|].
  exact (@best_match_last_of_equals (Sample.world [] Sample.registry_CB 0)
           (Sample.container Sample.registry_CB 3 false) "X" "C" Sample.tagC eq_refl).
Defined.

Lemma get_lump_unknown_name_witness :
  let bsp := Sample.container Sample.registry_AB 0 false in
  @BSPFile.get_lump (Sample.world [] Sample.registry_AB 0)
    (fun _ _ _ _ => Raise ExternalError) "Y" bsp
  = Ok (None, bsp).
Proof.
  cbv zeta.
  apply (@get_lump_unknown_name (Sample.world [] Sample.registry_AB 0)
           (fun _ _ _ _ => Raise ExternalError)
           (Sample.container Sample.registry_AB 0 false) "Y").
  - intros sub dep Hs Hd. cbn in Hs.
    destruct Hs as [<- | [<- | []]]; cbn in Hd; destruct Hd as [<- | []]; discriminate.
  - reflexivity.
Defined.

Lemma get_lump_stores_under_name_and_id_witness :
  let bsp := Sample.container Sample.registry_CB 3 false in
  exists bsp1,
    @BSPFile.get_lump (Sample.world [] Sample.registry_CB 0)
      (Sample.parse [] Sample.registry_CB 0) "X" bsp
    = Ok (Some ("C", "abcd"), bsp1)
    /\ exists sub dep,
         BSPFile.best_match bsp "X" = Ok (Some (sub, dep))
         /\ dict_get lumps_key_eqb (BSPFile.lumps bsp1) (KName "X")
            = Some (Some ("C", "abcd"))
         /\ dict_get lumps_key_eqb (BSPFile.lumps bsp1) (KId (LumpTag.lump_id dep))
            = Some (Some ("C", "abcd")).
Proof.
  cbv zeta. eexists. split; [reflexivity|].
  apply (@get_lump_stores_under_name_and_id (Sample.world [] Sample.registry_CB 0)
           (Sample.parse [] Sample.registry_CB 0)
           (Sample.container Sample.registry_CB 3 false)); reflexivity.
Defined.

Lemma get_lump_empty_lump_witness :
  let bsp :=
    @BSPFile.mk (Sample.world [] Sample.registry_CB 0) "maps/m.bsp"
      (Sample.mkBuf "abcdefgh" 0) 21 [Some (LumpInfo.mk 0 0 0 3 false 0)] [] 0 0 in
  let bsp1 := BSPFile.set_lumps bsp [(KName "X", None)] in
  BSPFile.get_lump (fun _ _ _ _ => Raise ExternalError) "X" bsp = Ok (None, bsp1)
  /\ BSPFile.get_lump (fun _ _ _ _ => Raise ExternalError) "X" bsp1 = Ok (None, bsp1).
Proof.
  cbv zeta.
  apply (@get_lump_empty_lump (Sample.world [] Sample.registry_CB 0)
           (fun _ _ _ _ => Raise ExternalError)
           (@BSPFile.mk (Sample.world [] Sample.registry_CB 0) "maps/m.bsp"
              (Sample.mkBuf "abcdefgh" 0) 21 [Some (LumpInfo.mk 0 0 0 3 false 0)] [] 0 0)
           "X" "C" Sample.tagC (LumpInfo.mk 0 0 0 3 false 0)); reflexivity.
Defined.

Lemma get_lump_buffer_keeps_container_witness :
  let bsp := Sample.container Sample.registry_CB 3 false in
  exists bsp1,
    BSPFile._get_lump_buffer 0 (LumpInfo.mk 0 2 4 3 false 0) bsp
    = Ok (Some (Sample.mkBuf "cdef" 0), bsp1)
    /\ bsp1 = bsp.
Proof.
  cbv zeta. eexists. split; [reflexivity|].
  exact (@get_lump_buffer_keeps_container (Sample.world [] Sample.registry_CB 0)
           0 (LumpInfo.mk 0 2 4 3 false 0)
           (Sample.container Sample.registry_CB 3 false) _
           (Some (Sample.mkBuf "cdef" 0)) eq_refl).
Defined.

Lemma open_bsp_short_file_witness :
  @file_bytes (Sample.world [("maps/s.bsp", "VBSP")] [] 0) "maps/s.bsp" = Some "VBSP"
  /\ @open_bsp (Sample.world [("maps/s.bsp", "VBSP")] [] 0) "maps/s.bsp"
     = Raise StructError.
Proof.
  split; [reflexivity|].
  apply (@open_bsp_short_file (Sample.world [("maps/s.bsp", "VBSP")] [] 0)
           "maps/s.bsp" "VBSP"); [reflexivity | cbn; lia].
Defined.

Lemma open_bsp_returns_only_vbsp_witness :
  exists bsp,
    @open_bsp (Sample.world [("maps/v.bsp", vbsp_file)] [] 0) "maps/v.bsp" = Ok (Some bsp)
    /\ exists contents,
         @file_bytes (Sample.world [("maps/v.bsp", vbsp_file)] [] 0) "maps/v.bsp"
         = Some contents
         /\ (8 <= String.length contents)%nat
         /\ substring 0 4 contents = "VBSP"
         /\ BSPFile.from_filename "maps/v.bsp" = Ok bsp.
Proof.
  assert (H : match @open_bsp (Sample.world [("maps/v.bsp", vbsp_file)] [] 0)
                     "maps/v.bsp" with
             | Ok (Some _) => true
             | _ => false
             end = true) by (vm_compute; reflexivity).
  destruct (@open_bsp (Sample.world [("maps/v.bsp", vbsp_file)] [] 0) "maps/v.bsp")
    as [[bsp|]|e|] eqn:E; [|discriminate H|discriminate H|discriminate H].
  exists bsp. split; [reflexivity|].
  exact (@open_bsp_returns_only_vbsp (Sample.world [("maps/v.bsp", vbsp_file)] [] 0)
           "maps/v.bsp" bsp E).
Defined.

(** ** The warnings of the lexer, on an example *)

Lemma lex_warns_only_unterminated_witness :
  let lx := L.init (String dquote "value" ++ Sample.NL ++ "d e") "memory" in
  exists tok lx' fin,
    L.lex 20 lx = Ok (tok, lx', fin)
    /\ exists ws, L.warned lx' = (L.warned lx ++ ws)%list
                  /\ forallb is_unterminated ws = true.
Proof.
  cbv zeta.
  assert (H : match L.lex 20 (L.init (String dquote "value" ++ Sample.NL ++ "d e")
                                     "memory") with
             | Ok _ => true
             | _ => false
             end = true) by (vm_compute; reflexivity).
  destruct (L.lex 20 (L.init (String dquote "value" ++ Sample.NL ++ "d e") "memory"))
    as [[[tok lx'] fin]|e|] eqn:E; [|discriminate H|discriminate H].
  exists tok, lx', fin. split; [reflexivity|].
  exact (lex_warns_only_unterminated 20 _ tok lx' fin E).
Defined.
